(** * BytesPathfinder: a shallow embedding of the pathfinding core

    The development follows [BytesPathfinder.h] (node, heap and graph
    types, the indexed binary heap) and [BytesPathfinder.cpp] (graph
    construction, the single-source search [FindPathsToNodes], the
    point-to-point search [FindPath], [GetPath] and [GetNodesInRange]).

    Conventions of the embedding:
    - [int32] values are integers of [Z]; arithmetic on them wraps around
      ([wrap32]);
    - a [FBytesNode*] is the index of the node inside the node array it
      points into, or [None] for [nullptr];
    - indexing an array outside its bounds, dereferencing [nullptr] and a
      loop that does not come to an end are faults of the [result] type;
      every loop and every recursion of the source takes a [fuel] that
      bounds its number of rounds. *)

From Stdlib Require Import ZArith Lia Sorted.
From stdpp Require Import base tactics option list gmap.

Local Open Scope Z_scope.

#[local] Set Warnings "-clear-no-such-hyp".

(** ** Results of partial computations *)

Inductive fault : Type :=
| OutOfRange (i : Z)
| NullPointer
| FuelExhausted.

Inductive result (A : Type) : Type :=
| Ok (a : A)
| Fail (f : fault).

Arguments Ok {A} a.
Arguments Fail {A} f.

#[global] Instance result_bind : MBind result := fun A B k r =>
  match r with
  | Ok a => k a
  | Fail f => Fail f
  end.

#[global] Instance result_ret : MRet result := fun A a => Ok a.

#[global] Instance result_fmap : FMap result := fun A B f r =>
  match r with
  | Ok a => Ok (f a)
  | Fail e => Fail e
  end.

(** ** 32-bit integers *)

Definition wrap32 (z : Z) : Z := (z + 2 ^ 31) mod 2 ^ 32 - 2 ^ 31.
Definition add32 (a b : Z) : Z := wrap32 (a + b).
Definition sub32 (a b : Z) : Z := wrap32 (a - b).
Definition mul32 (a b : Z) : Z := wrap32 (a * b).

Definition INITIAL_DISTANCE : Z := 2000000.

(** ** Arrays ([TArray], [std::vector]) indexed by [int32] *)

Definition Num {A : Type} (l : list A) : Z := Z.of_nat (length l).

Definition IsValidIndex {A : Type} (l : list A) (i : Z) : bool :=
  (0 <=? i) && (i <? Num l).

Definition at_index {A : Type} (l : list A) (i : Z) : result A :=
  if IsValidIndex l i then
    match l !! Z.to_nat i with
    | Some x => Ok x
    | None => Fail (OutOfRange i)
    end
  else Fail (OutOfRange i).

Definition set_index {A : Type} (l : list A) (i : Z) (x : A) : result (list A) :=
  if IsValidIndex l i then Ok (<[Z.to_nat i := x]> l) else Fail (OutOfRange i).

Definition update_at {A : Type} (l : list A) (i : Z) (f : A -> A) : result (list A) :=
  x ← at_index l i; set_index l i (f x).

(** ** Nodes, edges and graphs ([BytesPathfinder.h]) *)

Inductive EBytesGraphType : Type := Distance2D | Square | Hexagonal.

Section Pathfinder.

(** Positions are [FVector2D] values of the host engine; the core only
    hands them to the engine's distance function. *)
Context {FVector2D : Type}.

Record FBytesNode : Type := mkNode {
  NodeID : Z;
  ParentID : Z;
  GCost : Z;
  HCost : Z;
  Location2D : FVector2D;
  HeapIndex : Z
}.

(** [FBytesNode NewNode;]: the member initialisers of the struct give the
    first four fields; [Location2D] and [HeapIndex] have none and hold
    whatever the storage held. *)
Definition default_FBytesNode (indet_Location2D : FVector2D) (indet_HeapIndex : Z)
  : FBytesNode :=
  mkNode (-1) (-1) 0 0 indet_Location2D indet_HeapIndex.

Definition set_NodeID (v : Z) (n : FBytesNode) : FBytesNode :=
  mkNode v (ParentID n) (GCost n) (HCost n) (Location2D n) (HeapIndex n).
Definition set_ParentID (v : Z) (n : FBytesNode) : FBytesNode :=
  mkNode (NodeID n) v (GCost n) (HCost n) (Location2D n) (HeapIndex n).
Definition set_GCost (v : Z) (n : FBytesNode) : FBytesNode :=
  mkNode (NodeID n) (ParentID n) v (HCost n) (Location2D n) (HeapIndex n).
Definition set_HCost (v : Z) (n : FBytesNode) : FBytesNode :=
  mkNode (NodeID n) (ParentID n) (GCost n) v (Location2D n) (HeapIndex n).
Definition set_Location2D (v : FVector2D) (n : FBytesNode) : FBytesNode :=
  mkNode (NodeID n) (ParentID n) (GCost n) (HCost n) v (HeapIndex n).
Definition set_HeapIndex (v : Z) (n : FBytesNode) : FBytesNode :=
  mkNode (NodeID n) (ParentID n) (GCost n) (HCost n) (Location2D n) v.

Definition FCost (n : FBytesNode) : Z := add32 (GCost n) (HCost n).

Record FBytesEdge : Type := mkEdge {
  Edge_NodeID : Z;
  Weight : Z
}.

Record FBytesEdges : Type := mkEdges {
  NeighbouringEdges : list FBytesEdge
}.

Record FBytesGraph : Type := mkGraph {
  Nodes : list FBytesNode;
  Edges : list FBytesEdges;
  GraphType : EBytesGraphType
}.

Definition with_Nodes (ns : list FBytesNode) (g : FBytesGraph) : FBytesGraph :=
  mkGraph ns (Edges g) (GraphType g).
Definition with_Edges (es : list FBytesEdges) (g : FBytesGraph) : FBytesGraph :=
  mkGraph (Nodes g) es (GraphType g).

(** ** Pointers to nodes *)

Definition ptr : Type := option Z.

Definition deref (ns : list FBytesNode) (p : ptr) : result FBytesNode :=
  match p with
  | None => Fail NullPointer
  | Some a => at_index ns a
  end.

(** [p->field = v] *)
Definition assign (ns : list FBytesNode) (p : ptr) (f : FBytesNode -> FBytesNode)
  : result (list FBytesNode) :=
  match p with
  | None => Fail NullPointer
  | Some a => update_at ns a f
  end.

(** ** The heap [FBytesPathfindingHeap] *)

Record FBytesPathfindingHeap : Type := mkHeap {
  Items : list ptr;
  Size : Z
}.

Definition new_FBytesPathfindingHeap (Capacity : Z) : FBytesPathfindingHeap :=
  mkHeap (replicate (Z.to_nat Capacity) None) 0.

Definition GetParent (Index : Z) : Z := Z.quot (sub32 Index 1) 2.
Definition GetLeftChild (Index : Z) : Z := add32 (mul32 Index 2) 1.
Definition GetRightChild (Index : Z) : Z := add32 (mul32 Index 2) 2.

(** [a->FCost() < b->FCost() || a->FCost() == b->FCost() && a->HCost < b->HCost] *)
Definition cost_lt (a b : FBytesNode) : bool :=
  (FCost a <? FCost b) || ((FCost a =? FCost b) && (HCost a <? HCost b)).

(** [a->FCost() > b->FCost() || a->FCost() == b->FCost() && a->HCost > b->HCost] *)
Definition cost_gt (a b : FBytesNode) : bool :=
  (FCost a >? FCost b) || ((FCost a =? FCost b) && (HCost a >? HCost b)).

Definition Swap (ns : list FBytesNode) (h : FBytesPathfindingHeap) (X Y : ptr)
  : result (list FBytesNode * FBytesPathfindingHeap) :=
  x ← deref ns X;
  items1 ← set_index (Items h) (HeapIndex x) Y;
  y ← deref ns Y;
  items2 ← set_index items1 (HeapIndex y) X;
  let Temp := HeapIndex x in
  ns1 ← assign ns X (set_HeapIndex (HeapIndex y));
  ns2 ← assign ns1 Y (set_HeapIndex Temp);
  Ok (ns2, mkHeap items2 (Size h)).

Fixpoint SortUp (fuel : nat) (ns : list FBytesNode) (h : FBytesPathfindingHeap)
  (Node : ptr) : result (list FBytesNode * FBytesPathfindingHeap) :=
  match fuel with
  | O => Fail FuelExhausted
  | S fuel' =>
    n ← deref ns Node;
    Parent ← at_index (Items h) (GetParent (HeapIndex n));
    p ← deref ns Parent;
    if cost_lt n p then
      '(ns', h') ← Swap ns h Parent Node;
      SortUp fuel' ns' h' Node
    else Ok (ns, h)
  end.

Fixpoint SortDown (fuel : nat) (ns : list FBytesNode) (h : FBytesPathfindingHeap)
  (Node : ptr) : result (list FBytesNode * FBytesPathfindingHeap) :=
  match fuel with
  | O => Fail FuelExhausted
  | S fuel' =>
    n ← deref ns Node;
    let LIndex := GetLeftChild (HeapIndex n) in
    let RIndex := GetRightChild (HeapIndex n) in
    if LIndex <? Size h then
      SwapIndex ←
        (if RIndex <? Size h then
           L ← at_index (Items h) LIndex;
           l ← deref ns L;
           R ← at_index (Items h) RIndex;
           r ← deref ns R;
           Ok (if cost_gt l r then RIndex else LIndex)
         else Ok LIndex);
      ItemToSwap ← at_index (Items h) SwapIndex;
      s ← deref ns ItemToSwap;
      if cost_gt n s then
        '(ns', h') ← Swap ns h Node ItemToSwap;
        SortDown fuel' ns' h' Node
      else Ok (ns, h)
    else Ok (ns, h)
  end.

Definition Add (fuel : nat) (ns : list FBytesNode) (h : FBytesPathfindingHeap)
  (Node : ptr) : result (list FBytesNode * FBytesPathfindingHeap) :=
  ns1 ← assign ns Node (set_HeapIndex (Size h));
  items1 ← set_index (Items h) (Size h) Node;
  '(ns2, h2) ← SortUp fuel ns1 (mkHeap items1 (Size h)) Node;
  Ok (ns2, mkHeap (Items h2) (add32 (Size h2) 1)).

Definition RemoveFirst (fuel : nat) (ns : list FBytesNode) (h : FBytesPathfindingHeap)
  : result (ptr * list FBytesNode * FBytesPathfindingHeap) :=
  First ← at_index (Items h) 0;
  let Size' := sub32 (Size h) 1 in
  Last ← at_index (Items h) Size';
  items1 ← set_index (Items h) 0 Last;
  Root ← at_index items1 0;
  ns1 ← assign ns Root (set_HeapIndex 0);
  '(ns2, h2) ← SortDown fuel ns1 (mkHeap items1 Size') Root;
  Ok (First, ns2, h2).

Definition UpdateItem (fuel : nat) (ns : list FBytesNode) (h : FBytesPathfindingHeap)
  (Node : ptr) : result (list FBytesNode * FBytesPathfindingHeap) :=
  SortUp fuel ns h Node.

Definition IsNotEmpty (h : FBytesPathfindingHeap) : bool := Size h >? 0.

Definition Contains (h : FBytesPathfindingHeap) (Node : ptr) : bool :=
  existsb (fun Elem => bool_decide (Node = Elem)) (Items h).

(** ** Graph construction ([BytesPathfinder.cpp]) *)

Definition CreateGraph : FBytesGraph := mkGraph [] [] Distance2D.

(** [Graph.Nodes.Add(NewNode)] copies the node into the array before
    [NewNode.Location2D = Location2D] is executed on the local variable. *)
Definition AddNode (indet_Location2D : FVector2D) (indet_HeapIndex : Z)
  (Graph : FBytesGraph) (Location : FVector2D) : Z * FBytesGraph :=
  let NewNode := default_FBytesNode indet_Location2D indet_HeapIndex in
  let NewNode := set_NodeID (Num (Nodes Graph)) NewNode in
  let Graph := with_Nodes (Nodes Graph ++ [NewNode]) Graph in
  let NewNode := set_Location2D Location NewNode in
  let NewEdges := mkEdges [] in
  let Graph := with_Edges (Edges Graph ++ [NewEdges]) Graph in
  (NodeID NewNode, Graph).

Definition overwrite_weight (Target W : Z) (es : FBytesEdges) : FBytesEdges :=
  mkEdges (map (fun Edge => if Edge_NodeID Edge =? Target
                            then mkEdge (Edge_NodeID Edge) W else Edge)
               (NeighbouringEdges es)).

Definition append_edge (e : FBytesEdge) (es : FBytesEdges) : FBytesEdges :=
  mkEdges (NeighbouringEdges es ++ [e]).

Definition AddOrSetEdge (Graph : FBytesGraph) (NodeAID NodeBID W : Z)
  : result FBytesGraph :=
  if negb (IsValidIndex (Nodes Graph) NodeAID) || negb (IsValidIndex (Nodes Graph) NodeBID)
  then Ok Graph
  else
    EdgesA ← at_index (Edges Graph) NodeAID;
    if existsb (fun Edge => Edge_NodeID Edge =? NodeBID) (NeighbouringEdges EdgesA) then
      es1 ← update_at (Edges Graph) NodeAID (overwrite_weight NodeBID W);
      es2 ← update_at es1 NodeBID (overwrite_weight NodeAID W);
      Ok (with_Edges es2 Graph)
    else
      let EdgeAB := mkEdge NodeBID W in
      let EdgeBA := mkEdge NodeAID W in
      es1 ← update_at (Edges Graph) NodeAID (append_edge EdgeAB);
      es2 ← update_at es1 NodeBID (append_edge EdgeBA);
      Ok (with_Edges es2 Graph).

Definition InitNode (Node : FBytesNode) : FBytesNode :=
  set_ParentID (-1) (set_HCost 0 (set_GCost INITIAL_DISTANCE Node)).

Definition InitNodes (Graph : FBytesGraph) : FBytesGraph :=
  with_Nodes (map InitNode (Nodes Graph)) Graph.

(** ** Single-source search: [FindPathsToNodes] *)

(** [for (FBytesNode& Node : Graph.Nodes) Unvisited.Add(&Node);] *)
Fixpoint AddAll (fuel : nat) (ns : list FBytesNode) (h : FBytesPathfindingHeap)
  (addrs : list Z) : result (list FBytesNode * FBytesPathfindingHeap) :=
  match addrs with
  | [] => Ok (ns, h)
  | a :: rest =>
    '(ns1, h1) ← Add fuel ns h (Some a);
    AddAll fuel ns1 h1 rest
  end.

(** The loop over the edges of the extracted node. *)
Fixpoint RelaxEdges (fuel : nat) (ns : list FBytesNode) (Unvisited : FBytesPathfindingHeap)
  (Node : ptr) (es : list FBytesEdge)
  : result (list FBytesNode * FBytesPathfindingHeap) :=
  match es with
  | [] => Ok (ns, Unvisited)
  | NeighbourEdge :: rest =>
    n ← deref ns Node;
    cur ← at_index ns (NodeID n);
    let Distance := add32 (GCost cur) (Weight NeighbourEdge) in
    nb ← at_index ns (Edge_NodeID NeighbourEdge);
    if Distance <? GCost nb then
      ns1 ← update_at ns (Edge_NodeID NeighbourEdge) (set_GCost Distance);
      n1 ← deref ns1 Node;
      ns2 ← update_at ns1 (Edge_NodeID NeighbourEdge) (set_ParentID (NodeID n1));
      _ ← at_index ns2 (Edge_NodeID NeighbourEdge);
      '(ns3, h3) ← UpdateItem fuel ns2 Unvisited (Some (Edge_NodeID NeighbourEdge));
      RelaxEdges fuel ns3 h3 Node rest
    else RelaxEdges fuel ns Unvisited Node rest
  end.

(** [while (Unvisited.IsNotEmpty())]; [rounds] bounds the iterations of this
    loop and [fuel] those of the heap's loops. *)
Fixpoint FindPathsToNodes_loop (rounds fuel : nat) (es : list FBytesEdges)
  (ns : list FBytesNode) (Unvisited : FBytesPathfindingHeap)
  : result (list FBytesNode) :=
  match rounds with
  | O => Fail FuelExhausted
  | S rounds' =>
    if IsNotEmpty Unvisited then
      '(Node, ns1, h1) ← RemoveFirst fuel ns Unvisited;
      n ← deref ns1 Node;
      edges ← at_index es (NodeID n);
      '(ns2, h2) ← RelaxEdges fuel ns1 h1 Node (NeighbouringEdges edges);
      FindPathsToNodes_loop rounds' fuel es ns2 h2
    else Ok ns
  end.

Definition FindPathsToNodes (fuel : nat) (Graph : FBytesGraph) (StartID : Z)
  : result FBytesGraph :=
  let Unvisited := new_FBytesPathfindingHeap (Num (Nodes Graph)) in
  ns0 ← update_at (Nodes Graph) StartID (set_GCost 0);
  '(ns1, h1) ← AddAll fuel ns0 Unvisited (seqZ 0 (Num ns0));
  ns2 ← FindPathsToNodes_loop fuel fuel (Edges Graph) ns1 h1;
  Ok (with_Nodes ns2 Graph).

(** ** Point-to-point search: [FindPath] *)

(** [FMath::FloorToInt32(FVector2D::Distance(a, b))] of the host engine. *)
Variable FloorDistance : FVector2D -> FVector2D -> Z.

Definition CalcHeuristicDistance (ns : list FBytesNode) (StartID TargetID : Z)
  : result Z :=
  NodeA ← at_index ns StartID;
  NodeB ← at_index ns TargetID;
  Ok (FloorDistance (Location2D NodeA) (Location2D NodeB)).

(** The two messages [FindPath] logs before it returns. *)
Inductive search_log : Type := PathFound | NoPathFound.

Fixpoint FindPath_edges (fuel : nat) (TargetID : Z) (ns : list FBytesNode)
  (OpenSet : FBytesPathfindingHeap) (ClosedSet : gset Z) (CurrentNode : ptr)
  (es : list FBytesEdge) : result (list FBytesNode * FBytesPathfindingHeap) :=
  match es with
  | [] => Ok (ns, OpenSet)
  | Edge :: rest =>
    _ ← at_index ns (Edge_NodeID Edge);
    let Neighbour : ptr := Some (Edge_NodeID Edge) in
    nb ← deref ns Neighbour;
    if bool_decide (NodeID nb ∈ ClosedSet) then
      FindPath_edges fuel TargetID ns OpenSet ClosedSet CurrentNode rest
    else
      cur ← deref ns CurrentNode;
      let MovementCost := add32 (GCost cur) (Weight Edge) in
      if Contains OpenSet Neighbour && (GCost nb <? MovementCost) then
        FindPath_edges fuel TargetID ns OpenSet ClosedSet CurrentNode rest
      else
        ns1 ← assign ns Neighbour (set_ParentID (NodeID cur));
        ns2 ← assign ns1 Neighbour (set_GCost MovementCost);
        nb2 ← deref ns2 Neighbour;
        hc ← CalcHeuristicDistance ns2 (NodeID nb2) TargetID;
        ns3 ← assign ns2 Neighbour (set_HCost hc);
        '(ns4, h4) ← (if Contains OpenSet Neighbour
                      then UpdateItem fuel ns3 OpenSet Neighbour
                      else Add fuel ns3 OpenSet Neighbour);
        FindPath_edges fuel TargetID ns4 h4 ClosedSet CurrentNode rest
  end.

Fixpoint FindPath_loop (rounds fuel : nat) (TargetID : Z) (es : list FBytesEdges)
  (ns : list FBytesNode) (OpenSet : FBytesPathfindingHeap) (ClosedSet : gset Z)
  : result (search_log * list FBytesNode) :=
  match rounds with
  | O => Fail FuelExhausted
  | S rounds' =>
    if IsNotEmpty OpenSet then
      '(CurrentNode, ns1, h1) ← RemoveFirst fuel ns OpenSet;
      cur ← deref ns1 CurrentNode;
      let ClosedSet1 := {[NodeID cur]} ∪ ClosedSet in
      if NodeID cur =? TargetID then Ok (PathFound, ns1)
      else
        edges ← at_index es (NodeID cur);
        '(ns2, h2) ← FindPath_edges fuel TargetID ns1 h1 ClosedSet1 CurrentNode
                        (NeighbouringEdges edges);
        FindPath_loop rounds' fuel TargetID es ns2 h2 ClosedSet1
    else Ok (NoPathFound, ns)
  end.

Definition FindPath (fuel : nat) (Graph : FBytesGraph) (StartID TargetID : Z)
  : result (search_log * FBytesGraph) :=
  let Graph := InitNodes Graph in
  let OpenSet := new_FBytesPathfindingHeap (Num (Nodes Graph)) in
  let ClosedSet : gset Z := ∅ in
  ns1 ← update_at (Nodes Graph) StartID (set_GCost 0);
  hc ← CalcHeuristicDistance ns1 StartID TargetID;
  ns2 ← update_at ns1 StartID (set_HCost hc);
  '(ns3, h3) ← Add fuel ns2 OpenSet (Some StartID);
  '(log, ns4) ← FindPath_loop fuel fuel TargetID (Edges Graph) ns3 h3 ClosedSet;
  Ok (log, with_Nodes ns4 Graph).

(** ** Readers of the cached search result *)

Fixpoint GetNodesInRange_loop (ns : list FBytesNode) (MaxTravelCost : Z) : list Z :=
  match ns with
  | [] => []
  | Node :: rest =>
    if GCost Node <=? MaxTravelCost
    then NodeID Node :: GetNodesInRange_loop rest MaxTravelCost
    else GetNodesInRange_loop rest MaxTravelCost
  end.

Definition GetNodesInRange (Graph : FBytesGraph) (MaxTravelCost : Z) : list Z :=
  GetNodesInRange_loop (Nodes Graph) MaxTravelCost.

(** [while (CurrentNodeID != StartNodeID)]: the path is collected from the
    target backwards. *)
Fixpoint Retrace (fuel : nat) (ns : list FBytesNode) (StartNodeID CurrentNodeID : Z)
  (Path : list Z) : result (list Z) :=
  match fuel with
  | O => Fail FuelExhausted
  | S fuel' =>
    if CurrentNodeID =? StartNodeID then Ok Path
    else
      let Path := Path ++ [CurrentNodeID] in
      n ← at_index ns CurrentNodeID;
      Retrace fuel' ns StartNodeID (ParentID n) Path
  end.

Definition GetPath (fuel : nat) (Graph : FBytesGraph) (StartNodeID TargetNodeID : Z)
  (bRecalculate : bool) : result (FBytesGraph * list Z) :=
  if negb (IsValidIndex (Nodes Graph) StartNodeID)
     || negb (IsValidIndex (Nodes Graph) TargetNodeID)
  then Ok (Graph, [])
  else
    t ← at_index (Nodes Graph) TargetNodeID;
    if ParentID t =? -1 then Ok (Graph, [])
    else
      Graph1 ← (if bRecalculate
                then '(_, g) ← FindPath fuel Graph StartNodeID TargetNodeID; Ok g
                else Ok Graph);
      Path ← Retrace fuel (Nodes Graph1) StartNodeID TargetNodeID [];
      Ok (Graph1, reverse Path).

(** ** The linear search [FindNodeWithLowestGCost] *)

(** [for (const auto NodeID : Unvisited)], with the two locals it updates. *)
Fixpoint FindNodeWithLowestGCost_loop (ns : list FBytesNode) (Unvisited : list Z)
  (Closest CurrentCost : Z) : result (Z * Z) :=
  match Unvisited with
  | [] => Ok (Closest, CurrentCost)
  | NodeID :: rest =>
    Node ← at_index ns NodeID;
    if GCost Node <? CurrentCost
    then FindNodeWithLowestGCost_loop ns rest NodeID (GCost Node)
    else FindNodeWithLowestGCost_loop ns rest Closest CurrentCost
  end.

Definition FindNodeWithLowestGCost (Graph : FBytesGraph) (Unvisited : list Z)
  : result Z :=
  Closest ← at_index Unvisited 0;
  First ← at_index (Nodes Graph) Closest;
  '(Closest, _) ← FindNodeWithLowestGCost_loop (Nodes Graph) Unvisited Closest (GCost First);
  Ok Closest.

End Pathfinder.

Arguments FBytesNode : clear implicits.
Arguments FBytesGraph : clear implicits.

(** * Basic facts about the embedding *)

Lemma bind_Ok {A B : Type} (r : result A) (k : A -> result B) (b : B) :
  (r ≫= k) = Ok b <-> exists a, r = Ok a /\ k a = Ok b.
Proof.
  destruct r as [a|f]; simpl; split.
  - intros H. exists a. auto.
  - intros (a' & Ha & Hk). inversion Ha. subst. exact Hk.
  - intros H. discriminate.
  - intros (a' & Ha & _). discriminate.
Qed.

Lemma bind_Fail {A B : Type} (r : result A) (k : A -> result B) (f : fault) :
  (r ≫= k) = Fail f <-> r = Fail f \/ exists a, r = Ok a /\ k a = Fail f.
Proof.
  destruct r as [a|f']; simpl; split.
  - intros H. right. exists a. auto.
  - intros [H|(a' & Ha & Hk)]; [discriminate|]. inversion Ha. subst. exact Hk.
  - intros H. left. congruence.
  - intros [H|(a' & Ha & _)]; [congruence|discriminate].
Qed.

Lemma wrap32_id (z : Z) : - 2 ^ 31 <= z < 2 ^ 31 -> wrap32 z = z.
Proof.
  intros H. unfold wrap32. rewrite Z.mod_small by lia. lia.
Qed.

Lemma wrap32_range (z : Z) : - 2 ^ 31 <= wrap32 z < 2 ^ 31.
Proof.
  unfold wrap32. pose proof (Z.mod_pos_bound (z + 2 ^ 31) (2 ^ 32)). lia.
Qed.

Section ArrayFacts.
Context {A : Type}.
Implicit Types (l : list A) (i j : Z) (x y : A).

Lemma IsValidIndex_true l i : IsValidIndex l i = true <-> 0 <= i < Num l.
Proof. unfold IsValidIndex. rewrite andb_true_iff, Z.leb_le, Z.ltb_lt. tauto. Qed.

Lemma IsValidIndex_false l i : IsValidIndex l i = false <-> ~ (0 <= i < Num l).
Proof. rewrite <- IsValidIndex_true. destruct (IsValidIndex l i); split; congruence. Qed.

Lemma at_index_Ok l i x :
  at_index l i = Ok x <-> 0 <= i /\ l !! Z.to_nat i = Some x.
Proof.
  unfold at_index. destruct (IsValidIndex l i) eqn:E.
  - apply IsValidIndex_true in E. destruct (l !! Z.to_nat i) eqn:E2; split.
    + intros H. inversion H. subst. split; [lia|reflexivity].
    + intros [_ H]. congruence.
    + discriminate.
    + intros [_ H]. discriminate.
  - apply IsValidIndex_false in E. split; [discriminate|].
    intros [H0 H]. apply lookup_lt_Some in H. unfold Num in E. lia.
Qed.

Lemma at_index_valid l i : 0 <= i < Num l -> exists x, at_index l i = Ok x.
Proof.
  intros H. destruct (lookup_lt_is_Some_2 l (Z.to_nat i)) as [x Hx].
  { unfold Num in H. lia. }
  exists x. apply at_index_Ok. split; [lia|exact Hx].
Qed.

Lemma at_index_Ok_valid l i x : at_index l i = Ok x -> 0 <= i < Num l.
Proof.
  intros H. apply at_index_Ok in H as [H0 H]. apply lookup_lt_Some in H.
  unfold Num. lia.
Qed.

Lemma at_index_Fail l i f :
  at_index l i = Fail f -> f = OutOfRange i /\ IsValidIndex l i = false.
Proof.
  unfold at_index. destruct (IsValidIndex l i) eqn:E.
  - apply IsValidIndex_true in E. destruct (lookup_lt_is_Some_2 l (Z.to_nat i)) as [x Hx].
    { unfold Num in E. lia. }
    rewrite Hx. discriminate.
  - intros H. inversion H. auto.
Qed.

Lemma set_index_Ok l i x l' :
  set_index l i x = Ok l' <-> 0 <= i < Num l /\ l' = <[Z.to_nat i := x]> l.
Proof.
  unfold set_index. destruct (IsValidIndex l i) eqn:E.
  - apply IsValidIndex_true in E. split.
    + intros H. inversion H. auto.
    + intros [_ ->]. reflexivity.
  - apply IsValidIndex_false in E. split; [discriminate|tauto].
Qed.

Lemma set_index_Num l i x l' : set_index l i x = Ok l' -> Num l' = Num l.
Proof.
  intros H. apply set_index_Ok in H as [_ ->]. unfold Num. now rewrite length_insert.
Qed.

Lemma at_index_negative l i : i < 0 -> at_index l i = Fail (OutOfRange i).
Proof.
  intros H. unfold at_index, IsValidIndex.
  destruct (Z.leb_spec 0 i); [lia|reflexivity].
Qed.

Lemma at_index_set_index l i x l' j :
  set_index l i x = Ok l' ->
  at_index l' j = if decide (j = i) then Ok x else at_index l j.
Proof.
  intros H. pose proof (set_index_Num _ _ _ _ H) as HN.
  apply set_index_Ok in H as [Hi ->].
  destruct (Z_lt_dec j 0) as [Hj|Hj].
  { rewrite decide_False by lia. rewrite !at_index_negative by lia. reflexivity. }
  unfold at_index. unfold IsValidIndex in *. rewrite HN.
  destruct (decide (j = i)) as [->|Hne].
  - replace ((0 <=? i) && (i <? Num l)) with true
      by (symmetry; apply andb_true_iff; rewrite Z.leb_le, Z.ltb_lt; lia).
    rewrite list_lookup_insert_eq; [reflexivity|]. unfold Num in Hi. lia.
  - rewrite list_lookup_insert_ne by lia. reflexivity.
Qed.

Lemma update_at_Ok l i (f : A -> A) l' :
  update_at l i f = Ok l' <->
  exists x, at_index l i = Ok x /\ l' = <[Z.to_nat i := f x]> l.
Proof.
  unfold update_at. rewrite bind_Ok. split.
  - intros (x & Hx & Hs). exists x. split; [exact Hx|].
    apply set_index_Ok in Hs. tauto.
  - intros (x & Hx & ->). exists x. split; [exact Hx|].
    apply set_index_Ok. split; [|reflexivity]. eapply at_index_Ok_valid, Hx.
Qed.

Lemma update_at_Num l i (f : A -> A) l' : update_at l i f = Ok l' -> Num l' = Num l.
Proof.
  intros H. apply update_at_Ok in H as (x & _ & ->). unfold Num. now rewrite length_insert.
Qed.

Lemma at_index_update_at l i (f : A -> A) l' j :
  update_at l i f = Ok l' ->
  at_index l' j = if decide (j = i) then f <$> at_index l i else at_index l j.
Proof.
  unfold update_at. rewrite bind_Ok. intros (x & Hx & Hs).
  rewrite (at_index_set_index _ _ _ _ j Hs). rewrite Hx. reflexivity.
Qed.

Lemma update_at_valid l i (f : A -> A) x :
  at_index l i = Ok x -> exists l', update_at l i f = Ok l'.
Proof.
  intros Hx. exists (<[Z.to_nat i := f x]> l). apply update_at_Ok. eauto.
Qed.

Lemma set_index_valid l i x : 0 <= i < Num l -> exists l', set_index l i x = Ok l'.
Proof.
  intros H. exists (<[Z.to_nat i := x]> l). apply set_index_Ok. auto.
Qed.

End ArrayFacts.

(** * Concrete graph states used by the examples *)

(** A node at the only position of the one-point plane [unit]. *)
Definition node1 (id parent g hc idx : Z) : FBytesNode unit :=
  mkNode id parent g hc tt idx.

(** On the one-point plane every distance is [0]. *)
Definition zero_distance (a b : unit) : Z := 0.

(** Three nodes on a line, [2 -5- 1 -1- 0], built through the public
    interface. *)
Definition line3 : result (FBytesGraph unit) :=
  let '(_, g) := AddNode tt 0 CreateGraph tt in
  let '(_, g) := AddNode tt 0 g tt in
  let '(_, g) := AddNode tt 0 g tt in
  g ← AddOrSetEdge g 2 1 5;
  AddOrSetEdge g 1 0 1.

(** The state of [line3] after [FindPath] from 2 to 0 followed by
    [FindPathsToNodes] from 0: the predecessors of 0 and 1 point at each
    other. *)
Definition line3_after_two_searches : result (FBytesGraph unit) :=
  g ← line3;
  '(_, g) ← FindPath zero_distance 10 g 2 0;
  FindPathsToNodes 10 g 0.

Definition cyclic_state : FBytesGraph unit :=
  mkGraph [node1 0 1 0 0 0; node1 1 0 1 0 0; node1 2 (-1) 0 0 0]
          [mkEdges [mkEdge 1 1]; mkEdges [mkEdge 2 5; mkEdge 0 1]; mkEdges [mkEdge 1 5]]
          Distance2D.

(** One node that was never reached by a search. *)
Definition unreached1 : FBytesGraph unit :=
  mkGraph [node1 0 (-1) INITIAL_DISTANCE 0 0] [mkEdges []] Distance2D.

(** ** Predecessor chains *)

(** [chain_reaches ns start cur]: following [ParentID] from [cur] stays
    inside the node array until it arrives at [start]. *)
Inductive chain_reaches {V : Type} (ns : list (FBytesNode V)) (start : Z) : Z -> Prop :=
| chain_here : chain_reaches ns start start
| chain_step cur n :
    cur <> start ->
    at_index ns cur = Ok n ->
    chain_reaches ns start (ParentID n) ->
    chain_reaches ns start cur.

(** Node ids are dense and match the storage position. *)
Definition ids_dense {V : Type} (ns : list (FBytesNode V)) : Prop :=
  forall i n, at_index ns i = Ok n -> NodeID n = i.

(** Every predecessor entry is [-1] or the index of a node. *)
Definition parents_closed {V : Type} (ns : list (FBytesNode V)) : Prop :=
  forall i n, at_index ns i = Ok n -> ParentID n = -1 \/ IsValidIndex ns (ParentID n) = true.

Fixpoint increasing (l : list Z) : Prop :=
  match l with
  | [] => True
  | x :: rest => (forall y, y ∈ rest -> x < y) /\ increasing rest
  end.

Section Readers.
Context {FVector2D : Type}.
Variable FloorDistance : FVector2D -> FVector2D -> Z.
Implicit Types (ns : list (FBytesNode FVector2D)) (g : FBytesGraph FVector2D).

(** ** [AddNode] *)

(** C4. [AddNode] returns the node count before the call, appends one node
    with that id and one empty adjacency slot; but the position stored in
    the appended node is the indeterminate content of the fresh local
    variable, whatever position is passed: the argument is written to the
    local variable only after the node was copied into the array. *)
Theorem AddNode_drops_Location2D (indet_loc : FVector2D) (indet_idx : Z) g
  (p : FVector2D) :
  AddNode indet_loc indet_idx g p =
    (Num (Nodes g),
     mkGraph (Nodes g ++ [mkNode (Num (Nodes g)) (-1) 0 0 indet_loc indet_idx])
             (Edges g ++ [mkEdges []]) (GraphType g)).
Proof. reflexivity. Qed.

(** ** [GetNodesInRange] *)

Lemma GetNodesInRange_loop_elem ns T (i : Z) :
  i ∈ GetNodesInRange_loop ns T <-> exists n, n ∈ ns /\ NodeID n = i /\ GCost n <= T.
Proof.
  induction ns as [|a ns IH]; simpl.
  - split; [intros H; inversion H|intros (n & H & _); inversion H].
  - destruct (Z.leb_spec (GCost a) T) as [Hle|Hgt].
    + rewrite elem_of_cons, IH. split.
      * intros [->|(n & Hn & Hid & Hc)].
        -- exists a. split; [left|]; auto.
        -- exists n. split; [right|]; auto.
      * intros (n & Hn & Hid & Hc). apply elem_of_cons in Hn as [->|Hn]; [left; auto|].
        right. exists n. auto.
    + rewrite IH. split.
      * intros (n & Hn & Hid & Hc). exists n. split; [right|]; auto.
      * intros (n & Hn & Hid & Hc). apply elem_of_cons in Hn as [->|Hn]; [lia|].
        exists n. auto.
Qed.

Lemma elem_of_at_index {A : Type} (l : list A) (x : A) :
  x ∈ l <-> exists i, at_index l i = Ok x.
Proof.
  rewrite list_elem_of_lookup. split.
  - intros [k Hk]. exists (Z.of_nat k). apply at_index_Ok.
    rewrite Nat2Z.id. split; [lia|exact Hk].
  - intros [i Hi]. apply at_index_Ok in Hi as [_ Hi]. eauto.
Qed.

Lemma GetNodesInRange_loop_increasing ns T (k : Z) :
  (forall i n, at_index ns i = Ok n -> NodeID n = k + i) ->
  increasing (GetNodesInRange_loop ns T) /\
  forall y, y ∈ GetNodesInRange_loop ns T -> k <= y.
Proof.
  revert k. induction ns as [|a ns IH]; intros k Hd; simpl.
  - split; [exact I|]. intros y Hy. inversion Hy.
  - assert (Ha : NodeID a = k).
    { rewrite (Hd 0 a); [lia|]. apply at_index_Ok. split; [lia|reflexivity]. }
    destruct (IH (k + 1)) as [IH1 IH2].
    { intros i n Hi. apply at_index_Ok in Hi as [Hi0 Hi].
      rewrite (Hd (i + 1) n); [lia|]. apply at_index_Ok. split; [lia|].
      replace (Z.to_nat (i + 1)) with (S (Z.to_nat i)) by lia. exact Hi. }
    destruct (GCost a <=? T); simpl.
    + split; [split; [|exact IH1]|].
      * intros y Hy. apply IH2 in Hy. lia.
      * intros y Hy. apply elem_of_cons in Hy as [->|Hy]; [lia|]. apply IH2 in Hy. lia.
    + split; [exact IH1|]. intros y Hy. apply IH2 in Hy. lia.
Qed.

(** C8 (amended). With dense node ids, [GetNodesInRange] returns exactly
    the ids of the nodes whose cached cost is at most the threshold, in
    increasing order of id; a node holding the sentinel cost is returned if
    and only if the threshold is at least the sentinel. *)
Theorem GetNodesInRange_spec g (MaxTravelCost : Z) :
  ids_dense (Nodes g) ->
  (forall i, i ∈ GetNodesInRange g MaxTravelCost <->
             exists n, at_index (Nodes g) i = Ok n /\ GCost n <= MaxTravelCost) /\
  increasing (GetNodesInRange g MaxTravelCost) /\
  (forall i n, at_index (Nodes g) i = Ok n -> GCost n = INITIAL_DISTANCE ->
     (i ∈ GetNodesInRange g MaxTravelCost <-> INITIAL_DISTANCE <= MaxTravelCost)).
Proof.
  intros Hd. unfold GetNodesInRange.
  assert (Hmem : forall i, i ∈ GetNodesInRange_loop (Nodes g) MaxTravelCost <->
             exists n, at_index (Nodes g) i = Ok n /\ GCost n <= MaxTravelCost).
  { intros i. rewrite GetNodesInRange_loop_elem. split.
    - intros (n & Hn & Hid & Hc). apply elem_of_at_index in Hn as [j Hj].
      exists n. rewrite <- Hid, (Hd j n Hj). auto.
    - intros (n & Hn & Hc). exists n. split; [|split; [apply Hd|]; auto].
      apply elem_of_at_index. eauto. }
  split; [exact Hmem|]. split.
  - apply (GetNodesInRange_loop_increasing (Nodes g) MaxTravelCost 0).
    intros i n Hi. rewrite (Hd i n Hi). lia.
  - intros i n Hi Hc. rewrite Hmem. split.
    + intros (n' & Hn' & Hc'). rewrite Hi in Hn'. inversion Hn'. subst. lia.
    + intros Hle. exists n. split; [exact Hi|lia].
Qed.

End Readers.


(** ** [GetPath] *)

Section GetPathFacts.
Context {FVector2D : Type}.
Variable FloorDistance : FVector2D -> FVector2D -> Z.
Implicit Types (ns : list (FBytesNode FVector2D)) (g : FBytesGraph FVector2D).

Lemma Retrace_Ok ns (s : Z) (fuel : nat) :
  forall cur acc P,
    Retrace fuel ns s cur acc = Ok P ->
    exists chain, P = acc ++ chain /\ (s ∉ chain) /\
                  (chain <> [] -> head chain = Some cur) /\
                  (cur = s -> chain = []) /\
                  chain_reaches ns s cur.
Proof.
  induction fuel as [|fuel IH]; intros cur acc P; simpl; [discriminate|].
  destruct (Z.eqb_spec cur s) as [->|Hne].
  - intros H. inversion H. subst. exists []. rewrite app_nil_r.
    repeat split; auto; [apply not_elem_of_nil|congruence|constructor].
  - rewrite bind_Ok. intros (n & Hn & Hrec).
    apply IH in Hrec as (chain & -> & Hnotin & _ & _ & Hreach).
    exists (cur :: chain). rewrite <- app_assoc. simpl.
    repeat split; auto.
    + rewrite not_elem_of_cons. split; [congruence|exact Hnotin].
    + intros ->. congruence.
    + econstructor; eauto.
Qed.

Lemma Retrace_total ns (s cur : Z) :
  chain_reaches ns s cur ->
  exists k chain, forall fuel acc, (k <= fuel)%nat ->
    Retrace fuel ns s cur acc = Ok (acc ++ chain).
Proof.
  induction 1 as [|cur n Hne Hn Hreach (k & chain & IH)].
  - exists 1%nat, []. intros [|fuel] acc Hk; [lia|]. simpl.
    rewrite Z.eqb_refl, app_nil_r. reflexivity.
  - exists (S k), (cur :: chain). intros [|fuel] acc Hk; [lia|]. simpl.
    destruct (Z.eqb_spec cur s) as [->|_]; [congruence|].
    rewrite Hn. simpl. rewrite IH by lia. rewrite <- app_assoc. reflexivity.
Qed.

Lemma Retrace_Fail ns (s : Z) (fuel : nat) :
  forall cur acc f,
    Retrace fuel ns s cur acc = Fail f ->
    f = FuelExhausted \/ exists i, f = OutOfRange i /\ IsValidIndex ns i = false.
Proof.
  induction fuel as [|fuel IH]; intros cur acc f; simpl.
  - intros H. inversion H. auto.
  - destruct (Z.eqb_spec cur s) as [->|Hne]; [discriminate|].
    rewrite bind_Fail. intros [H|(n & Hn & Hrec)].
    + apply at_index_Fail in H as [-> H]. right. eauto.
    + eapply IH, Hrec.
Qed.

Lemma Retrace_Fail_closed ns (s : Z) (fuel : nat) :
  parents_closed ns ->
  forall cur acc i,
    (cur = -1 \/ IsValidIndex ns cur = true) ->
    Retrace fuel ns s cur acc = Fail (OutOfRange i) -> i = -1.
Proof.
  intros Hcl. induction fuel as [|fuel IH]; intros cur acc i Hcur; simpl; [discriminate|].
  destruct (Z.eqb_spec cur s) as [->|Hne]; [discriminate|].
  rewrite bind_Fail. intros [H|(n & Hn & Hrec)].
  - apply at_index_Fail in H as [H Hinv]. inversion H. subst.
    destruct Hcur as [->|Hv]; [reflexivity|congruence].
  - eapply IH, Hrec. eapply Hcl, Hn.
Qed.

(** The three outcomes of [GetPath] once the search stage is over. *)
Lemma GetPath_unfold fuel g (s t : Z) (b : bool) :
  GetPath FloorDistance fuel g s t b =
    if negb (IsValidIndex (Nodes g) s) || negb (IsValidIndex (Nodes g) t)
    then Ok (g, [])
    else
      n ← at_index (Nodes g) t;
      if ParentID n =? -1 then Ok (g, [])
      else
        g1 ← (if b then '(_, g') ← FindPath FloorDistance fuel g s t; Ok g' else Ok g);
        Path ← Retrace fuel (Nodes g1) s t [];
        Ok (g1, reverse Path).
Proof. reflexivity. Qed.

(** C6. [GetPath] returns the empty sequence and the graph as it was when
    one of the ids is not a valid index, and when the target's predecessor
    is [-1]; this holds for either value of the recalculate flag and for
    every fuel, [0] included, so that [FindPath] is not run. *)
Theorem GetPath_rejects fuel g (s t : Z) (b : bool) :
  IsValidIndex (Nodes g) s = false \/
  IsValidIndex (Nodes g) t = false \/
  (exists n, at_index (Nodes g) t = Ok n /\ ParentID n = -1) ->
  GetPath FloorDistance fuel g s t b = Ok (g, []).
Proof.
  intros H. rewrite GetPath_unfold.
  destruct (IsValidIndex (Nodes g) s) eqn:Es; simpl; [|reflexivity].
  destruct (IsValidIndex (Nodes g) t) eqn:Et; simpl; [|reflexivity].
  destruct H as [H|[H|(n & Hn & Hp)]]; [discriminate..|].
  rewrite Hn. simpl. rewrite Hp. reflexivity.
Qed.

(** C5. Whatever [GetPath] returns, with or without recalculation, does not
    contain the start id, ends with the target id unless it is empty, and
    is empty when start and target coincide; and when both ids are valid
    and the predecessor chain of the target reaches the start, [GetPath]
    without recalculation does return, for every sufficient fuel. *)
Theorem GetPath_excludes_start g (s t : Z) :
  IsValidIndex (Nodes g) s = true ->
  IsValidIndex (Nodes g) t = true ->
  chain_reaches (Nodes g) s t ->
  (forall fuel b g' P,
     GetPath FloorDistance fuel g s t b = Ok (g', P) ->
     (s ∉ P) /\ (P <> [] -> last P = Some t) /\ (s = t -> P = [])) /\
  (exists k P, forall fuel, (k <= fuel)%nat ->
     GetPath FloorDistance fuel g s t false = Ok (g, P)).
Proof.
  intros Hs Ht Hreach. split.
  - intros fuel b g' P. rewrite GetPath_unfold, Hs, Ht. simpl.
    rewrite bind_Ok. intros (n & Hn & H).
    destruct (ParentID n =? -1).
    { inversion H. subst. repeat split; auto. apply not_elem_of_nil. congruence. }
    apply bind_Ok in H as (g1 & _ & H). apply bind_Ok in H as (Path & HP & H).
    inversion H. subst. clear H.
    apply Retrace_Ok in HP as (chain & -> & Hnotin & Hhead & Hnil & _). simpl.
    repeat split.
    + rewrite elem_of_reverse. exact Hnotin.
    + intros Hne. rewrite last_reverse. apply Hhead. intros ->. auto.
    + intros ->. rewrite Hnil; auto.
  - destruct (Retrace_total _ _ _ Hreach) as (k & chain & Hk).
    destruct (at_index_valid (Nodes g) t) as [n Hn]; [apply IsValidIndex_true, Ht|].
    destruct (ParentID n =? -1) eqn:Ep.
    + exists 0%nat, []. intros fuel _. rewrite GetPath_unfold, Hs, Ht. simpl.
      rewrite Hn. simpl. rewrite Ep. reflexivity.
    + exists k, (reverse chain). intros fuel Hfuel.
      rewrite GetPath_unfold, Hs, Ht. simpl. rewrite Hn. simpl. rewrite Ep. simpl.
      rewrite (Hk fuel [] Hfuel). reflexivity.
Qed.

(** C10 (amended). When both ids are valid and the target has a
    predecessor, the retrace loop of [GetPath] comes to an end exactly when
    the predecessor chain of the target reaches the start; otherwise it
    never ends normally: at every bound on its rounds it is either still
    running or has indexed the node array out of range, and the index read
    is [-1] when every predecessor entry is [-1] or a valid index. *)
Theorem GetPath_retrace_terminates_iff g (s t : Z) :
  IsValidIndex (Nodes g) s = true ->
  IsValidIndex (Nodes g) t = true ->
  (exists n, at_index (Nodes g) t = Ok n /\ ParentID n <> -1) ->
  ((exists fuel P, GetPath FloorDistance fuel g s t false = Ok (g, P)) <->
   chain_reaches (Nodes g) s t) /\
  (~ chain_reaches (Nodes g) s t ->
   forall fuel,
     GetPath FloorDistance fuel g s t false = Fail FuelExhausted \/
     exists i, IsValidIndex (Nodes g) i = false /\
               (parents_closed (Nodes g) -> i = -1) /\
               GetPath FloorDistance fuel g s t false = Fail (OutOfRange i)).
Proof.
  intros Hs Ht (n & Hn & Hp).
  assert (Hunf : forall fuel, GetPath FloorDistance fuel g s t false =
            Path ← Retrace fuel (Nodes g) s t []; Ok (g, reverse Path)).
  { intros fuel. rewrite GetPath_unfold, Hs, Ht. simpl. rewrite Hn. simpl.
    destruct (Z.eqb_spec (ParentID n) (-1)); [contradiction|reflexivity]. }
  assert (Hiff : (exists fuel P, GetPath FloorDistance fuel g s t false = Ok (g, P)) <->
                 chain_reaches (Nodes g) s t).
  { split.
    - intros (fuel & P & H). rewrite Hunf in H. apply bind_Ok in H as (Path & HP & _).
      apply Retrace_Ok in HP as (chain & _ & _ & _ & _ & Hreach). exact Hreach.
    - intros Hreach. destruct (Retrace_total _ _ _ Hreach) as (k & chain & Hk).
      exists k, (reverse chain). rewrite Hunf, (Hk k []); [reflexivity|lia]. }
  split; [exact Hiff|].
  intros Hno fuel. rewrite Hunf.
  destruct (Retrace fuel (Nodes g) s t []) as [Path|f] eqn:E.
  - exfalso. apply Hno, Hiff. exists fuel, (reverse Path). rewrite Hunf, E. reflexivity.
  - simpl. destruct (Retrace_Fail _ _ _ _ _ _ E) as [->|(i & -> & Hi)]; [left; reflexivity|].
    right. exists i. split; [exact Hi|]. split; [|reflexivity].
    intros Hcl. eapply Retrace_Fail_closed; [exact Hcl| |exact E]. right. exact Ht.
Qed.

End GetPathFacts.

(** ** Closed instances *)

Lemma GetNodesInRange_spec_witness :
  (forall i, i ∈ GetNodesInRange unreached1 5 <->
             exists n, at_index (Nodes unreached1) i = Ok n /\ GCost n <= 5) /\
  increasing (GetNodesInRange unreached1 5) /\
  (forall i n, at_index (Nodes unreached1) i = Ok n -> GCost n = INITIAL_DISTANCE ->
     (i ∈ GetNodesInRange unreached1 5 <-> INITIAL_DISTANCE <= 5)).
Proof.
  apply (GetNodesInRange_spec unreached1 5).
  intros i n H. apply at_index_Ok in H as [H0 H].
  destruct (Z.to_nat i) as [|k] eqn:E; simpl in H; [|destruct k; discriminate].
  inversion H. simpl. lia.
Defined.

(** C8, as stated, fails at the threshold equal to the sentinel: the node
    holding the sentinel cost is returned although the threshold does not
    exceed the sentinel. *)
Lemma GetNodesInRange_sentinel_counterexample :
  ~ (forall i n, at_index (Nodes unreached1) i = Ok n ->
       GCost n = INITIAL_DISTANCE ->
       i ∈ GetNodesInRange unreached1 2000000 -> INITIAL_DISTANCE < 2000000).
Proof.
  intros H. specialize (H 0 (node1 0 (-1) INITIAL_DISTANCE 0 0) eq_refl eq_refl).
  assert (Hin : 0 ∈ GetNodesInRange unreached1 2000000) by (vm_compute; left).
  apply H in Hin. vm_compute in Hin. discriminate.
Qed.

Lemma GetPath_rejects_witness :
  GetPath zero_distance 0 unreached1 0 0 true = Ok (unreached1, []).
Proof.
  apply (GetPath_rejects zero_distance 0 unreached1 0 0 true).
  right. right. exists (node1 0 (-1) INITIAL_DISTANCE 0 0). split; reflexivity.
Defined.

Lemma cyclic_state_reached : line3_after_two_searches = Ok cyclic_state.
Proof. vm_compute. reflexivity. Qed.

Lemma cyclic_state_no_chain (cur : Z) :
  chain_reaches (Nodes cyclic_state) 2 cur -> cur <> 0 /\ cur <> 1.
Proof.
  induction 1 as [|cur n Hne Hn Hreach IH]; [lia|].
  split; intros ->; vm_compute in Hn; inversion Hn; subst; simpl in IH; lia.
Qed.

Lemma cyclic_state_Retrace (fuel : nat) :
  forall cur acc, cur = 0 \/ cur = 1 ->
    Retrace fuel (Nodes cyclic_state) 2 cur acc = Fail FuelExhausted.
Proof.
  induction fuel as [|fuel IH]; intros cur acc Hcur; [reflexivity|].
  destruct Hcur as [->| ->]; simpl; apply IH; auto.
Qed.

(** C10, as stated, fails on [cyclic_state], which two searches leave
    behind: start 2 and target 1 pass the checks of [GetPath], the chain
    of 1 never reaches 2, and yet the loop never reads outside the node
    array, because the chain runs in a cycle. *)
Lemma GetPath_cycle_counterexample :
  IsValidIndex (Nodes cyclic_state) 2 = true /\
  IsValidIndex (Nodes cyclic_state) 1 = true /\
  (exists n, at_index (Nodes cyclic_state) 1 = Ok n /\ ParentID n <> -1) /\
  ~ chain_reaches (Nodes cyclic_state) 2 1 /\
  forall fuel i, GetPath zero_distance fuel cyclic_state 2 1 false <> Fail (OutOfRange i).
Proof.
  split; [reflexivity|]. split; [reflexivity|]. split.
  { exists (node1 1 0 1 0 0). split; [reflexivity|]. simpl. lia. }
  split.
  { intros H. apply cyclic_state_no_chain in H. lia. }
  intros fuel i. rewrite GetPath_unfold. simpl.
  rewrite cyclic_state_Retrace by auto. simpl. discriminate.
Qed.

Lemma GetPath_excludes_start_witness :
  (forall fuel b g' P,
     GetPath zero_distance fuel cyclic_state 0 1 b = Ok (g', P) ->
     (0 ∉ P) /\ (P <> [] -> last P = Some 1) /\ (0 = 1 -> P = [])) /\
  (exists k P, forall fuel, (k <= fuel)%nat ->
     GetPath zero_distance fuel cyclic_state 0 1 false = Ok (cyclic_state, P)).
Proof.
  apply (GetPath_excludes_start zero_distance cyclic_state 0 1); [reflexivity..|].
  eapply chain_step with (n := node1 1 0 1 0 0); [lia|reflexivity|]. apply chain_here.
Defined.

Lemma GetPath_retrace_terminates_iff_witness :
  ((exists fuel P, GetPath zero_distance fuel cyclic_state 2 1 false = Ok (cyclic_state, P)) <->
   chain_reaches (Nodes cyclic_state) 2 1) /\
  (~ chain_reaches (Nodes cyclic_state) 2 1 ->
   forall fuel,
     GetPath zero_distance fuel cyclic_state 2 1 false = Fail FuelExhausted \/
     exists i, IsValidIndex (Nodes cyclic_state) i = false /\
               (parents_closed (Nodes cyclic_state) -> i = -1) /\
               GetPath zero_distance fuel cyclic_state 2 1 false = Fail (OutOfRange i)).
Proof.
  apply (GetPath_retrace_terminates_iff zero_distance cyclic_state 2 1); [reflexivity..|].
  exists (node1 1 0 1 0 0). split; [reflexivity|]. simpl. lia.
Defined.

(** C9. A heap of capacity one over a single node: after [Add] and
    [RemoveFirst] the heap is empty, but slot 0 still holds the pointer and
    [Contains] answers [true] for the extracted node. *)
Theorem Contains_after_RemoveFirst :
  ('(ns1, h1) ← Add 1 [node1 0 (-1) 0 0 0] (new_FBytesPathfindingHeap 1) (Some 0);
   '(First, ns2, h2) ← RemoveFirst 1 ns1 h1;
   Ok (First, Size h2, Contains h2 First)) = Ok (Some 0, 0, true).
Proof. vm_compute. reflexivity. Qed.


(** * The heap order *)

(** ** Ordering keys

    The heap compares two nodes by [FCost] first and [HCost] second. *)

Definition key : Type := (Z * Z)%type.

Definition key_lt (a b : key) : Prop :=
  a.1 < b.1 \/ (a.1 = b.1 /\ a.2 < b.2).

Definition key_le (a b : key) : Prop := ~ key_lt b a.

Definition node_key {V : Type} (n : FBytesNode V) : key := (FCost n, HCost n).

Lemma key_le_refl a : key_le a a.
Proof. unfold key_le, key_lt. lia. Qed.

Lemma key_le_trans a b c : key_le a b -> key_le b c -> key_le a c.
Proof. unfold key_le, key_lt. lia. Qed.

Lemma key_lt_le a b : key_lt a b -> key_le a b.
Proof. unfold key_le, key_lt. lia. Qed.

Lemma key_le_total a b : key_le a b \/ key_le b a.
Proof. unfold key_le, key_lt. lia. Qed.

Lemma key_lt_dec a b : {key_lt a b} + {key_le b a}.
Proof.
  unfold key_le, key_lt. destruct a as [a1 a2], b as [b1 b2]. simpl.
  destruct (Z_lt_dec a1 b1); [left; lia|].
  destruct (Z.eq_dec a1 b1); [|right; lia].
  destruct (Z_lt_dec a2 b2); [left; lia|right; lia].
Qed.

Lemma cost_lt_true {V : Type} (a b : FBytesNode V) :
  cost_lt a b = true <-> key_lt (node_key a) (node_key b).
Proof.
  unfold cost_lt, key_lt, node_key. simpl.
  rewrite orb_true_iff, andb_true_iff, !Z.ltb_lt, Z.eqb_eq. tauto.
Qed.

Lemma cost_lt_false {V : Type} (a b : FBytesNode V) :
  cost_lt a b = false <-> key_le (node_key b) (node_key a).
Proof.
  unfold key_le. rewrite <- cost_lt_true. destruct (cost_lt a b); split; congruence.
Qed.

Lemma cost_gt_lt {V : Type} (a b : FBytesNode V) : cost_gt a b = cost_lt b a.
Proof.
  unfold cost_gt, cost_lt. rewrite !Z.gtb_ltb, (Z.eqb_sym (FCost a)). reflexivity.
Qed.

(** ** Heap order on an array of keys

    [f j] is the key in slot [j]; [up j] is the slot above it. *)

Definition up (j : Z) : Z := (j - 1) / 2.

Definition ordered (f : Z -> key) (m : Z) : Prop :=
  forall j, 0 < j < m -> key_le (f (up j)) (f j).

(** Heap order but for slot [i], whose key may be too small. *)
Definition except_up (f : Z -> key) (m i : Z) : Prop :=
  (forall j, 0 < j < m -> j <> i -> key_le (f (up j)) (f j)) /\
  (forall j, 0 < j < m -> up j = i -> 0 < i -> key_le (f (up i)) (f j)).

(** Heap order but for slot [i], whose key may be too large. *)
Definition except_down (f : Z -> key) (m i : Z) : Prop :=
  (forall j, 0 < j < m -> up j <> i -> key_le (f (up j)) (f j)) /\
  (forall j, 0 < j < m -> up j = i -> 0 < i -> key_le (f (up i)) (f j)).

Definition swapf (f : Z -> key) (i j : Z) : Z -> key :=
  fun x => if decide (x = i) then f j else if decide (x = j) then f i else f x.

Lemma up_lt j : 0 < j -> 0 <= up j < j.
Proof. unfold up. intros H. split; [apply Z.div_pos; lia|]. apply Z.div_lt_upper_bound; lia. Qed.

Lemma up_child j i : 0 < j -> (up j = i <-> j = 2 * i + 1 \/ j = 2 * i + 2).
Proof.
  unfold up. intros H. pose proof (Z.div_mod (j - 1) 2 ltac:(lia)).
  pose proof (Z.mod_pos_bound (j - 1) 2 ltac:(lia)). lia.
Qed.

Lemma ordered_ext f g m :
  (forall j, 0 <= j < m -> g j = f j) -> ordered f m -> ordered g m.
Proof.
  intros He Ho j Hj. pose proof (up_lt j ltac:(lia)).
  rewrite !He by lia. apply Ho, Hj.
Qed.

Lemma except_up_ext f g m i :
  0 <= i < m ->
  (forall j, 0 <= j < m -> g j = f j) -> except_up f m i -> except_up g m i.
Proof.
  intros Hi He [H1 H2]. split.
  - intros j Hj Hne. pose proof (up_lt j ltac:(lia)). rewrite !He by lia. auto.
  - intros j Hj Hu H0. pose proof (up_lt i ltac:(lia)). rewrite !He by lia. auto.
Qed.

Lemma except_down_ext f g m i :
  0 <= i < m ->
  (forall j, 0 <= j < m -> g j = f j) -> except_down f m i -> except_down g m i.
Proof.
  intros Hi He [H1 H2]. split.
  - intros j Hj Hne. pose proof (up_lt j ltac:(lia)). rewrite !He by lia. auto.
  - intros j Hj Hu H0. pose proof (up_lt i ltac:(lia)). rewrite !He by lia. auto.
Qed.

Lemma ordered_root_min f m :
  ordered f m -> forall j, 0 <= j < m -> key_le (f 0) (f j).
Proof.
  intros Ho j Hj.
  assert (H : forall k : nat, forall j, 0 <= j < m -> Z.to_nat j = k -> key_le (f 0) (f j)).
  { clear j Hj. induction k as [k IH] using lt_wf_ind. intros j Hj Hk.
    destruct (decide (j = 0)) as [->|Hne]; [apply key_le_refl|].
    pose proof (up_lt j ltac:(lia)) as Hup.
    eapply key_le_trans; [|apply Ho; lia].
    apply (IH (Z.to_nat (up j))); [lia|lia|reflexivity]. }
  eapply H; eauto.
Qed.

(** A key that was lowered leaves the heap ordered but for its slot. *)
Lemma ordered_lower f g m i :
  0 <= i ->
  ordered f m ->
  (forall j, 0 <= j < m -> j <> i -> g j = f j) ->
  key_le (g i) (f i) ->
  except_up g m i.
Proof.
  intros Hi Ho He Hle. split.
  - intros j Hj Hne. pose proof (up_lt j ltac:(lia)) as Hup.
    assert (Hj' : 0 <= j < m) by lia. assert (Hup' : 0 <= up j < m) by lia.
    rewrite (He j Hj' Hne).
    destruct (decide (up j = i)) as [<-|Hne2].
    + eapply key_le_trans; [exact Hle|]. apply Ho, Hj.
    + rewrite (He _ Hup' Hne2). apply Ho, Hj.
  - intros j Hj Hu H0. pose proof (up_lt i H0). pose proof (up_lt j ltac:(lia)).
    rewrite !He by lia.
    eapply key_le_trans; [apply Ho; lia|]. rewrite <- Hu. apply Ho, Hj.
Qed.

Lemma except_up_done f m i :
  except_up f m i ->
  i <= 0 \/ m <= i \/ key_le (f (up i)) (f i) ->
  ordered f m.
Proof.
  intros [H1 H2] Hi j Hj.
  destruct (decide (j = i)) as [->|Hne]; [|auto].
  destruct Hi as [Hi|[Hi|Hi]]; [lia|lia|exact Hi].
Qed.

Lemma except_up_step f m i :
  except_up f m i -> 0 < i < m ->
  key_lt (f i) (f (up i)) ->
  except_up (swapf f (up i) i) m (up i).
Proof.
  intros [H1 H2] Hi Hlt. pose proof (up_lt i ltac:(lia)) as Hup.
  unfold swapf. split.
  - intros j Hj Hne. pose proof (up_lt j ltac:(lia)) as Hupj.
    destruct (decide (j = up i)) as [|_]; [contradiction|].
    destruct (decide (j = i)) as [->|Hji].
    + rewrite decide_True by reflexivity. apply key_lt_le, Hlt.
    + destruct (decide (up j = up i)) as [Hpp|Hpp].
      * eapply key_le_trans; [apply key_lt_le, Hlt|]. rewrite <- Hpp. auto.
      * destruct (decide (up j = i)) as [Hpi|Hpi]; [|auto].
        apply H2; auto; lia.
  - intros j Hj Hu H0. pose proof (up_lt (up i) H0) as Hupp.
    pose proof (up_lt j ltac:(lia)) as Hupj.
    rewrite (decide_False (P := up (up i) = up i)) by lia.
    rewrite (decide_False (P := up (up i) = i)) by lia.
    rewrite (decide_False (P := j = up i)) by lia.
    destruct (decide (j = i)) as [->|Hji].
    + apply H1; lia.
    + eapply key_le_trans; [apply (H1 (up i)); lia|]. rewrite <- Hu. auto.
Qed.

(** After the root was replaced, the heap is ordered but for the root. *)
Lemma ordered_replace_root f g m m' :
  m' <= m ->
  ordered f m ->
  (forall j, 0 < j < m' -> g j = f j) ->
  except_down g m' 0.
Proof.
  intros Hm Ho He. split.
  - intros j Hj Hne. pose proof (up_lt j ltac:(lia)).
    rewrite !He by lia. apply Ho. lia.
  - intros j Hj Hu H0. lia.
Qed.

Lemma except_down_done f m i :
  except_down f m i ->
  (forall j, 0 < j < m -> up j = i -> key_le (f i) (f j)) ->
  ordered f m.
Proof.
  intros [H1 H2] Hc j Hj.
  destruct (decide (up j = i)) as [Hu|Hne]; [|auto].
  rewrite Hu. auto.
Qed.

Lemma except_down_step f m i c :
  except_down f m i -> 0 <= i ->
  0 < c < m -> up c = i ->
  key_lt (f c) (f i) ->
  (forall j, 0 < j < m -> up j = i -> key_le (f c) (f j)) ->
  except_down (swapf f i c) m c.
Proof.
  intros [H1 H2] Hi Hc Hu Hlt Hmin. pose proof (up_lt c ltac:(lia)) as Hupc.
  unfold swapf. split.
  - intros j Hj Hne. pose proof (up_lt j ltac:(lia)) as Hupj.
    destruct (decide (up j = i)) as [Hji|Hji].
    + rewrite (decide_False (P := j = i)) by lia.
      destruct (decide (j = c)) as [->|Hjc]; [apply key_lt_le, Hlt|].
      apply Hmin; auto.
    + rewrite (decide_False (P := up j = c)) by lia.
      destruct (decide (j = i)) as [->|Hjj].
      * destruct (decide (i = 0)) as [->|Hi0]; [lia|].
        apply H2; auto; lia.
      * destruct (decide (j = c)) as [->|Hjc]; [lia|]. auto.
  - intros j Hj Hu' H0. pose proof (up_lt j ltac:(lia)) as Hupj.
    rewrite Hu. rewrite (decide_True (P := i = i)) by reflexivity.
    rewrite (decide_False (P := j = i)) by lia.
    rewrite (decide_False (P := j = c)) by lia.
    rewrite <- Hu'. apply H1; lia.
Qed.


(** * The heap over a node array *)

Section HeapInvariants.
Context {FVector2D : Type}.
Implicit Types (ns : list (FBytesNode FVector2D)) (items : list ptr).
Implicit Types (h : FBytesPathfindingHeap) (n : FBytesNode FVector2D).

(** Slot [j] holds the address [a] of the node [n]. *)
Definition holds ns items (j a : Z) n : Prop :=
  at_index items j = Ok (Some a) /\ at_index ns a = Ok n.

(** The first [m] slots point to nodes whose [HeapIndex] points back. *)
Definition linked ns items (m : Z) : Prop :=
  0 <= m <= Num items /\ Num items <= 2 ^ 30 /\
  forall j, 0 <= j < m -> exists a n, holds ns items j a n /\ HeapIndex n = j.

Definition keys_of ns items : Z -> key := fun j =>
  match at_index items j with
  | Ok (Some a) =>
    match at_index ns a with
    | Ok n => node_key n
    | Fail _ => (0, 0)
    end
  | _ => (0, 0)
  end.

Definition in_slots items (m a : Z) : Prop :=
  exists j, 0 <= j < m /\ at_index items j = Ok (Some a).

(** The node array with the heap's bookkeeping field blanked. *)
Definition erase ns : list (FBytesNode FVector2D) := map (set_HeapIndex 0) ns.

Definition heap_wf ns h : Prop :=
  linked ns (Items h) (Size h) /\ ordered (keys_of ns (Items h)) (Size h).

(** What every heap operation leaves alone while it moves entries among
    the first [m] slots. *)
Definition rearranged (m : Z) ns items ns' items' : Prop :=
  Num items' = Num items /\
  erase ns' = erase ns /\
  (forall a, in_slots items' m a <-> in_slots items m a) /\
  (forall j, m <= j -> at_index items' j = at_index items j).

Lemma rearranged_refl m ns items : rearranged m ns items ns items.
Proof. repeat split; auto. Qed.

Lemma rearranged_trans m ns1 i1 ns2 i2 ns3 i3 :
  rearranged m ns1 i1 ns2 i2 -> rearranged m ns2 i2 ns3 i3 ->
  rearranged m ns1 i1 ns3 i3.
Proof.
  intros (A1 & A2 & A3 & A4) (B1 & B2 & B3 & B4).
  split; [congruence|]. split; [congruence|]. split.
  - intros a. rewrite B3. apply A3.
  - intros j Hj. rewrite B4 by exact Hj. apply A4, Hj.
Qed.

Lemma erase_Num ns ns' : erase ns' = erase ns -> Num ns' = Num ns.
Proof.
  intros H. apply (f_equal length) in H. unfold erase in H.
  rewrite !length_map in H. unfold Num. lia.
Qed.

Lemma at_index_map {A B : Type} (f : A -> B) (l : list A) (i : Z) :
  at_index (map f l) i = f <$> at_index l i.
Proof.
  unfold at_index, IsValidIndex, Num. rewrite length_map.
  destruct ((0 <=? i) && (i <? Z.of_nat (length l))); [|reflexivity].
  change (map f l) with (f <$> l). rewrite list_lookup_fmap.
  destruct (l !! Z.to_nat i); reflexivity.
Qed.

Lemma erase_at_index ns ns' a n :
  erase ns' = erase ns -> at_index ns a = Ok n ->
  exists n', at_index ns' a = Ok n' /\ set_HeapIndex 0 n' = set_HeapIndex 0 n.
Proof.
  intros He Hn. pose proof (at_index_map (set_HeapIndex 0) ns a) as H1.
  pose proof (at_index_map (set_HeapIndex 0) ns' a) as H2.
  fold (erase ns) in H1. fold (erase ns') in H2. rewrite He, H1, Hn in H2.
  destruct (at_index ns' a) as [n'|f]; simpl in H2; [|discriminate].
  exists n'. split; [reflexivity|]. congruence.
Qed.

Lemma erased_fields n n' :
  set_HeapIndex 0 n' = set_HeapIndex 0 n ->
  NodeID n' = NodeID n /\ ParentID n' = ParentID n /\ GCost n' = GCost n /\
  HCost n' = HCost n /\ Location2D n' = Location2D n /\ node_key n' = node_key n.
Proof.
  destruct n, n'. unfold set_HeapIndex, node_key, FCost. simpl.
  intros H. inversion H. subst. auto 10.
Qed.

Lemma erase_update_at ns a (f : FBytesNode FVector2D -> FBytesNode FVector2D) ns' :
  update_at ns a f = Ok ns' ->
  (forall n, set_HeapIndex 0 (f n) = set_HeapIndex 0 n) ->
  erase ns' = erase ns.
Proof.
  intros H Hf. apply update_at_Ok in H as (n & Hn & ->).
  apply at_index_Ok in Hn as [_ Hn]. unfold erase.
  change (set_HeapIndex 0 <$> <[Z.to_nat a := f n]> ns = set_HeapIndex 0 <$> ns).
  rewrite list_fmap_insert. apply list_insert_id.
  rewrite list_lookup_fmap, Hn. simpl. now rewrite Hf.
Qed.

Lemma holds_fun ns items j a n a' n' :
  holds ns items j a n -> holds ns items j a' n' -> a' = a /\ n' = n.
Proof.
  intros [H1 H2] [H3 H4]. rewrite H1 in H3. inversion H3. subst.
  rewrite H2 in H4. inversion H4. auto.
Qed.

Lemma linked_holds ns items m j a n :
  linked ns items m -> 0 <= j < m -> holds ns items j a n -> HeapIndex n = j.
Proof.
  intros (_ & _ & H) Hj Hh. destruct (H j Hj) as (a' & n' & Hh' & Hi).
  destruct (holds_fun _ _ _ _ _ _ _ Hh' Hh) as [-> ->]. exact Hi.
Qed.

Lemma linked_slot ns items m j :
  linked ns items m -> 0 <= j < m -> exists a n, holds ns items j a n /\ HeapIndex n = j.
Proof. intros (_ & _ & H). apply H. Qed.

Lemma linked_inj ns items m j j' a n n' :
  linked ns items m -> 0 <= j < m -> 0 <= j' < m ->
  holds ns items j a n -> holds ns items j' a n' -> j = j'.
Proof.
  intros HL Hj Hj' H1 H2.
  pose proof (linked_holds _ _ _ _ _ _ HL Hj H1) as E1.
  pose proof (linked_holds _ _ _ _ _ _ HL Hj' H2) as E2.
  destruct H1 as [_ H1], H2 as [_ H2]. rewrite H1 in H2. inversion H2. subst. lia.
Qed.

Lemma in_slots_holds ns items m a :
  linked ns items m -> in_slots items m a ->
  exists n, at_index ns a = Ok n /\ 0 <= HeapIndex n < m /\
            holds ns items (HeapIndex n) a n.
Proof.
  intros HL (j & Hj & Hs). destruct (linked_slot _ _ _ _ HL Hj) as (a' & n & Hh & Hi).
  destruct Hh as [Hs' Hn]. rewrite Hs in Hs'. inversion Hs'. subst a'.
  exists n. rewrite Hi. repeat split; auto; lia.
Qed.

Lemma keys_of_holds ns items j a n :
  holds ns items j a n -> keys_of ns items j = node_key n.
Proof. intros [H1 H2]. unfold keys_of. now rewrite H1, H2. Qed.

Lemma node_key_set_HeapIndex v n : node_key (set_HeapIndex v n) = node_key n.
Proof. reflexivity. Qed.

(** ** [Swap] *)

Lemma Swap_spec ns h m ix iy ax ay nx ny :
  linked ns (Items h) m ->
  0 <= ix < m -> 0 <= iy < m -> ix <> iy ->
  holds ns (Items h) ix ax nx -> holds ns (Items h) iy ay ny ->
  exists ns' h',
    Swap ns h (Some ax) (Some ay) = Ok (ns', h') /\
    Size h' = Size h /\
    linked ns' (Items h') m /\
    rearranged m ns (Items h) ns' (Items h') /\
    holds ns' (Items h') iy ax (set_HeapIndex iy nx) /\
    holds ns' (Items h') ix ay (set_HeapIndex ix ny) /\
    (forall j, 0 <= j < m ->
       keys_of ns' (Items h') j = swapf (keys_of ns (Items h)) ix iy j).
Proof.
  intros HL Hix Hiy Hne Hx Hy.
  pose proof (linked_holds _ _ _ _ _ _ HL Hix Hx) as Ex.
  pose proof (linked_holds _ _ _ _ _ _ HL Hiy Hy) as Ey.
  assert (Haxy : ax <> ay).
  { intros ->. apply Hne. eapply linked_inj; eauto. }
  destruct HL as (Hm & Hcap & Hslots).
  destruct Hx as [Hsx Hnx], Hy as [Hsy Hny].
  destruct (set_index_valid (Items h) ix (Some ay)) as [items1 H1]; [lia|].
  pose proof (set_index_Num _ _ _ _ H1) as N1.
  destruct (set_index_valid items1 iy (Some ax)) as [items2 H2]; [lia|].
  pose proof (set_index_Num _ _ _ _ H2) as N2.
  destruct (update_at_valid ns ax (set_HeapIndex iy) nx Hnx) as [ns1 U1].
  assert (Hny1 : at_index ns1 ay = Ok ny).
  { rewrite (at_index_update_at _ _ _ _ ay U1), decide_False by auto. exact Hny. }
  destruct (update_at_valid ns1 ay (set_HeapIndex ix) ny Hny1) as [ns2 U2].
  assert (Hitems : forall j, at_index items2 j =
            if decide (j = iy) then Ok (Some ax)
            else if decide (j = ix) then Ok (Some ay) else at_index (Items h) j).
  { intros j. rewrite (at_index_set_index _ _ _ _ j H2).
    destruct (decide (j = iy)); [reflexivity|].
    apply (at_index_set_index _ _ _ _ j H1). }
  assert (Hnodes : forall a, at_index ns2 a =
            if decide (a = ay) then Ok (set_HeapIndex ix ny)
            else if decide (a = ax) then Ok (set_HeapIndex iy nx) else at_index ns a).
  { intros a. rewrite (at_index_update_at _ _ _ _ a U2).
    destruct (decide (a = ay)) as [->|Hay]; [now rewrite Hny1|].
    rewrite (at_index_update_at _ _ _ _ a U1).
    destruct (decide (a = ax)) as [->|Hax]; [now rewrite Hnx|reflexivity]. }
  assert (Hother : forall j a n, 0 <= j < m -> j <> ix -> j <> iy ->
            holds ns (Items h) j a n -> a <> ax /\ a <> ay).
  { intros j a n Hj Hjx Hjy Hh. destruct (Hslots j Hj) as (a' & n' & Hh' & Hi).
    destruct (holds_fun _ _ _ _ _ _ _ Hh' Hh) as [-> ->].
    destruct Hh as [_ Hn]. split; intros ->; rewrite Hn in *; simplify_eq; lia. }
  exists ns2, (mkHeap items2 (Size h)). simpl.
  assert (Hhx : holds ns2 items2 iy ax (set_HeapIndex iy nx)).
  { split; [rewrite Hitems, decide_True by reflexivity; reflexivity|].
    rewrite Hnodes, decide_False, decide_True by auto. reflexivity. }
  assert (Hhy : holds ns2 items2 ix ay (set_HeapIndex ix ny)).
  { split; [rewrite Hitems, decide_False, decide_True by auto; reflexivity|].
    rewrite Hnodes, decide_True by auto. reflexivity. }
  assert (Hkeep : forall j a n, 0 <= j < m -> j <> ix -> j <> iy ->
            holds ns (Items h) j a n -> holds ns2 items2 j a n).
  { intros j a n Hj Hjx Hjy Hh. destruct (Hother j a n Hj Hjx Hjy Hh) as [Hax Hay].
    destruct Hh as [Hs Hn]. split.
    - rewrite Hitems, !decide_False by auto. exact Hs.
    - rewrite Hnodes, !decide_False by auto. exact Hn. }
  split.
  { unfold Swap. simpl. rewrite Hnx. simpl. rewrite Ex, H1. simpl.
    rewrite Hny. simpl. rewrite Ey, H2. simpl.
    rewrite U1. simpl.
    rewrite U2. reflexivity. }
  split; [reflexivity|]. split.
  { split; [lia|]. split; [lia|]. intros j Hj.
    destruct (decide (j = iy)) as [->|Hjy]; [eauto|].
    destruct (decide (j = ix)) as [->|Hjx]; [eauto|].
    destruct (Hslots j Hj) as (a & n & Hh & Hi). exists a, n. split; [|exact Hi].
    apply Hkeep; auto. }
  split.
  { split; [lia|]. split.
    { rewrite (erase_update_at _ _ _ _ U2) by reflexivity.
      apply (erase_update_at _ _ _ _ U1). reflexivity. }
    split.
    - intros a. unfold in_slots. split.
      + intros (j & Hj & Hs). rewrite Hitems in Hs.
        destruct (decide (j = iy)) as [->|Hjy]; [simplify_eq; eauto|].
        destruct (decide (j = ix)) as [->|Hjx]; [simplify_eq; eauto|]. eauto.
      + intros (j & Hj & Hs).
        destruct (decide (j = iy)) as [->|Hjy].
        { exists ix. split; [lia|]. rewrite Hitems, decide_False, decide_True by auto.
          congruence. }
        destruct (decide (j = ix)) as [->|Hjx].
        { exists iy. split; [lia|]. rewrite Hitems, decide_True by auto. congruence. }
        exists j. split; [lia|]. rewrite Hitems, !decide_False by auto. exact Hs.
    - intros j Hj. rewrite Hitems, !decide_False by lia. reflexivity. }
  split; [exact Hhx|]. split; [exact Hhy|].
  intros j Hj. unfold swapf.
  destruct (decide (j = ix)) as [->|Hjx].
  { rewrite (keys_of_holds _ _ _ _ _ Hhy).
    rewrite (keys_of_holds ns (Items h) iy ay ny) by (split; auto). reflexivity. }
  destruct (decide (j = iy)) as [->|Hjy].
  { rewrite (keys_of_holds _ _ _ _ _ Hhx).
    rewrite (keys_of_holds ns (Items h) ix ax nx) by (split; auto). reflexivity. }
  destruct (Hslots j Hj) as (a & n & Hh & Hi).
  rewrite (keys_of_holds _ _ _ _ _ Hh).
  apply (keys_of_holds ns2 items2 j a n), Hkeep; auto.
Qed.

End HeapInvariants.


(** ** Slot arithmetic *)

Lemma GetParent_root : GetParent 0 = 0.
Proof. reflexivity. Qed.

Lemma GetParent_up (i : Z) : 0 < i < 2 ^ 31 -> GetParent i = up i.
Proof.
  intros H. unfold GetParent, sub32, up. rewrite wrap32_id by lia.
  apply Z.quot_div_nonneg; lia.
Qed.

Lemma GetLeftChild_eq (i : Z) : 0 <= i < 2 ^ 30 -> GetLeftChild i = 2 * i + 1.
Proof.
  intros H. unfold GetLeftChild, add32, mul32.
  rewrite (wrap32_id (i * 2)) by lia. rewrite wrap32_id by lia. lia.
Qed.

Lemma GetRightChild_eq (i : Z) : 0 <= i -> 2 * i + 2 < 2 ^ 31 -> GetRightChild i = 2 * i + 2.
Proof.
  intros H H'. unfold GetRightChild, add32, mul32.
  rewrite (wrap32_id (i * 2)) by lia. rewrite wrap32_id by lia. lia.
Qed.

Section HeapSorting.
Context {FVector2D : Type}.
Implicit Types (ns : list (FBytesNode FVector2D)) (items : list ptr).
Implicit Types (h : FBytesPathfindingHeap) (n : FBytesNode FVector2D).

(** ** [SortUp] *)

Lemma SortUp_spec (fuel : nat) :
  forall ns h m i a n,
    linked ns (Items h) m ->
    0 <= i < m ->
    holds ns (Items h) i a n ->
    except_up (keys_of ns (Items h)) m i ->
    (Z.to_nat i < fuel)%nat ->
    exists ns' h',
      SortUp fuel ns h (Some a) = Ok (ns', h') /\
      Size h' = Size h /\
      linked ns' (Items h') m /\
      ordered (keys_of ns' (Items h')) m /\
      rearranged m ns (Items h) ns' (Items h').
Proof.
  induction fuel as [|fuel IH]; intros ns h m i a n HL Hi Hh Hex Hfuel; [lia|].
  pose proof (linked_holds _ _ _ _ _ _ HL Hi Hh) as Ei.
  pose proof HL as (Hm & Hcap & _).
  pose proof Hh as [Hs Hn].
  simpl. rewrite Hn. simpl. rewrite Ei.
  destruct (decide (i = 0)) as [->|Hi0].
  - rewrite GetParent_root, Hs. simpl. rewrite Hn. simpl.
    replace (cost_lt n n) with false
      by (symmetry; apply cost_lt_false, key_le_refl).
    exists ns, h. split_and!; auto using rearranged_refl.
    eapply except_up_done; [exact Hex|]. lia.
  - rewrite GetParent_up by lia.
    pose proof (up_lt i ltac:(lia)) as Hup.
    destruct (linked_slot _ _ _ (up i) HL ltac:(lia)) as (b & p & Hp & Ep).
    pose proof Hp as [Hsp Hnp]. rewrite Hsp. simpl. rewrite Hnp. simpl.
    destruct (cost_lt n p) eqn:Hlt.
    + apply cost_lt_true in Hlt.
      destruct (Swap_spec ns h m (up i) i b a p n HL) as
        (ns1 & h1 & HS & Hsz & HL1 & HR1 & Hb1 & Ha1 & Hk1); auto; [lia..|].
      rewrite HS. simpl.
      destruct (IH ns1 h1 m (up i) a (set_HeapIndex (up i) n)) as
        (ns2 & h2 & HS2 & Hsz2 & HL2 & HO2 & HR2); auto; [lia| |lia|].
      { eapply except_up_ext; [lia|exact Hk1|].
        apply except_up_step; [exact Hex|lia|].
        rewrite (keys_of_holds _ _ _ _ _ Hh), (keys_of_holds _ _ _ _ _ Hp). exact Hlt. }
      exists ns2, h2. rewrite HS2. split_and!; auto; try congruence.
      eapply rearranged_trans; eauto.
    + apply cost_lt_false in Hlt.
      exists ns, h. split_and!; auto using rearranged_refl.
      eapply except_up_done; [exact Hex|]. right. right.
      rewrite (keys_of_holds _ _ _ _ _ Hh), (keys_of_holds _ _ _ _ _ Hp). exact Hlt.
Qed.

(** ** [SortDown] *)

(** The choice of the child to compare with. *)
Lemma SwapIndex_spec ns h i :
  linked ns (Items h) (Size h) ->
  0 <= i -> 2 * i + 1 < Size h ->
  exists c ac nc,
    (if GetRightChild i <? Size h then
       L ← at_index (Items h) (GetLeftChild i);
       l ← deref ns L;
       R ← at_index (Items h) (GetRightChild i);
       r ← deref ns R;
       Ok (if cost_gt l r then GetRightChild i else GetLeftChild i)
     else Ok (GetLeftChild i)) = Ok c /\
    holds ns (Items h) c ac nc /\
    0 < c < Size h /\ up c = i /\
    forall j, 0 < j < Size h -> up j = i ->
      key_le (keys_of ns (Items h) c) (keys_of ns (Items h) j).
Proof.
  intros HL Hi Hlt. pose proof HL as (Hm & Hcap & _).
  rewrite GetLeftChild_eq, GetRightChild_eq by lia.
  destruct (linked_slot _ _ _ (2 * i + 1) HL ltac:(lia)) as (al & nl & Hl & El).
  assert (Hul : up (2 * i + 1) = i) by (apply up_child; lia).
  destruct (Z.ltb_spec (2 * i + 2) (Size h)) as [Hr|Hr].
  - destruct (linked_slot _ _ _ (2 * i + 2) HL ltac:(lia)) as (ar & nr & Hr' & Er).
    assert (Hur : up (2 * i + 2) = i) by (apply up_child; lia).
    pose proof Hl as [Hsl Hnl]. pose proof Hr' as [Hsr Hnr].
    rewrite Hsl. simpl. rewrite Hnl. simpl. rewrite Hsr. simpl. rewrite Hnr. simpl.
    rewrite cost_gt_lt. destruct (cost_lt nr nl) eqn:Hc.
    + apply cost_lt_true in Hc. exists (2 * i + 2), ar, nr.
      split_and!; auto; try lia.
      intros j Hj Hu. apply up_child in Hu; [|lia].
      rewrite (keys_of_holds _ _ _ _ _ Hr').
      destruct Hu as [->| ->].
      * rewrite (keys_of_holds _ _ _ _ _ Hl). apply key_lt_le, Hc.
      * rewrite (keys_of_holds _ _ _ _ _ Hr'). apply key_le_refl.
    + apply cost_lt_false in Hc. exists (2 * i + 1), al, nl.
      split_and!; auto; try lia.
      intros j Hj Hu. apply up_child in Hu; [|lia].
      rewrite (keys_of_holds _ _ _ _ _ Hl).
      destruct Hu as [->| ->].
      * rewrite (keys_of_holds _ _ _ _ _ Hl). apply key_le_refl.
      * rewrite (keys_of_holds _ _ _ _ _ Hr'). exact Hc.
  - exists (2 * i + 1), al, nl. split_and!; auto; try lia.
    intros j Hj Hu. apply up_child in Hu; [|lia].
    destruct Hu as [->| ->]; [apply key_le_refl|lia].
Qed.

Lemma SortDown_spec (fuel : nat) :
  forall ns h i a n,
    linked ns (Items h) (Size h) ->
    0 <= i < Size h ->
    holds ns (Items h) i a n ->
    except_down (keys_of ns (Items h)) (Size h) i ->
    (Z.to_nat (Size h - i) <= fuel)%nat ->
    exists ns' h',
      SortDown fuel ns h (Some a) = Ok (ns', h') /\
      Size h' = Size h /\
      linked ns' (Items h') (Size h) /\
      ordered (keys_of ns' (Items h')) (Size h) /\
      rearranged (Size h) ns (Items h) ns' (Items h').
Proof.
  induction fuel as [|fuel IH]; intros ns h i a n HL Hi Hh Hex Hfuel; [lia|].
  pose proof (linked_holds _ _ _ _ _ _ HL Hi Hh) as Ei.
  pose proof HL as (Hm & Hcap & _).
  pose proof Hh as [Hs Hn].
  cbn [SortDown]. simpl deref. rewrite Hn. simpl. rewrite Ei.
  destruct (Z.ltb_spec (GetLeftChild i) (Size h)) as [Hlt|Hge];
    [rewrite GetLeftChild_eq in Hlt by lia|rewrite GetLeftChild_eq in Hge by lia].
  - destruct (SwapIndex_spec ns h i HL ltac:(lia) Hlt) as
      (c & ac & nc & Hsel & Hc & Hcr & Hcu & Hmin).
    rewrite Hsel. simpl. pose proof Hc as [Hsc Hnc]. rewrite Hsc. simpl.
    rewrite Hnc. simpl. rewrite cost_gt_lt.
    destruct (cost_lt nc n) eqn:Hlt'.
    + apply cost_lt_true in Hlt'.
      pose proof (up_lt c ltac:(lia)) as Hupc.
      destruct (Swap_spec ns h (Size h) i c a ac n nc HL) as
        (ns1 & h1 & HS & Hsz & HL1 & HR1 & Ha1 & Hc1 & Hk1); auto; [lia..|].
      rewrite HS. simpl. rewrite <- Hsz in HL1.
      destruct (IH ns1 h1 c a (set_HeapIndex c n)) as
        (ns2 & h2 & HS2 & Hsz2 & HL2 & HO2 & HR2); auto; [lia| |lia|].
      { rewrite Hsz. eapply except_down_ext; [lia|exact Hk1|].
        apply except_down_step; auto; [lia|].
        rewrite (keys_of_holds _ _ _ _ _ Hh), (keys_of_holds _ _ _ _ _ Hc). exact Hlt'. }
      rewrite Hsz in *.
      exists ns2, h2. rewrite HS2. split_and!; auto; try congruence.
      eapply rearranged_trans; eauto.
    + apply cost_lt_false in Hlt'.
      exists ns, h. split_and!; auto using rearranged_refl.
      eapply except_down_done; [exact Hex|].
      intros j Hj Hu. eapply key_le_trans; [|apply Hmin; auto].
      rewrite (keys_of_holds _ _ _ _ _ Hh), (keys_of_holds _ _ _ _ _ Hc). exact Hlt'.
  - exists ns, h. split_and!; auto using rearranged_refl.
    eapply except_down_done; [exact Hex|].
    intros j Hj Hu. apply up_child in Hu; lia.
Qed.

End HeapSorting.


(** * The heap operations *)

Section HeapOperations.
Context {FVector2D : Type}.
Implicit Types (ns : list (FBytesNode FVector2D)) (items : list ptr).
Implicit Types (h : FBytesPathfindingHeap) (n : FBytesNode FVector2D).

(** Changes to nodes outside the first [m] slots, or changes that keep
    [HeapIndex], do not disturb the links. *)
Lemma linked_frame ns ns' items m :
  linked ns items m ->
  (forall x n, in_slots items m x -> at_index ns x = Ok n ->
     exists n', at_index ns' x = Ok n' /\ HeapIndex n' = HeapIndex n) ->
  linked ns' items m.
Proof.
  intros (Hm & Hcap & Hs) Hf. split; [exact Hm|]. split; [exact Hcap|].
  intros j Hj. destruct (Hs j Hj) as (a & n & [Hsa Hn] & Hi).
  destruct (Hf a n) as (n' & Hn' & Hi'); [exists j; auto|exact Hn|].
  exists a, n'. split; [split; auto|congruence].
Qed.

Lemma keys_of_frame ns ns' items m j :
  linked ns items m -> 0 <= j < m ->
  (forall x n, in_slots items m x -> at_index ns x = Ok n ->
     exists n', at_index ns' x = Ok n' /\ node_key n' = node_key n) ->
  keys_of ns' items j = keys_of ns items j.
Proof.
  intros HL Hj Hf. destruct (linked_slot _ _ _ _ HL Hj) as (a & n & Hh & _).
  rewrite (keys_of_holds _ _ _ _ _ Hh). destruct Hh as [Hs Hn].
  destruct (Hf a n) as (n' & Hn' & Hk); [exists j; auto|exact Hn|].
  rewrite <- Hk. apply (keys_of_holds ns' items j a n'). split; auto.
Qed.

Lemma heap_wf_frame ns ns' h :
  heap_wf ns h ->
  (forall x, in_slots (Items h) (Size h) x -> at_index ns' x = at_index ns x) ->
  heap_wf ns' h.
Proof.
  intros [HL HO] Hf. split.
  - eapply linked_frame; [exact HL|]. intros x n Hx Hn. exists n.
    rewrite (Hf x Hx). auto.
  - eapply ordered_ext; [|exact HO]. intros j Hj.
    eapply keys_of_frame; [exact HL|exact Hj|].
    intros x n Hx Hn. exists n. rewrite (Hf x Hx). auto.
Qed.

Lemma heap_wf_root_min ns h a0 n0 x n :
  heap_wf ns h ->
  holds ns (Items h) 0 a0 n0 ->
  in_slots (Items h) (Size h) x -> at_index ns x = Ok n ->
  key_le (node_key n0) (node_key n).
Proof.
  intros [HL HO] H0 Hx Hn. destruct Hx as (j & Hj & Hs).
  pose proof (ordered_root_min _ _ HO j Hj) as Hmin.
  rewrite (keys_of_holds _ _ _ _ _ H0) in Hmin.
  rewrite (keys_of_holds ns (Items h) j x n) in Hmin by (split; auto).
  exact Hmin.
Qed.

Lemma new_heap_wf ns (Capacity : Z) :
  0 <= Capacity <= 2 ^ 30 ->
  heap_wf ns (new_FBytesPathfindingHeap Capacity) /\
  Num (Items (new_FBytesPathfindingHeap Capacity)) = Capacity /\
  forall x, ~ in_slots (Items (new_FBytesPathfindingHeap Capacity)) 0 x.
Proof.
  intros HC. unfold new_FBytesPathfindingHeap, heap_wf, linked, Num. simpl.
  rewrite length_replicate. split_and!; try lia.
  all: try (intros j Hj; lia).
  intros x (j & Hj & _). lia.
Qed.

(** ** [Add] *)

Lemma Add_spec (fuel : nat) ns h a n :
  heap_wf ns h ->
  Size h < Num (Items h) ->
  at_index ns a = Ok n ->
  ~ in_slots (Items h) (Size h) a ->
  (Z.to_nat (Size h) < fuel)%nat ->
  exists ns' h',
    Add fuel ns h (Some a) = Ok (ns', h') /\
    Size h' = Size h + 1 /\
    heap_wf ns' h' /\
    Num (Items h') = Num (Items h) /\
    erase ns' = erase ns /\
    (forall x, in_slots (Items h') (Size h') x <->
               in_slots (Items h) (Size h) x \/ x = a) /\
    (forall j, Size h < j -> at_index (Items h') j = at_index (Items h) j).
Proof.
  intros [HL HO] Hroom Hn Hfresh Hfuel.
  pose proof HL as (Hm & Hcap & Hslots).
  destruct (update_at_valid ns a (set_HeapIndex (Size h)) n Hn) as [ns1 U1].
  destruct (set_index_valid (Items h) (Size h) (Some a)) as [items1 S1]; [lia|].
  pose proof (set_index_Num _ _ _ _ S1) as N1.
  assert (Hn1 : at_index ns1 a = Ok (set_HeapIndex (Size h) n)).
  { rewrite (at_index_update_at _ _ _ _ a U1), decide_True, Hn by reflexivity.
    reflexivity. }
  assert (Hold : forall j x nx, 0 <= j < Size h -> holds ns (Items h) j x nx ->
                   holds ns1 items1 j x nx).
  { intros j x nx Hj [Hs Hx]. split.
    - rewrite (at_index_set_index _ _ _ _ j S1), decide_False by lia. exact Hs.
    - rewrite (at_index_update_at _ _ _ _ x U1), decide_False; [exact Hx|].
      intros ->. apply Hfresh. exists j. auto. }
  assert (Hnew : holds ns1 items1 (Size h) a (set_HeapIndex (Size h) n)).
  { split; [|exact Hn1].
    rewrite (at_index_set_index _ _ _ _ (Size h) S1), decide_True by reflexivity.
    reflexivity. }
  assert (HL1 : linked ns1 items1 (Size h + 1)).
  { split; [lia|]. split; [lia|]. intros j Hj.
    destruct (decide (j = Size h)) as [->|Hne]; [eauto|].
    destruct (Hslots j ltac:(lia)) as (x & nx & Hh & Hi).
    exists x, nx. split; [apply Hold; auto; lia|exact Hi]. }
  assert (Hk1 : forall j, 0 <= j < Size h ->
                  keys_of ns1 items1 j = keys_of ns (Items h) j).
  { intros j Hj. destruct (Hslots j Hj) as (x & nx & Hh & Hi).
    rewrite (keys_of_holds _ _ _ _ _ Hh).
    apply keys_of_holds with (a := x). apply Hold; auto. }
  assert (Hex : except_up (keys_of ns1 items1) (Size h + 1) (Size h)).
  { split.
    - intros j Hj Hne. pose proof (up_lt j ltac:(lia)).
      rewrite !Hk1 by lia. apply HO. lia.
    - intros j Hj Hu H0. pose proof (up_lt j ltac:(lia)). lia. }
  destruct (SortUp_spec fuel ns1 (mkHeap items1 (Size h)) (Size h + 1) (Size h) a
              (set_HeapIndex (Size h) n)) as (ns2 & h2 & HS & Hsz & HL2 & HO2 & HR);
    auto; [lia|].
  simpl in *. destruct HR as (R1 & R2 & R3 & R4).
  assert (Hadd : add32 (Size h2) 1 = Size h + 1).
  { unfold add32. rewrite Hsz. apply wrap32_id. lia. }
  exists ns2, (mkHeap (Items h2) (add32 (Size h2) 1)).
  split.
  { unfold Add. simpl. rewrite U1. simpl. rewrite S1. simpl. rewrite HS. reflexivity. }
  unfold heap_wf. simpl. rewrite Hadd. split_and!; auto.
  - congruence.
  - rewrite R2. apply (erase_update_at _ _ _ _ U1). reflexivity.
  - intros x. rewrite R3. unfold in_slots. split.
    + intros (j & Hj & Hs). rewrite (at_index_set_index _ _ _ _ j S1) in Hs.
      destruct (decide (j = Size h)) as [->|Hne]; [right; congruence|].
      left. exists j. split; [lia|exact Hs].
    + intros [(j & Hj & Hs)| ->].
      * exists j. split; [lia|].
        rewrite (at_index_set_index _ _ _ _ j S1), decide_False by lia. exact Hs.
      * exists (Size h). split; [lia|apply Hnew].
  - intros j Hj. rewrite R4 by lia.
    rewrite (at_index_set_index _ _ _ _ j S1), decide_False by lia. reflexivity.
Qed.

(** ** [RemoveFirst] *)

Lemma RemoveFirst_spec (fuel : nat) ns h :
  heap_wf ns h ->
  0 < Size h ->
  (Z.to_nat (Size h) <= fuel)%nat ->
  exists a0 n0 ns' h',
    RemoveFirst fuel ns h = Ok (Some a0, ns', h') /\
    holds ns (Items h) 0 a0 n0 /\
    Size h' = Size h - 1 /\
    heap_wf ns' h' /\
    Num (Items h') = Num (Items h) /\
    erase ns' = erase ns /\
    (forall x, in_slots (Items h') (Size h') x <->
               in_slots (Items h) (Size h) x /\ x <> a0) /\
    (forall j, Size h <= j -> at_index (Items h') j = at_index (Items h) j) /\
    at_index (Items h') (Size h - 1) = at_index (Items h) (Size h - 1).
Proof.
  intros [HL HO] Hpos Hfuel.
  pose proof HL as (Hm & Hcap & Hslots).
  destruct (Hslots 0 ltac:(lia)) as (a0 & n0 & H0 & E0).
  destruct (Hslots (Size h - 1) ltac:(lia)) as (al & nl & Hl & El).
  pose proof H0 as [Hs0 Hn0]. pose proof Hl as [Hsl Hnl].
  assert (Hsub : sub32 (Size h) 1 = Size h - 1).
  { unfold sub32. apply wrap32_id. lia. }
  destruct (set_index_valid (Items h) 0 (Some al)) as [items1 S1]; [lia|].
  pose proof (set_index_Num _ _ _ _ S1) as N1.
  assert (Hroot : at_index items1 0 = Ok (Some al)).
  { rewrite (at_index_set_index _ _ _ _ 0 S1), decide_True by reflexivity. reflexivity. }
  destruct (update_at_valid ns al (set_HeapIndex 0) nl Hnl) as [ns1 U1].
  assert (Hn1 : at_index ns1 al = Ok (set_HeapIndex 0 nl)).
  { rewrite (at_index_update_at _ _ _ _ al U1), decide_True, Hnl by reflexivity.
    reflexivity. }
  assert (He1 : erase ns1 = erase ns).
  { apply (erase_update_at _ _ _ _ U1). reflexivity. }
  assert (Hstart : RemoveFirst fuel ns h =
            '(ns2, h2) ← SortDown fuel ns1 (mkHeap items1 (Size h - 1)) (Some al);
            Ok (Some a0, ns2, h2)).
  { unfold RemoveFirst. rewrite Hs0. simpl. rewrite Hsub, Hsl. simpl.
    rewrite S1. simpl. rewrite Hroot. simpl. rewrite U1. reflexivity. }
  assert (Hbeyond : forall j, Size h - 1 <= j -> 0 < j ->
                      at_index items1 j = at_index (Items h) j).
  { intros j Hj Hj0. rewrite (at_index_set_index _ _ _ _ j S1), decide_False by lia.
    reflexivity. }
  destruct (decide (Size h = 1)) as [H1|H1].
  - (* the heap becomes empty *)
    assert (al = a0) by (replace (Size h - 1) with 0 in Hsl by lia; congruence).
    subst al.
    destruct fuel as [|fuel]; [lia|].
    exists a0, n0, ns1, (mkHeap items1 (Size h - 1)).
    split.
    { rewrite Hstart. simpl. rewrite Hn1. simpl. rewrite H1. reflexivity. }
    unfold heap_wf. simpl. split_and!; auto.
    + split; [lia|]. split; [lia|]. intros j Hj. lia.
    + intros j Hj. lia.
    + intros x. split.
      * intros (j & Hj & _). lia.
      * intros [(j & Hj & Hs) Hne]. assert (j = 0) by lia. subst j. congruence.
    + intros j Hj. apply Hbeyond; lia.
    + replace (Size h - 1) with 0 by lia. rewrite Hroot, Hs0. reflexivity.
  - assert (Hal : al <> a0).
    { intros ->. assert (Size h - 1 = 0); [|lia].
      eapply linked_inj; [exact HL| | |exact Hl|exact H0]; lia. }
    assert (Hold : forall j x nx, 0 < j < Size h - 1 -> holds ns (Items h) j x nx ->
                     holds ns1 items1 j x nx).
    { intros j x nx Hj Hh. pose proof Hh as [Hs Hx]. split.
      - rewrite (at_index_set_index _ _ _ _ j S1), decide_False by lia. exact Hs.
      - rewrite (at_index_update_at _ _ _ _ x U1), decide_False; [exact Hx|].
        intros ->. assert (j = Size h - 1); [|lia].
        eapply linked_inj; [exact HL| | |exact Hh|exact Hl]; lia. }
    assert (Hnew : holds ns1 items1 0 al (set_HeapIndex 0 nl)) by (split; auto).
    assert (HL1 : linked ns1 items1 (Size h - 1)).
    { split; [lia|]. split; [lia|]. intros j Hj.
      destruct (decide (j = 0)) as [->|Hne]; [eauto|].
      destruct (Hslots j ltac:(lia)) as (x & nx & Hh & Hi).
      exists x, nx. split; [apply Hold; auto; lia|exact Hi]. }
    assert (Hex : except_down (keys_of ns1 items1) (Size h - 1) 0).
    { eapply (ordered_replace_root (keys_of ns (Items h))); [|exact HO|]; [lia|].
      intros j Hj. destruct (Hslots j ltac:(lia)) as (x & nx & Hh & Hi).
      rewrite (keys_of_holds _ _ _ _ _ Hh).
      apply keys_of_holds with (a := x). apply Hold; auto. }
    destruct (SortDown_spec fuel ns1 (mkHeap items1 (Size h - 1)) 0 al
                (set_HeapIndex 0 nl)) as (ns2 & h2 & HS & Hsz & HL2 & HO2 & HR);
      simpl; auto; [lia|lia|].
    simpl in *. destruct HR as (R1 & R2 & R3 & R4).
    exists a0, n0, ns2, h2. split; [rewrite Hstart, HS; reflexivity|].
    unfold heap_wf. rewrite Hsz. split_and!; auto.
    + congruence.
    + congruence.
    + intros x. rewrite R3. unfold in_slots. split.
      * intros (j & Hj & Hs). rewrite (at_index_set_index _ _ _ _ j S1) in Hs.
        destruct (decide (j = 0)) as [->|Hne].
        -- assert (x = al) by congruence. subst x. split; [|exact Hal].
           exists (Size h - 1). split; [lia|exact Hsl].
        -- split; [exists j; split; [lia|exact Hs]|].
           intros ->. apply Hne. destruct (Hslots j ltac:(lia)) as (x & nx & Hh & Hi).
           destruct Hh as [Hs' Hx]. rewrite Hs in Hs'. inversion Hs'. subst x.
           rewrite Hn0 in Hx. inversion Hx. subst nx. lia.
      * intros [(j & Hj & Hs) Hne].
        destruct (decide (j = Size h - 1)) as [->|Hjl].
        -- exists 0. split; [lia|]. rewrite Hroot. congruence.
        -- exists j. assert (j <> 0) by (intros ->; congruence).
           split; [lia|].
           rewrite (at_index_set_index _ _ _ _ j S1), decide_False by lia. exact Hs.
    + intros j Hj. rewrite R4 by lia. apply Hbeyond; lia.
    + rewrite R4 by lia. apply Hbeyond; lia.
Qed.

(** ** [UpdateItem] after a key was lowered *)

Lemma UpdateItem_spec (fuel : nat) ns ns1 h a n n1 :
  heap_wf ns h ->
  in_slots (Items h) (Size h) a ->
  at_index ns a = Ok n ->
  at_index ns1 a = Ok n1 ->
  (forall x, x <> a -> at_index ns1 x = at_index ns x) ->
  HeapIndex n1 = HeapIndex n ->
  key_le (node_key n1) (node_key n) ->
  (Z.to_nat (Size h) <= fuel)%nat ->
  exists ns' h',
    UpdateItem fuel ns1 h (Some a) = Ok (ns', h') /\
    Size h' = Size h /\
    heap_wf ns' h' /\
    rearranged (Size h) ns1 (Items h) ns' (Items h').
Proof.
  intros [HL HO] Hin Hn Hn1 Hsame Hidx Hkey Hfuel.
  destruct (in_slots_holds _ _ _ _ HL Hin) as (n' & Hn' & Hi & Hh).
  rewrite Hn in Hn'. inversion Hn'. subst n'. clear Hn'.
  assert (HL1 : linked ns1 (Items h) (Size h)).
  { eapply linked_frame; [exact HL|]. intros x nx Hx Hnx.
    destruct (decide (x = a)) as [->|Hne].
    - exists n1. split; [exact Hn1|congruence].
    - exists nx. rewrite (Hsame x Hne). auto. }
  assert (Hh1 : holds ns1 (Items h) (HeapIndex n) a n1).
  { destruct Hh as [Hs _]. split; auto. }
  assert (Hex : except_up (keys_of ns1 (Items h)) (Size h) (HeapIndex n)).
  { eapply (ordered_lower (keys_of ns (Items h))); [lia|exact HO| |].
    - intros j Hr Hj. destruct (linked_slot _ _ _ _ HL Hr) as (x & nx & Hhx & Hix).
      rewrite (keys_of_holds _ _ _ _ _ Hhx). apply (keys_of_holds ns1 (Items h) j x nx).
      destruct Hhx as [Hs Hx]. split; [exact Hs|]. rewrite Hsame; [exact Hx|].
      intros ->. rewrite Hn in Hx. inversion Hx. subst nx. lia.
    - rewrite (keys_of_holds _ _ _ _ _ Hh1), (keys_of_holds _ _ _ _ _ Hh). exact Hkey. }
  destruct (SortUp_spec fuel ns1 h (Size h) (HeapIndex n) a n1) as
    (ns2 & h2 & HS & Hsz & HL2 & HO2 & HR); auto; [lia|].
  exists ns2, h2. unfold UpdateItem, heap_wf. rewrite Hsz. split_and!; auto.
Qed.

End HeapOperations.


(** * Sequences of heap operations *)

Section HeapRuns.
Context {FVector2D : Type}.
Implicit Types (ns : list (FBytesNode FVector2D)) (items : list ptr).
Implicit Types (h : FBytesPathfindingHeap) (n : FBytesNode FVector2D).

(** ** More fuel does not change a result *)

Lemma SortUp_fuel_mono (fuel : nat) :
  forall fuel' ns h p r,
    SortUp fuel ns h p = Ok r -> (fuel <= fuel')%nat -> SortUp fuel' ns h p = Ok r.
Proof.
  induction fuel as [|fuel IH]; intros fuel' ns h p r H Hle; [discriminate|].
  destruct fuel' as [|fuel']; [lia|]. simpl in *.
  destruct (deref ns p) as [n|]; [simpl in *|discriminate].
  destruct (at_index (Items h) (GetParent (HeapIndex n))) as [P|]; [simpl in *|discriminate].
  destruct (deref ns P) as [pn|]; [simpl in *|discriminate].
  destruct (cost_lt n pn); [|exact H].
  destruct (Swap ns h P p) as [[ns1 h1]|]; [simpl in *|discriminate].
  apply IH; [exact H|lia].
Qed.

Lemma SortDown_fuel_mono (fuel : nat) :
  forall fuel' ns h p r,
    SortDown fuel ns h p = Ok r -> (fuel <= fuel')%nat -> SortDown fuel' ns h p = Ok r.
Proof.
  induction fuel as [|fuel IH]; intros fuel' ns h p r H Hle; [discriminate|].
  destruct fuel' as [|fuel']; [lia|]. cbn [SortDown] in *.
  destruct (deref ns p) as [n|]; [simpl in *|discriminate].
  destruct (GetLeftChild (HeapIndex n) <? Size h); [|exact H].
  match type of H with (?sel ≫= _) = _ => destruct sel as [c|] end;
    [simpl in *|discriminate].
  destruct (at_index (Items h) c) as [I|]; [simpl in *|discriminate].
  destruct (deref ns I) as [s|]; [simpl in *|discriminate].
  destruct (cost_gt n s); [|exact H].
  destruct (Swap ns h p I) as [[ns1 h1]|]; [simpl in *|discriminate].
  apply IH; [exact H|lia].
Qed.

Lemma Add_fuel_mono (fuel fuel' : nat) ns h p r :
  Add fuel ns h p = Ok r -> (fuel <= fuel')%nat -> Add fuel' ns h p = Ok r.
Proof.
  unfold Add. intros H Hle.
  destruct (assign ns p (set_HeapIndex (Size h))) as [ns1|]; [simpl in *|discriminate].
  destruct (set_index (Items h) (Size h) p) as [items1|]; [simpl in *|discriminate].
  destruct (SortUp fuel ns1 _ p) as [[ns2 h2]|] eqn:E; [simpl in *|discriminate].
  rewrite (SortUp_fuel_mono _ _ _ _ _ _ E Hle). exact H.
Qed.

Lemma RemoveFirst_fuel_mono (fuel fuel' : nat) ns h r :
  RemoveFirst fuel ns h = Ok r -> (fuel <= fuel')%nat -> RemoveFirst fuel' ns h = Ok r.
Proof.
  unfold RemoveFirst. intros H Hle.
  destruct (at_index (Items h) 0) as [First|]; [simpl in *|discriminate].
  destruct (at_index (Items h) (sub32 (Size h) 1)) as [Last|]; [simpl in *|discriminate].
  destruct (set_index (Items h) 0 Last) as [items1|]; [simpl in *|discriminate].
  destruct (at_index items1 0) as [Root|]; [simpl in *|discriminate].
  destruct (assign ns Root (set_HeapIndex 0)) as [ns1|]; [simpl in *|discriminate].
  destruct (SortDown fuel ns1 _ Root) as [[ns2 h2]|] eqn:E; [simpl in *|discriminate].
  rewrite (SortDown_fuel_mono _ _ _ _ _ _ E Hle). exact H.
Qed.

(** ** Heap states reached by the three operations

    Between two operations the caller may lower the key of a node in the
    heap, which must be followed by [UpdateItem], and may change nodes
    that are not in the heap. *)

Inductive heap_reachable (Capacity : Z)
  : list (FBytesNode FVector2D) -> FBytesPathfindingHeap -> Prop :=
| reach_new ns :
    heap_reachable Capacity ns (new_FBytesPathfindingHeap Capacity)
| reach_Add fuel ns h a ns' h' :
    heap_reachable Capacity ns h ->
    Size h < Capacity ->
    ~ in_slots (Items h) (Size h) a ->
    Add fuel ns h (Some a) = Ok (ns', h') ->
    heap_reachable Capacity ns' h'
| reach_RemoveFirst fuel ns h p ns' h' :
    heap_reachable Capacity ns h ->
    0 < Size h ->
    RemoveFirst fuel ns h = Ok (p, ns', h') ->
    heap_reachable Capacity ns' h'
| reach_UpdateItem fuel ns h a n f ns1 ns' h' :
    heap_reachable Capacity ns h ->
    in_slots (Items h) (Size h) a ->
    at_index ns a = Ok n ->
    HeapIndex (f n) = HeapIndex n ->
    key_le (node_key (f n)) (node_key n) ->
    update_at ns a f = Ok ns1 ->
    UpdateItem fuel ns1 h (Some a) = Ok (ns', h') ->
    heap_reachable Capacity ns' h'
| reach_outside ns h a f ns' :
    heap_reachable Capacity ns h ->
    ~ in_slots (Items h) (Size h) a ->
    update_at ns a f = Ok ns' ->
    heap_reachable Capacity ns' h.

Lemma heap_reachable_wf (Capacity : Z) ns h :
  0 <= Capacity <= 2 ^ 30 ->
  heap_reachable Capacity ns h ->
  heap_wf ns h /\ Num (Items h) = Capacity.
Proof.
  intros HC. induction 1 as
    [ns
    |fuel ns h a ns' h' _ [IH IHN] Hroom Hfresh HA
    |fuel ns h p ns' h' _ [IH IHN] Hpos HR
    |fuel ns h a n f ns1 ns' h' _ [IH IHN] Hin Hn Hidx Hkey HU HS
    |ns h a f ns' _ [IH IHN] Hout HU].
  - destruct (new_heap_wf ns Capacity HC) as (H1 & H2 & _). auto.
  - assert (Hn : exists n, at_index ns a = Ok n).
    { unfold Add in HA. simpl in HA. apply bind_Ok in HA as (ns1 & HA & _).
      apply update_at_Ok in HA as (n & Hn & _). eauto. }
    destruct Hn as [n Hn].
    destruct (Add_spec (S (Z.to_nat (Size h)) `max` fuel) ns h a n IH)
      as (ns2 & h2 & HA2 & _ & Hwf & HN & _); auto; [lia..|].
    rewrite (Add_fuel_mono fuel _ _ _ _ _ HA) in HA2 by lia.
    inversion HA2. subst. split; [exact Hwf|congruence].
  - destruct (RemoveFirst_spec (Z.to_nat (Size h) `max` fuel) ns h IH)
      as (a0 & n0 & ns2 & h2 & HR2 & _ & _ & Hwf & HN & _); auto; [lia|].
    rewrite (RemoveFirst_fuel_mono fuel _ _ _ _ HR) in HR2 by lia.
    inversion HR2. subst. split; [exact Hwf|congruence].
  - destruct (UpdateItem_spec (Z.to_nat (Size h) `max` fuel) ns ns1 h a n (f n) IH)
      as (ns2 & h2 & HS2 & _ & Hwf & HN & _); auto; [| |lia|].
    + rewrite (at_index_update_at _ _ _ _ a HU), decide_True, Hn by reflexivity.
      reflexivity.
    + intros x Hx. rewrite (at_index_update_at _ _ _ _ x HU), decide_False by auto.
      reflexivity.
    + unfold UpdateItem in *.
      rewrite (SortUp_fuel_mono fuel _ _ _ _ _ HS) in HS2 by lia.
      inversion HS2. subst. split; [exact Hwf|congruence].
  - split; [|exact IHN]. eapply heap_wf_frame; [exact IH|].
    intros x Hx. rewrite (at_index_update_at _ _ _ _ x HU), decide_False; [reflexivity|].
    intros ->. contradiction.
Qed.

(** ** Successive extractions *)





End HeapRuns.


(** ** A closed run of the heap *)

(** Two nodes of cost 5 and 3, and the heap after both were added. *)
Definition two_nodes : list (FBytesNode unit) :=
  [node1 0 (-1) 5 0 0; node1 1 (-1) 3 0 0].

Definition two_nodes_added : list (FBytesNode unit) :=
  [node1 0 (-1) 5 0 1; node1 1 (-1) 3 0 0].

Definition two_nodes_heap : FBytesPathfindingHeap := mkHeap [Some 1; Some 0] 2.

Lemma two_nodes_reachable : heap_reachable 2 two_nodes_added two_nodes_heap.
Proof.
  eapply (reach_Add 2 2 [node1 0 (-1) 5 0 0; node1 1 (-1) 3 0 0]
            (mkHeap [Some 0; None] 1) 1).
  - eapply (reach_Add 2 2 two_nodes (new_FBytesPathfindingHeap 2) 0).
    + apply reach_new.
    + simpl. lia.
    + intros (j & Hj & _). simpl in Hj. lia.
    + reflexivity.
  - simpl. lia.
  - intros (j & Hj & Hs). simpl in Hj. assert (j = 0) by lia. subst j.
    vm_compute in Hs. discriminate.
  - reflexivity.
Defined.


(** ** A node added while it is in the heap *)







(** * The single-source search *)

Section SingleSource.
Context {FVector2D : Type}.
Implicit Types (ns : list (FBytesNode FVector2D)) (es : list FBytesEdges).
Implicit Types (h : FBytesPathfindingHeap) (n : FBytesNode FVector2D).
Implicit Types (g : FBytesGraph FVector2D).

(** ** Well-formed graphs *)

(** [u -w-> v] is an entry of the adjacency list of [u]. *)
Definition edge es (u v w : Z) : Prop :=
  exists eu e, at_index es u = Ok eu /\ e ∈ NeighbouringEdges eu /\
               Edge_NodeID e = v /\ Weight e = w.

(** One adjacency list per node, dense ids, every edge leads to a node,
    and the slot arithmetic of the heap stays within [int32]. *)
Definition graph_wf g : Prop :=
  Num (Nodes g) <= 2 ^ 30 /\
  Num (Edges g) = Num (Nodes g) /\
  ids_dense (Nodes g) /\
  forall u v w, edge (Edges g) u v w -> 0 <= v < Num (Nodes g).

Definition weights_within es (W : Z) : Prop :=
  forall u v w, edge es u v w -> 0 <= w <= W.

(** The state of the nodes of a graph no search has touched. *)
Definition untouched ns : Prop :=
  forall i n, at_index ns i = Ok n -> GCost n = 0 /\ HCost n = 0 /\ ParentID n = -1.

(** ** Loading the heap *)

Lemma AddAll_spec (fuel : nat) :
  forall addrs ns h,
    heap_wf ns h ->
    NoDup addrs ->
    (forall a, a ∈ addrs -> 0 <= a < Num ns /\ ~ in_slots (Items h) (Size h) a) ->
    Size h + Z.of_nat (length addrs) <= Num (Items h) ->
    (Z.to_nat (Num (Items h)) <= fuel)%nat ->
    exists ns' h',
      AddAll fuel ns h addrs = Ok (ns', h') /\
      heap_wf ns' h' /\
      Size h' = Size h + Z.of_nat (length addrs) /\
      Num (Items h') = Num (Items h) /\
      erase ns' = erase ns /\
      forall x, in_slots (Items h') (Size h') x <->
                in_slots (Items h) (Size h) x \/ x ∈ addrs.
Proof.
  induction addrs as [|a addrs IH]; intros ns h Hwf Hnd Hall Hroom Hfuel.
  - exists ns, h. simpl. split_and!; auto; [lia|].
    intros x. split; [auto|]. intros [H|H]; [exact H|inversion H].
  - change (length (a :: addrs)) with (S (length addrs)) in *.
    apply NoDup_cons in Hnd as [Hnotin Hnd].
    destruct (Hall a ltac:(left)) as [Ha Hfresh].
    destruct (at_index_valid ns a Ha) as [n Hn].
    assert (Hroom1 : Size h < Num (Items h)) by lia.
    assert (Hfuel1 : (Z.to_nat (Size h) < fuel)%nat).
    { destruct Hwf as [(Hm & _) _]. lia. }
    destruct (Add_spec fuel ns h a n Hwf Hroom1 Hn Hfresh Hfuel1) as
      (ns1 & h1 & HA & Hsz & Hwf1 & HN & He & Hin & _).
    destruct (IH ns1 h1 Hwf1 Hnd) as
      (ns2 & h2 & HA2 & Hwf2 & Hsz2 & HN2 & He2 & Hin2); [|lia|lia|].
    { intros x Hx. destruct (Hall x ltac:(right; exact Hx)) as [Hx1 Hx2].
      rewrite (erase_Num _ _ He). split; [exact Hx1|].
      rewrite Hin. intros [H| ->]; contradiction. }
    exists ns2, h2. simpl. rewrite HA. simpl. rewrite HA2.
    split_and!; auto; try lia; try congruence.
    intros x. rewrite Hin2, Hin, elem_of_cons. tauto.
Qed.

(** ** A graph that was never initialised *)

Lemma RelaxEdges_untouched (fuel : nat) ns h a n :
  at_index ns a = Ok n -> NodeID n = a ->
  untouched ns ->
  forall l,
    (forall e, e ∈ l -> 0 <= Edge_NodeID e < Num ns /\ 0 <= Weight e < 2 ^ 31) ->
    RelaxEdges fuel ns h (Some a) l = Ok (ns, h).
Proof.
  intros Hn Hid Hun. induction l as [|e l IH]; intros Hl; [reflexivity|].
  destruct (Hl e ltac:(left)) as [Hv Hw].
  destruct (at_index_valid ns _ Hv) as [nb Hnb].
  destruct (Hun _ _ Hn) as (Hg & _ & _). destruct (Hun _ _ Hnb) as (Hgb & _ & _).
  simpl. rewrite Hn. simpl. rewrite Hid, Hn. simpl. rewrite Hnb. simpl.
  rewrite Hg, Hgb. unfold add32. rewrite wrap32_id by lia.
  destruct (Z.ltb_spec (0 + Weight e) 0) as [H|H]; [lia|].
  apply IH. intros e' He'. apply Hl. right. exact He'.
Qed.

Lemma untouched_erase ns ns' :
  erase ns' = erase ns -> untouched ns -> untouched ns'.
Proof.
  intros He Hun i n' Hn'. symmetry in He.
  destruct (erase_at_index _ _ _ _ He Hn') as (n & Hn & Hen).
  apply erased_fields in Hen as (_ & Hp & Hg & Hh & _).
  destruct (Hun i n Hn) as (H1 & H2 & H3). rewrite <- Hp, <- Hg, <- Hh. auto.
Qed.

Lemma ids_dense_erase ns ns' :
  erase ns' = erase ns -> ids_dense ns -> ids_dense ns'.
Proof.
  intros He Hd i n' Hn'. symmetry in He.
  destruct (erase_at_index _ _ _ _ He Hn') as (n & Hn & Hen).
  apply erased_fields in Hen as (Hid & _). rewrite <- Hid. apply Hd, Hn.
Qed.

Lemma FindPathsToNodes_loop_untouched (fuel : nat) es ns0 :
  Num es = Num ns0 ->
  ids_dense ns0 ->
  untouched ns0 ->
  (forall u v w, edge es u v w -> 0 <= v < Num ns0 /\ 0 <= w < 2 ^ 31) ->
  forall (rounds : nat) ns h,
    heap_wf ns h ->
    erase ns = erase ns0 ->
    (Z.to_nat (Size h) < rounds)%nat ->
    (Z.to_nat (Size h) <= fuel)%nat ->
    exists ns',
      FindPathsToNodes_loop rounds fuel es ns h = Ok ns' /\ erase ns' = erase ns0.
Proof.
  intros HN Hd Hun Hedges. induction rounds as [|rounds IH];
    intros ns h Hwf He Hrounds Hfuel; [lia|].
  simpl. unfold IsNotEmpty. rewrite Z.gtb_ltb.
  destruct (Z.ltb_spec 0 (Size h)) as [Hpos|Hemp]; [|eauto].
  destruct (RemoveFirst_spec fuel ns h Hwf Hpos Hfuel) as
    (a0 & n0 & ns1 & h1 & HR & H0 & Hsz & Hwf1 & _ & He1 & _).
  rewrite HR. simpl. destruct H0 as [_ Hn0].
  destruct (erase_at_index _ _ _ _ He1 Hn0) as (n1 & Hn1 & _).
  assert (He10 : erase ns1 = erase ns0) by congruence.
  pose proof (ids_dense_erase _ _ He10 Hd) as Hd1.
  pose proof (untouched_erase _ _ He10 Hun) as Hun1.
  rewrite Hn1. simpl. rewrite (Hd1 _ _ Hn1).
  pose proof (at_index_Ok_valid _ _ _ Hn1) as Hv.
  rewrite (erase_Num _ _ He10), <- HN in Hv.
  destruct (at_index_valid es a0 Hv) as [edges Hedges0]. rewrite Hedges0. simpl.
  rewrite (RelaxEdges_untouched fuel ns1 h1 a0 n1); auto.
  - simpl. apply IH; auto; lia.
  - intros e Hin. rewrite (erase_Num _ _ He10).
    apply (Hedges a0 (Edge_NodeID e) (Weight e)). exists edges, e. auto.
Qed.

(** C7. On a well-formed graph with non-negative weights whose nodes all
    hold the default cost 0 and predecessor -1, [FindPathsToNodes] from a
    valid start returns, for every sufficient fuel, and changes nothing but
    the heap bookkeeping: no sentinel is written and no node is relaxed,
    so every node still has cost 0 and predecessor -1. *)
Theorem FindPathsToNodes_untouched g (StartID : Z) (fuel : nat) :
  graph_wf g ->
  weights_within (Edges g) (2 ^ 31 - 1) ->
  untouched (Nodes g) ->
  IsValidIndex (Nodes g) StartID = true ->
  (Z.to_nat (Num (Nodes g)) < fuel)%nat ->
  exists g',
    FindPathsToNodes fuel g StartID = Ok g' /\
    Edges g' = Edges g /\
    erase (Nodes g') = erase (Nodes g) /\
    forall i n, at_index (Nodes g') i = Ok n ->
      GCost n = 0 /\ ParentID n = -1 /\ GCost n <> INITIAL_DISTANCE.
Proof.
  intros (Hcap & HNe & Hd & Hev) Hw Hun Hs Hfuel.
  apply IsValidIndex_true in Hs.
  destruct (at_index_valid _ _ Hs) as [n Hn].
  destruct (update_at_valid (Nodes g) StartID (set_GCost 0) n Hn) as [ns0 U0].
  assert (Hsame : ns0 = Nodes g).
  { apply update_at_Ok in U0 as (n' & Hn' & ->). rewrite Hn in Hn'. inversion Hn'. subst n'.
    destruct (Hun _ _ Hn) as (Hg & _).
    apply list_insert_id. apply at_index_Ok in Hn as [_ Hn]. rewrite Hn. f_equal.
    destruct n. simpl in *. subst. reflexivity. }
  subst ns0.
  destruct (new_heap_wf (Nodes g) (Num (Nodes g))) as (Hwf0 & HN0 & Hempty); [unfold Num in *; lia|].
  destruct (AddAll_spec fuel (seqZ 0 (Num (Nodes g))) (Nodes g)
              (new_FBytesPathfindingHeap (Num (Nodes g))) Hwf0) as
    (ns1 & h1 & HA & Hwf1 & Hsz1 & HN1 & He1 & _).
  { apply NoDup_seqZ. }
  { intros a Ha. apply elem_of_seqZ in Ha. split; [lia|apply Hempty]. }
  { rewrite length_seqZ, HN0. simpl. unfold Num. lia. }
  { rewrite HN0. lia. }
  rewrite length_seqZ in Hsz1. simpl in Hsz1.
  assert (Hedges : forall u v w, edge (Edges g) u v w ->
            0 <= v < Num (Nodes g) /\ 0 <= w < 2 ^ 31).
  { intros u v w He. split; [eapply Hev, He|]. specialize (Hw u v w He). lia. }
  assert (Hr1 : (Z.to_nat (Size h1) < fuel)%nat) by (unfold Num in *; lia).
  assert (Hr2 : (Z.to_nat (Size h1) <= fuel)%nat) by lia.
  destruct (FindPathsToNodes_loop_untouched fuel (Edges g) (Nodes g) HNe Hd Hun Hedges
              fuel ns1 h1 Hwf1 He1 Hr1 Hr2) as (ns2 & HL & He2).
  exists (with_Nodes ns2 g). split.
  { unfold FindPathsToNodes. rewrite U0. simpl. rewrite HA. simpl. rewrite HL.
    reflexivity. }
  split; [reflexivity|]. split; [exact He2|].
  intros i n' Hn'. destruct (untouched_erase _ _ He2 Hun i n' Hn') as (H1 & _ & H3).
  rewrite H1. split_and!; [reflexivity|exact H3|discriminate].
Qed.

End SingleSource.


(** ** Case analysis on concrete arrays *)

Lemma at_index_nil {A : Type} (i : Z) (x : A) : at_index [] i = Ok x -> False.
Proof. intros H. apply at_index_Ok in H as [_ H]. discriminate. Qed.

Lemma at_index_cons {A : Type} (a : A) (l : list A) (i : Z) (x : A) :
  at_index (a :: l) i = Ok x ->
  (i = 0 /\ x = a) \/ (0 < i /\ at_index l (i - 1) = Ok x).
Proof.
  intros H. apply at_index_Ok in H as [H0 H].
  destruct (decide (i = 0)) as [->|Hne].
  - left. simpl in H. inversion H. auto.
  - right. split; [lia|]. apply at_index_Ok. split; [lia|].
    replace (Z.to_nat i) with (S (Z.to_nat (i - 1))) in H by lia. exact H.
Qed.

Ltac at_index_inv H :=
  repeat (first
    [ apply at_index_nil in H; contradiction
    | apply at_index_cons in H as [[? ?]|[? H]]; [subst|] ]).

(** Two nodes joined by an edge of weight 1, untouched by any search. *)
Definition untouched2 : FBytesGraph unit :=
  mkGraph [node1 0 (-1) 0 0 0; node1 1 (-1) 0 0 0]
          [mkEdges [mkEdge 1 1]; mkEdges [mkEdge 0 1]]
          Distance2D.

Lemma untouched2_edges (u v w : Z) :
  edge (Edges untouched2) u v w -> (u = 0 /\ v = 1 /\ w = 1) \/ (u = 1 /\ v = 0 /\ w = 1).
Proof.
  intros (eu & e & Hu & He & <- & <-). simpl in Hu.
  at_index_inv Hu; simpl in He; apply list_elem_of_singleton in He; subst; simpl; auto.
  right. split_and!; auto; lia.
Qed.

Lemma FindPathsToNodes_untouched_witness :
  exists g',
    FindPathsToNodes 3 untouched2 0 = Ok g' /\
    Edges g' = Edges untouched2 /\
    erase (Nodes g') = erase (Nodes untouched2) /\
    forall i n, at_index (Nodes g') i = Ok n ->
      GCost n = 0 /\ ParentID n = -1 /\ GCost n <> INITIAL_DISTANCE.
Proof.
  apply (FindPathsToNodes_untouched untouched2 0 3).
  - split_and!.
    + unfold Num. simpl. lia.
    + reflexivity.
    + intros i n H. simpl in H. at_index_inv H; simpl; lia.
    + intros u v w H. apply untouched2_edges in H. unfold Num. simpl. lia.
  - intros u v w H. apply untouched2_edges in H. lia.
  - intros i n H. simpl in H. at_index_inv H; simpl; auto.
  - reflexivity.
  - unfold Num. simpl. lia.
Defined.


(** * Shortest paths and relaxation *)

(** [path_cost es s v c]: some path of edges leads from [s] to [v] and its
    weights add up to [c]. *)
Inductive path_cost (es : list FBytesEdges) (s : Z) : Z -> Z -> Prop :=
| path_nil : path_cost es s s 0
| path_snoc u v w c :
    path_cost es s u c -> edge es u v w -> path_cost es s v (c + w).

(** [d] is the minimal total weight of a path from [s] to [v]. *)
Definition min_cost (es : list FBytesEdges) (s v d : Z) : Prop :=
  path_cost es s v d /\ forall c, path_cost es s v c -> d <= c.

(** [chain_cost ns es s v c]: following [ParentID] from [v] leads to [s]
    along edges of the graph whose weights add up to [c]. *)
Inductive chain_cost {V : Type} (ns : list (FBytesNode V)) (es : list FBytesEdges)
  (s : Z) : Z -> Z -> Prop :=
| chain_nil : chain_cost ns es s s 0
| chain_snoc v n w c :
    v <> s ->
    at_index ns v = Ok n ->
    edge es (ParentID n) v w ->
    chain_cost ns es s (ParentID n) c ->
    chain_cost ns es s v (c + w).

(** The nodes as reset by [InitNodes]. *)
Definition reset {V : Type} (ns : list (FBytesNode V)) : Prop :=
  forall i n, at_index ns i = Ok n ->
    GCost n = INITIAL_DISTANCE /\ HCost n = 0 /\ ParentID n = -1.

Section Relaxation.

Variable es : list FBytesEdges.
Variables s N : Z.
Hypothesis start_valid : 0 <= s < N.
Hypothesis edges_valid : forall u v w, edge es u v w -> 0 <= v < N /\ 0 <= w.

(** [tree X p v c]: the predecessor function [p] leads from [v] to [s]
    through nodes of [X] along edges whose weights add up to [c]. *)
Inductive tree (X : Z -> Prop) (p : Z -> Z) : Z -> Z -> Prop :=
| tree_root : X s -> tree X p s 0
| tree_step v w c :
    v <> s -> X v -> edge es (p v) v w -> tree X p (p v) c ->
    tree X p v (c + w).

Lemma tree_mono (X X' : Z -> Prop) p v c :
  (forall x, X x -> X' x) -> tree X p v c -> tree X' p v c.
Proof. intros HX. induction 1; econstructor; eauto. Qed.

Lemma tree_frame (X : Z -> Prop) p p' v c :
  (forall x, X x -> p' x = p x) -> tree X p v c -> tree X p' v c.
Proof.
  intros Hp. induction 1 as [|v w c Hne Hv He _ IH]; [constructor; auto|].
  apply tree_step; auto; rewrite (Hp v Hv); auto.
Qed.

Lemma tree_path_cost X p v c : tree X p v c -> path_cost es s v c.
Proof. induction 1; econstructor; eauto. Qed.

Lemma tree_nonneg X p v c : tree X p v c -> 0 <= c.
Proof.
  induction 1 as [|v w c _ _ He _ IH]; [lia|].
  apply edges_valid in He. lia.
Qed.

Lemma path_cost_nonneg v c : path_cost es s v c -> 0 <= c.
Proof.
  induction 1 as [|u v w c _ IH He]; [lia|].
  apply edges_valid in He. lia.
Qed.

(** The state of the search between two extractions: [d] and [p] are the
    cost and the predecessor of every node, [X] is the set of the nodes
    that were extracted. *)
Record relaxed (d p : Z -> Z) (X : Z -> Prop) : Prop := {
  rel_settled_valid : forall x, X x -> 0 <= x < N;
  rel_bounds : forall v, 0 <= v < N -> 0 <= d v <= INITIAL_DISTANCE;
  rel_start : d s = 0;
  rel_unreached : forall v, 0 <= v < N -> d v = INITIAL_DISTANCE -> p v = -1;
  rel_edges : forall u v w, X u -> edge es u v w -> d v <= d u + w;
  rel_order : forall x y, X x -> 0 <= y < N -> ~ X y -> d x <= d y;
  rel_tree : forall v, X v -> d v < INITIAL_DISTANCE -> tree X p v (d v);
  rel_front : forall v, 0 <= v < N -> ~ X v -> d v < INITIAL_DISTANCE ->
    v = s \/ exists w, X (p v) /\ edge es (p v) v w /\
                       d (p v) < INITIAL_DISTANCE /\ d v = d (p v) + w
}.

(** The state while the edges of the extracted node [u] are handled:
    [done] lists the edges of [u] handled so far. *)
Record relaxing (d p : Z -> Z) (X : Z -> Prop) (u : Z) (done : list FBytesEdge)
  : Prop := {
  rlx_settled_valid : forall x, X x -> 0 <= x < N;
  rlx_current : X u;
  rlx_bounds : forall v, 0 <= v < N -> 0 <= d v <= INITIAL_DISTANCE;
  rlx_start : d s = 0;
  rlx_unreached : forall v, 0 <= v < N -> d v = INITIAL_DISTANCE -> p v = -1;
  rlx_edges : forall x v w, X x -> x <> u -> edge es x v w -> d v <= d x + w;
  rlx_done : forall e, e ∈ done -> d (Edge_NodeID e) <= d u + Weight e;
  rlx_below : forall x, X x -> d x <= d u;
  rlx_order : forall x y, X x -> 0 <= y < N -> ~ X y -> d x <= d y;
  rlx_tree : forall v, X v -> d v < INITIAL_DISTANCE -> tree X p v (d v);
  rlx_front : forall v, 0 <= v < N -> ~ X v -> d v < INITIAL_DISTANCE ->
    v = s \/ exists w, X (p v) /\ edge es (p v) v w /\
                       d (p v) < INITIAL_DISTANCE /\ d v = d (p v) + w
}.

(** Before the first extraction. *)
Lemma relaxed_initial (d p : Z -> Z) :
  d s = 0 ->
  (forall v, 0 <= v < N -> v <> s -> d v = INITIAL_DISTANCE) ->
  (forall v, 0 <= v < N -> p v = -1) ->
  relaxed d p (fun _ => False).
Proof.
  intros Hds Hd Hp. split; try contradiction; auto.
  - intros v Hv. destruct (decide (v = s)) as [->|Hne].
    + rewrite Hds. unfold INITIAL_DISTANCE. lia.
    + rewrite (Hd v Hv Hne). unfold INITIAL_DISTANCE. lia.
  - intros v Hv _ Hlt. destruct (decide (v = s)) as [->|Hne]; [auto|].
    rewrite (Hd v Hv Hne) in Hlt. lia.
Qed.

(** Extracting a node of minimal cost. *)
Lemma relaxed_extract d p X u :
  relaxed d p X ->
  0 <= u < N -> ~ X u ->
  (forall y, 0 <= y < N -> ~ X y -> d u <= d y) ->
  relaxing d p (fun x => X x \/ x = u) u [].
Proof.
  intros R Hu HXu Hmin. split.
  - intros x [Hx| ->]; [eapply rel_settled_valid; eauto|exact Hu].
  - auto.
  - apply R.
  - apply R.
  - apply R.
  - intros x v w [Hx| ->] Hne He; [eapply rel_edges; eauto|contradiction].
  - intros e He. inversion He.
  - intros x [Hx| ->]; [eapply rel_order; eauto|lia].
  - intros x y [Hx| ->] Hy Hny.
    + eapply rel_order; eauto.
    + apply Hmin; auto.
  - intros v [Hv| ->] Hlt.
    + eapply tree_mono; [|eapply rel_tree; eauto]. auto.
    + destruct (decide (u = s)) as [->|Hne]; [rewrite (rel_start _ _ _ R); constructor; auto|].
      destruct (rel_front _ _ _ R u Hu HXu Hlt) as [->|(w & Hp & He & Hpl & Hd)];
        [contradiction|].
      rewrite Hd. apply tree_step; auto.
      eapply tree_mono; [|eapply rel_tree; eauto]. auto.
  - intros v Hv Hnv Hlt.
    destruct (rel_front _ _ _ R v Hv ltac:(tauto) Hlt) as [->|(w & Hp & He & Hpl & Hd)];
      [auto|]. right. exists w. auto.
Qed.

(** An edge of [u] that does not improve its target. *)
Lemma relaxing_skip d p X u done e :
  relaxing d p X u done ->
  ~ (d u + Weight e < d (Edge_NodeID e)) ->
  relaxing d p X u (e :: done).
Proof.
  intros R Hge. destruct R. split; auto.
  intros e' He'. apply elem_of_cons in He' as [->|He']; [lia|auto].
Qed.

(** An edge of [u] that improves its target [v]. *)
Lemma relaxing_improve d p X u done e :
  relaxing d p X u done ->
  edge es u (Edge_NodeID e) (Weight e) ->
  d u + Weight e < d (Edge_NodeID e) ->
  let v := Edge_NodeID e in
  ~ X v /\
  relaxing (fun x => if decide (x = v) then d u + Weight e else d x)
           (fun x => if decide (x = v) then u else p x) X u (e :: done).
Proof.
  intros R He Hlt. simpl. remember (Edge_NodeID e) as v eqn:Hvdef.
  destruct (edges_valid _ _ _ He) as [Hv Hw].
  assert (HnX : ~ X v).
  { intros HX. pose proof (rlx_below _ _ _ _ _ R v HX). lia. }
  assert (Hvu : v <> u) by (intros E; rewrite E in Hlt; lia).
  pose proof (rlx_settled_valid _ _ _ _ _ R u (rlx_current _ _ _ _ _ R)) as Hu.
  pose proof (rlx_bounds _ _ _ _ _ R u Hu) as Hbu.
  pose proof (rlx_bounds _ _ _ _ _ R v Hv) as Hbv.
  assert (Hvs : v <> s).
  { intros E. rewrite E in Hlt. rewrite (rlx_start _ _ _ _ _ R) in Hlt. lia. }
  assert (HX : forall x, X x -> x <> v) by (intros x Hx ->; contradiction).
  split; [exact HnX|]. split; cbv beta.
  - apply R.
  - apply R.
  - intros x Hx. destruct (decide (x = v)); [lia|]. apply R, Hx.
  - rewrite decide_False by auto. apply R.
  - intros x Hx HS. destruct (decide (x = v)); [lia|].
    eapply rlx_unreached; eauto.
  - intros x y w HXx Hne Hxy. rewrite (decide_False (P := x = v)) by auto.
    pose proof (rlx_edges _ _ _ _ _ R x y w HXx Hne Hxy) as Hold.
    destruct (decide (y = v)) as [->|]; [lia|exact Hold].
  - intros e' He'. rewrite (decide_False (P := u = v)) by auto.
    apply elem_of_cons in He' as [->|He'].
    + rewrite <- Hvdef. rewrite decide_True by reflexivity. lia.
    + pose proof (rlx_done _ _ _ _ _ R e' He') as Hold.
      destruct (decide (Edge_NodeID e' = v)) as [E|E]; [rewrite E in Hold|]; lia.
  - intros x Hx. rewrite !decide_False by auto. eapply rlx_below; eauto.
  - intros x y Hx Hy Hny. rewrite (decide_False (P := x = v)) by auto.
    destruct (decide (y = v)) as [->|].
    + pose proof (rlx_below _ _ _ _ _ R x Hx). lia.
    + eapply rlx_order; eauto.
  - intros x Hx. rewrite (decide_False (P := x = v)) by auto. intros Hlt'.
    apply tree_frame with (p := p).
    + intros y Hy. rewrite decide_False by auto. reflexivity.
    + eapply rlx_tree; eauto.
  - intros x Hx Hnx. destruct (decide (x = v)) as [->|Hne].
    + intros _. right. exists (Weight e). rewrite (decide_False (P := u = v)) by auto.
      split_and!; auto; [apply R|lia].
    + intros Hlt'.
      destruct (rlx_front _ _ _ _ _ R x Hx Hnx Hlt') as [->|(w & Hp & Hpe & Hpl & Hd)];
        [auto|]. right. exists w. rewrite !(decide_False (P := p x = v)) by auto. auto.
Qed.

(** All edges of [u] are handled. *)
Lemma relaxing_finish d p X u done :
  relaxing d p X u done ->
  (forall v w, edge es u v w -> exists e, e ∈ done /\ Edge_NodeID e = v /\ Weight e = w) ->
  relaxed d p X.
Proof.
  intros R Hall. destruct R. split; auto.
  intros x v w Hx He. destruct (decide (x = u)) as [->|Hne]; [|eauto].
  destruct (Hall v w He) as (e & Hin & <- & <-). auto.
Qed.

(** Every path ends in an extracted node that is at most as expensive, or
    passes a node not yet extracted that is. *)
Lemma relaxed_path d p X v c :
  relaxed d p X ->
  (forall x, X x \/ ~ X x) ->
  path_cost es s v c ->
  (exists y, 0 <= y < N /\ ~ X y /\ d y <= c) \/ (X v /\ d v <= c).
Proof.
  intros R Hdec. induction 1 as [|u v w c Hpath IH He].
  - destruct (Hdec s) as [HX|HX].
    + right. split; [exact HX|]. rewrite (rel_start _ _ _ R). lia.
    + left. exists s. rewrite (rel_start _ _ _ R). split_and!; auto; lia.
  - destruct (edges_valid _ _ _ He) as [Hv Hw].
    destruct IH as [(y & Hy & HnX & Hle)|[HX Hle]].
    + left. exists y. split_and!; auto; lia.
    + pose proof (rel_edges _ _ _ R u v w HX He) as Hrel.
      destruct (Hdec v) as [HXv|HXv].
      * right. split; [exact HXv|lia].
      * left. exists v. split_and!; auto; lia.
Qed.

End Relaxation.


Lemma relaxed_ext es s N d p (X X' : Z -> Prop) :
  (forall x, X x <-> X' x) -> relaxed es s N d p X -> relaxed es s N d p X'.
Proof.
  intros HX [HV HB HS HU HE HO HT HF]. split; auto.
  - intros x Hx. apply HV, HX, Hx.
  - intros u v w Hu. apply HE, HX, Hu.
  - intros x y Hx Hy Hny. apply HO; auto; [apply HX, Hx|].
    intros H. apply Hny, HX, H.
  - intros v Hv Hlt. eapply tree_mono; [|apply HT; auto; apply HX, Hv].
    intros x. apply HX.
  - intros v Hv Hnv Hlt. destruct (HF v Hv) as [->|(w & Hp & He & Hl & Hd)]; auto.
    { intros H. apply Hnv, HX, H. }
    right. exists w. split_and!; auto. apply HX, Hp.
Qed.

(** * Correctness of [FindPathsToNodes] *)

Section SingleSourceCorrect.
Context {FVector2D : Type}.
Implicit Types (ns : list (FBytesNode FVector2D)) (h : FBytesPathfindingHeap).
Implicit Types (n : FBytesNode FVector2D) (d p : Z -> Z) (X : Z -> Prop).

Variable es : list FBytesEdges.
Variables s N : Z.
Hypothesis start_valid : 0 <= s < N.
Hypothesis lists : Num es = N.
Hypothesis edges_valid : forall u v w, edge es u v w -> 0 <= v < N /\ 0 <= w.
Hypothesis weights_fit :
  forall u v w, edge es u v w -> w <= 2 ^ 31 - 1 - INITIAL_DISTANCE.

(** [d] and [p] are the costs and predecessors stored in [ns]. *)
Definition repr ns d p : Prop :=
  forall v n, at_index ns v = Ok n -> GCost n = d v /\ ParentID n = p v.

(** Dense ids and no heuristic costs. *)
Definition plain ns : Prop :=
  Num ns = N /\ ids_dense ns /\ forall v n, at_index ns v = Ok n -> HCost n = 0.

(** [X] is the set of the nodes that are not in the heap. *)
Definition settled_by ns h X : Prop :=
  forall x, X x <-> 0 <= x < Num ns /\ ~ in_slots (Items h) (Size h) x.

Lemma repr_erase ns ns' d p : erase ns' = erase ns -> repr ns d p -> repr ns' d p.
Proof.
  intros He Hr v n' Hn'. symmetry in He.
  destruct (erase_at_index _ _ _ _ He Hn') as (n & Hn & Hen).
  apply erased_fields in Hen as (_ & Hp & Hg & _).
  destruct (Hr v n Hn). split; congruence.
Qed.

Lemma plain_erase ns ns' : erase ns' = erase ns -> plain ns -> plain ns'.
Proof.
  intros He (HN & Hd & Hh). split; [rewrite (erase_Num _ _ He); exact HN|].
  split; [eapply ids_dense_erase; eauto|].
  intros v n' Hn'. symmetry in He.
  destruct (erase_at_index _ _ _ _ He Hn') as (n & Hn & Hen).
  apply erased_fields in Hen as (_ & _ & _ & Hhc & _). rewrite <- Hhc. eauto.
Qed.

Lemma plain_key n :
  HCost n = 0 -> 0 <= GCost n <= INITIAL_DISTANCE -> node_key n = (GCost n, 0).
Proof.
  intros Hh Hg. unfold node_key, FCost, add32. rewrite Hh, Z.add_0_r.
  rewrite wrap32_id; [reflexivity|]. unfold INITIAL_DISTANCE in Hg. lia.
Qed.

Lemma key_le_cost (a b : Z) : key_le (a, 0) (b, 0) <-> a <= b.
Proof. unfold key_le, key_lt. simpl. lia. Qed.

Lemma in_slots_valid ns h x :
  heap_wf ns h -> in_slots (Items h) (Size h) x -> 0 <= x < Num ns.
Proof.
  intros [HL _] Hx. destruct (in_slots_holds _ _ _ _ HL Hx) as (n & Hn & _).
  eapply at_index_Ok_valid, Hn.
Qed.

Lemma in_slots_dec ns h x :
  heap_wf ns h -> in_slots (Items h) (Size h) x \/ ~ in_slots (Items h) (Size h) x.
Proof.
  intros [HL _].
  destruct (at_index ns x) as [n|f] eqn:Hn.
  - destruct (decide (0 <= HeapIndex n < Size h)) as [Hi|Hi].
    + destruct (at_index (Items h) (HeapIndex n)) as [[a|]|f] eqn:Hs.
      * destruct (decide (a = x)) as [->|Hne]; [left; exists (HeapIndex n); auto|].
        right. intros Hx. destruct (in_slots_holds _ _ _ _ HL Hx) as (n' & Hn' & _ & [Hs' _]).
        congruence.
      * right. intros Hx. destruct (in_slots_holds _ _ _ _ HL Hx) as (n' & Hn' & _ & [Hs' _]).
        congruence.
      * right. intros Hx. destruct (in_slots_holds _ _ _ _ HL Hx) as (n' & Hn' & _ & [Hs' _]).
        congruence.
    + right. intros Hx. destruct (in_slots_holds _ _ _ _ HL Hx) as (n' & Hn' & Hi' & _).
      rewrite Hn in Hn'. inversion Hn'. subst n'. contradiction.
  - right. intros Hx. destruct (in_slots_holds _ _ _ _ HL Hx) as (n' & Hn' & _).
    congruence.
Qed.

(** ** The loop over the edges of the extracted node *)

Lemma RelaxEdges_spec (fuel : nat) X u :
  forall l done ns h d p,
    heap_wf ns h -> plain ns -> repr ns d p -> settled_by ns h X ->
    relaxing es s N d p X u done ->
    (forall e, e ∈ l -> edge es u (Edge_NodeID e) (Weight e)) ->
    (Z.to_nat (Size h) <= fuel)%nat ->
    exists ns' h' d' p',
      RelaxEdges fuel ns h (Some u) l = Ok (ns', h') /\
      heap_wf ns' h' /\ plain ns' /\ repr ns' d' p' /\ settled_by ns' h' X /\
      Size h' = Size h /\
      relaxing es s N d' p' X u (reverse l ++ done).
Proof.
  induction l as [|e l IH]; intros done ns h d p Hwf Hpl Hr HX R Hl Hfuel.
  { exists ns, h, d, p. split_and!; auto. }
  pose proof Hpl as (HN & Hd & Hh).
  pose proof (rlx_current _ _ _ _ _ _ _ _ R) as HXu.
  pose proof (rlx_settled_valid _ _ _ _ _ _ _ _ R u HXu) as Hu.
  destruct (at_index_valid ns u ltac:(lia)) as [n Hn].
  pose proof (Hd _ _ Hn) as Hid. destruct (Hr _ _ Hn) as [Hgu _].
  assert (He : edge es u (Edge_NodeID e) (Weight e)) by (apply Hl; left).
  destruct (edges_valid _ _ _ He) as [Hv Hw]. pose proof (weights_fit _ _ _ He) as Hw'.
  destruct (at_index_valid ns (Edge_NodeID e) ltac:(lia)) as [nb Hnb].
  destruct (Hr _ _ Hnb) as [Hgv Hpv].
  pose proof (rlx_bounds _ _ _ _ _ _ _ _ R u Hu) as Hbu.
  pose proof (rlx_bounds _ _ _ _ _ _ _ _ R _ Hv) as Hbv.
  assert (Hdist : add32 (GCost n) (Weight e) = d u + Weight e).
  { unfold add32. rewrite Hgu. apply wrap32_id. unfold INITIAL_DISTANCE in *. lia. }
  assert (Hrest : forall e', e' ∈ l -> edge es u (Edge_NodeID e') (Weight e'))
    by (intros e' He'; apply Hl; right; exact He').
  cbn [RelaxEdges]. simpl deref. rewrite Hn. simpl. rewrite Hid, Hn. simpl.
  rewrite Hnb. simpl. rewrite Hdist, Hgv.
  destruct (Z.ltb_spec (d u + Weight e) (d (Edge_NodeID e))) as [Hlt|Hge].
  - destruct (relaxing_improve es s N edges_valid d p X u done e R He Hlt) as [HnX R'].
    set (v := Edge_NodeID e) in *.
    assert (Hvu : v <> u) by (intros E; apply HnX; rewrite E; exact HXu).
    assert (Hin : in_slots (Items h) (Size h) v).
    { destruct (in_slots_dec ns h v Hwf) as [H|H]; [exact H|].
      exfalso. apply HnX, HX. split; [lia|exact H]. }
    destruct (update_at_valid ns v (set_GCost (d u + Weight e)) nb Hnb) as [ns1 U1].
    assert (Hn1 : at_index ns1 u = Ok n).
    { rewrite (at_index_update_at _ _ _ _ u U1), decide_False by auto. exact Hn. }
    assert (Hnb1 : at_index ns1 v = Ok (set_GCost (d u + Weight e) nb)).
    { rewrite (at_index_update_at _ _ _ _ v U1), decide_True, Hnb by reflexivity.
      reflexivity. }
    destruct (update_at_valid ns1 v (set_ParentID u) _ Hnb1) as [ns2 U2].
    set (nb2 := set_ParentID u (set_GCost (d u + Weight e) nb)).
    assert (Hnb2 : at_index ns2 v = Ok nb2).
    { rewrite (at_index_update_at _ _ _ _ v U2), decide_True, Hnb1 by reflexivity.
      reflexivity. }
    assert (Hother : forall x, x <> v -> at_index ns2 x = at_index ns x).
    { intros x Hx. rewrite (at_index_update_at _ _ _ _ x U2), decide_False by auto.
      rewrite (at_index_update_at _ _ _ _ x U1), decide_False by auto. reflexivity. }
    assert (Hkey : key_le (node_key nb2) (node_key nb)).
    { rewrite (plain_key nb), (plain_key nb2); simpl; eauto; try lia.
      apply key_le_cost. lia. }
    destruct (UpdateItem_spec fuel ns ns2 h v nb nb2 Hwf Hin Hnb Hnb2 Hother eq_refl
                Hkey Hfuel) as (ns3 & h3 & HU & Hsz & Hwf3 & HR).
    destruct HR as (R1 & R2 & R3 & R4).
    assert (HN2 : Num ns2 = Num ns).
    { rewrite (update_at_Num _ _ _ _ U2), (update_at_Num _ _ _ _ U1). reflexivity. }
    assert (Hpl2 : plain ns2).
    { split; [lia|]. split.
      - intros x nx Hx. destruct (decide (x = v)) as [->|Hne].
        + rewrite Hnb2 in Hx. inversion Hx. subst nx. simpl. eapply Hd, Hnb.
        + rewrite Hother in Hx by auto. eapply Hd, Hx.
      - intros x nx Hx. destruct (decide (x = v)) as [->|Hne].
        + rewrite Hnb2 in Hx. inversion Hx. subst nx. simpl. eapply Hh, Hnb.
        + rewrite Hother in Hx by auto. eapply Hh, Hx. }
    assert (Hr2 : repr ns2 (fun x => if decide (x = v) then d u + Weight e else d x)
                          (fun x => if decide (x = v) then u else p x)).
    { intros x nx Hx. destruct (decide (x = v)) as [->|Hne].
      + rewrite Hnb2 in Hx. inversion Hx. subst nx. simpl. auto.
      + rewrite Hother in Hx by auto. eapply Hr, Hx. }
    assert (HX3 : settled_by ns3 h3 X).
    { intros x. rewrite (HX x), (erase_Num _ _ R2), HN2, Hsz, (R3 x). reflexivity. }
    assert (Hfuel3 : (Z.to_nat (Size h3) <= fuel)%nat) by lia.
    destruct (IH (e :: done) ns3 h3 _ _ Hwf3 (plain_erase _ _ R2 Hpl2)
                (repr_erase _ _ _ _ R2 Hr2) HX3 R' Hrest Hfuel3) as
      (ns4 & h4 & d4 & p4 & HRe & Hwf4 & Hpl4 & Hr4 & HX4 & Hsz4 & R4').
    exists ns4, h4, d4, p4. split.
    { rewrite U1. simpl. rewrite Hn1. simpl. rewrite Hid, U2. simpl.
      rewrite Hnb2. simpl. rewrite HU. simpl. exact HRe. }
    split_and!; auto; [lia|].
    rewrite reverse_cons, <- app_assoc. exact R4'.
  - assert (R' : relaxing es s N d p X u (e :: done))
      by (apply relaxing_skip; [exact R|lia]).
    destruct (IH (e :: done) ns h d p Hwf Hpl Hr HX R' Hrest Hfuel) as
      (ns4 & h4 & d4 & p4 & HRe & Hwf4 & Hpl4 & Hr4 & HX4 & Hsz4 & R4').
    exists ns4, h4, d4, p4. split_and!; auto.
    rewrite reverse_cons, <- app_assoc. exact R4'.
Qed.

(** ** The loop over the heap *)

Lemma FindPathsToNodes_loop_spec (fuel : nat) :
  forall (rounds : nat) ns h d p X,
    heap_wf ns h -> plain ns -> repr ns d p -> settled_by ns h X ->
    relaxed es s N d p X ->
    (Z.to_nat (Size h) < rounds)%nat ->
    (Z.to_nat (Size h) <= fuel)%nat ->
    exists ns' d' p',
      FindPathsToNodes_loop rounds fuel es ns h = Ok ns' /\
      plain ns' /\ repr ns' d' p' /\
      relaxed es s N d' p' (fun x => 0 <= x < N).
Proof.
  induction rounds as [|rounds IH]; intros ns h d p X Hwf Hpl Hr HX R Hrounds Hfuel;
    [lia|].
  pose proof Hpl as (HN & Hd & Hh).
  simpl. unfold IsNotEmpty. rewrite Z.gtb_ltb.
  destruct (Z.ltb_spec 0 (Size h)) as [Hpos|Hemp].
  - destruct (RemoveFirst_spec fuel ns h Hwf Hpos Hfuel) as
      (a0 & n0 & ns1 & h1 & HR & H0 & Hsz & Hwf1 & _ & He1 & Hin1 & _).
    rewrite HR. simpl.
    assert (Ha0 : in_slots (Items h) (Size h) a0).
    { exists 0. split; [lia|apply H0]. }
    pose proof (in_slots_valid _ _ _ Hwf Ha0) as Hv0. rewrite HN in Hv0.
    pose proof H0 as [_ Hn0].
    destruct (erase_at_index _ _ _ _ He1 Hn0) as (n1 & Hn1 & _).
    pose proof (plain_erase _ _ He1 Hpl) as Hpl1.
    pose proof (repr_erase _ _ _ _ He1 Hr) as Hr1.
    pose proof Hpl1 as (HN1 & Hd1 & Hh1).
    rewrite Hn1. simpl. rewrite (Hd1 _ _ Hn1).
    destruct (at_index_valid es a0 ltac:(lia)) as [edges Hedges]. rewrite Hedges. simpl.
    assert (HnX : ~ X a0) by (intros H; apply HX in H; tauto).
    assert (Hmin : forall y, 0 <= y < N -> ~ X y -> d a0 <= d y).
    { intros y Hy HnXy.
      assert (Hiny : in_slots (Items h) (Size h) y).
      { destruct (in_slots_dec ns h y Hwf) as [H|H]; [exact H|].
        exfalso. apply HnXy, HX. split; [lia|exact H]. }
      destruct (at_index_valid ns y ltac:(lia)) as [ny Hny].
      pose proof (heap_wf_root_min _ _ _ _ _ _ Hwf H0 Hiny Hny) as Hle.
      destruct (Hr _ _ Hn0) as [Hg0 _]. destruct (Hr _ _ Hny) as [Hgy _].
      pose proof (rel_bounds _ _ _ _ _ _ R a0 Hv0). pose proof (rel_bounds _ _ _ _ _ _ R y Hy).
      rewrite (plain_key n0), (plain_key ny) in Hle; eauto; try lia.
      apply key_le_cost in Hle. lia. }
    pose proof (relaxed_extract es s N start_valid d p X a0 R Hv0 HnX Hmin) as R1.
    assert (HX1 : settled_by ns1 h1 (fun x => X x \/ x = a0)).
    { intros x. rewrite HN1, (HX x), HN, Hsz. rewrite <- Hsz, (Hin1 x).
      destruct (decide (x = a0)) as [->|Hne]; [tauto|]. tauto. }
    destruct (RelaxEdges_spec fuel _ a0 (NeighbouringEdges edges) [] ns1 h1 d p
                Hwf1 Hpl1 Hr1 HX1 R1) as
      (ns2 & h2 & d2 & p2 & HRe & Hwf2 & Hpl2 & Hr2 & HX2 & Hsz2 & R2); [|lia|].
    { intros e He. exists edges, e. auto. }
    rewrite HRe. simpl.
    apply (IH ns2 h2 d2 p2 (fun x => X x \/ x = a0)); auto; [|lia|lia].
    eapply relaxing_finish; [exact R2|].
    intros v w (eu & e & Heu & He & Hv & Hw). rewrite Hedges in Heu. inversion Heu. subst eu.
    exists e. rewrite app_nil_r, elem_of_reverse. auto.
  - exists ns, d, p. split_and!; auto.
    eapply relaxed_ext; [|exact R]. intros x. rewrite (HX x), HN.
    split; [tauto|]. intros Hx. split; [exact Hx|].
    intros (j & Hj & _). lia.
Qed.

Lemma tree_chain_cost ns d p X v c :
  repr ns d p ->
  (forall x, X x -> 0 <= x < Num ns) ->
  tree es s X p v c -> chain_cost ns es s v c.
Proof.
  intros Hr HX. induction 1 as [|v w c Hne Hv He _ IH]; [constructor|].
  destruct (at_index_valid ns v (HX v Hv)) as [n Hn].
  destruct (Hr _ _ Hn) as [_ Hp]. rewrite <- Hp in *.
  eapply chain_snoc; eauto.
Qed.

End SingleSourceCorrect.

Section SingleSourceTheorem.
Context {FVector2D : Type}.
Implicit Types (g : FBytesGraph FVector2D).

(** C1 (amended). On a well-formed graph whose weights are non-negative
    and small enough for [int32] sums, with all nodes reset by
    [InitNodes], [FindPathsToNodes] from a valid start returns for every
    sufficient fuel; afterwards every node whose minimal cost from the
    start is below the sentinel holds that cost and a predecessor chain
    realising it, and every node that has no path of cost below the
    sentinel (in particular every unreachable node) holds the sentinel
    cost and predecessor -1. *)
Theorem FindPathsToNodes_shortest g (StartID : Z) (fuel : nat) :
  graph_wf g ->
  weights_within (Edges g) (2 ^ 31 - 1 - INITIAL_DISTANCE) ->
  reset (Nodes g) ->
  IsValidIndex (Nodes g) StartID = true ->
  (Z.to_nat (Num (Nodes g)) < fuel)%nat ->
  exists g',
    FindPathsToNodes fuel g StartID = Ok g' /\
    Edges g' = Edges g /\
    Num (Nodes g') = Num (Nodes g) /\
    forall v n, at_index (Nodes g') v = Ok n ->
      (forall d, min_cost (Edges g) StartID v d -> d < INITIAL_DISTANCE ->
         GCost n = d /\ chain_cost (Nodes g') (Edges g) StartID v d) /\
      ((forall c, path_cost (Edges g) StartID v c -> INITIAL_DISTANCE <= c) ->
         GCost n = INITIAL_DISTANCE /\ ParentID n = -1).
Proof.
  intros (Hcap & HNe & Hd & Hev) Hw Hreset Hs Hfuel.
  apply IsValidIndex_true in Hs.
  set (N := Num (Nodes g)) in *. set (es := Edges g) in *.
  assert (Hedges : forall u v w, edge es u v w -> 0 <= v < N /\ 0 <= w).
  { intros u v w He. split; [eapply Hev, He|]. specialize (Hw u v w He). lia. }
  assert (Hfit : forall u v w, edge es u v w -> w <= 2 ^ 31 - 1 - INITIAL_DISTANCE).
  { intros u v w He. specialize (Hw u v w He). lia. }
  destruct (at_index_valid _ _ Hs) as [n Hn].
  destruct (update_at_valid (Nodes g) StartID (set_GCost 0) n Hn) as [ns0 U0].
  pose proof (update_at_Num _ _ _ _ U0) as HN0. fold N in HN0.
  set (d0 := fun v : Z => if decide (v = StartID) then 0 else INITIAL_DISTANCE).
  set (p0 := fun _ : Z => -1).
  assert (Hpl0 : plain N ns0).
  { split; [exact HN0|]. split.
    - intros v nv Hv. rewrite (at_index_update_at _ _ _ _ v U0) in Hv.
      destruct (decide (v = StartID)) as [->|Hne].
      + rewrite Hn in Hv. inversion Hv. simpl. eapply Hd, Hn.
      + eapply Hd, Hv.
    - intros v nv Hv. rewrite (at_index_update_at _ _ _ _ v U0) in Hv.
      destruct (decide (v = StartID)) as [->|Hne].
      + rewrite Hn in Hv. inversion Hv. simpl. eapply Hreset, Hn.
      + eapply Hreset, Hv. }
  assert (Hr0 : repr ns0 d0 p0).
  { intros v nv Hv. rewrite (at_index_update_at _ _ _ _ v U0) in Hv.
    unfold d0, p0. destruct (decide (v = StartID)) as [->|Hne].
    - rewrite Hn in Hv. inversion Hv. simpl. split; [reflexivity|eapply Hreset, Hn].
    - destruct (Hreset _ _ Hv) as (H1 & _ & H3). auto. }
  destruct (new_heap_wf ns0 N) as (Hwf0 & HNh & Hempty); [unfold N, Num in *; lia|].
  destruct (AddAll_spec fuel (seqZ 0 N) ns0 (new_FBytesPathfindingHeap N) Hwf0) as
    (ns1 & h1 & HA & Hwf1 & Hsz1 & HN1 & He1 & Hin1).
  { apply NoDup_seqZ. }
  { intros a Ha. apply elem_of_seqZ in Ha. split; [lia|apply Hempty]. }
  { rewrite length_seqZ, HNh. simpl. unfold N, Num. lia. }
  { rewrite HNh. lia. }
  rewrite length_seqZ in Hsz1. simpl in Hsz1.
  assert (HNpos : 0 <= N) by (unfold N, Num; lia).
  assert (HX1 : settled_by ns1 h1 (fun _ => False)).
  { intros x. split; [contradiction|]. intros [Hx Hnot]. apply Hnot, Hin1. right.
    apply elem_of_seqZ. rewrite (erase_Num _ _ He1), HN0 in Hx. lia. }
  assert (R0 : relaxed es StartID N d0 p0 (fun _ => False)).
  { apply relaxed_initial; unfold d0, p0; auto.
    - rewrite decide_True by reflexivity. reflexivity.
    - intros v _ Hne. rewrite decide_False by auto. reflexivity. }
  assert (Hr1 : (Z.to_nat (Size h1) < fuel)%nat) by lia.
  assert (Hr2 : (Z.to_nat (Size h1) <= fuel)%nat) by lia.
  destruct (FindPathsToNodes_loop_spec es StartID N Hs HNe Hedges Hfit fuel fuel
              ns1 h1 d0 p0 (fun _ => False) Hwf1 (plain_erase N _ _ He1 Hpl0)
              (repr_erase _ _ _ _ He1 Hr0) HX1 R0 Hr1 Hr2) as
    (ns2 & d2 & p2 & HL & Hpl2 & Hrep2 & R2).
  exists (with_Nodes ns2 g). split.
  { unfold FindPathsToNodes. rewrite U0. simpl. rewrite HN0. fold N. rewrite HA. simpl.
    fold es. rewrite HL. reflexivity. }
  split; [reflexivity|]. destruct Hpl2 as (HN2 & _). split; [exact HN2|].
  simpl. intros v nv Hv. destruct (Hrep2 _ _ Hv) as [Hg Hp].
  pose proof (at_index_Ok_valid _ _ _ Hv) as Hvv. rewrite HN2 in Hvv.
  pose proof (rel_bounds _ _ _ _ _ _ R2 v Hvv) as Hb.
  assert (Hupper : forall c, path_cost es StartID v c -> d2 v <= c).
  { intros c Hc.
    destruct (relaxed_path es StartID N Hs Hedges d2 p2 _ v c R2) as
      [(y & Hy & HnX & _)|[_ Hle]]; auto; [|contradiction].
    intros x. destruct (decide (0 <= x < N)); auto. }
  assert (Htree : d2 v < INITIAL_DISTANCE -> tree es StartID (fun x => 0 <= x < N) p2 v (d2 v)).
  { intros Hlt. eapply rel_tree; eauto. }
  split.
  - intros d [Hpath Hmin] Hlt.
    pose proof (Hupper d Hpath) as Hle.
    specialize (Htree ltac:(lia)).
    pose proof (Hmin _ (tree_path_cost _ _ _ _ _ _ Htree)) as Hge.
    assert (d2 v = d) by lia. subst d. split; [exact Hg|].
    eapply tree_chain_cost; [exact Hrep2| |exact Htree].
    intros x Hx. rewrite HN2. exact Hx.
  - intros Hfar. assert (HS : d2 v = INITIAL_DISTANCE).
    { destruct (decide (d2 v < INITIAL_DISTANCE)) as [Hlt|Hge]; [|lia].
      pose proof (Hfar _ (tree_path_cost _ _ _ _ _ _ (Htree Hlt))). lia. }
    split; [congruence|]. rewrite Hp. eapply rel_unreached; eauto.
Qed.

End SingleSourceTheorem.


(** ** Closed instances of the single-source search *)

(** Two nodes joined by an edge that is longer than the sentinel, reset. *)
Definition far2 : FBytesGraph unit :=
  mkGraph [node1 0 (-1) INITIAL_DISTANCE 0 0; node1 1 (-1) INITIAL_DISTANCE 0 0]
          [mkEdges [mkEdge 1 3000000]; mkEdges [mkEdge 0 3000000]]
          Distance2D.

(** The line [2 -5- 1 -1- 0] and a node 3 without edges, reset. *)
Definition line3_reset : FBytesGraph unit :=
  mkGraph [node1 0 (-1) INITIAL_DISTANCE 0 0; node1 1 (-1) INITIAL_DISTANCE 0 0;
           node1 2 (-1) INITIAL_DISTANCE 0 0; node1 3 (-1) INITIAL_DISTANCE 0 0]
          [mkEdges [mkEdge 1 1]; mkEdges [mkEdge 2 5; mkEdge 0 1]; mkEdges [mkEdge 1 5];
           mkEdges []]
          Distance2D.

Lemma far2_edges (u v w : Z) :
  edge (Edges far2) u v w ->
  (u = 0 /\ v = 1 /\ w = 3000000) \/ (u = 1 /\ v = 0 /\ w = 3000000).
Proof.
  intros (eu & e & Hu & He & <- & <-). simpl in Hu.
  at_index_inv Hu; simpl in He; apply list_elem_of_singleton in He; subst; simpl; auto.
  right. split_and!; auto; lia.
Qed.

Lemma far2_paths (v c : Z) :
  path_cost (Edges far2) 0 v c -> (v = 0 /\ 0 <= c) \/ (v = 1 /\ 3000000 <= c).
Proof.
  induction 1 as [|u v w c _ IH He]; [left; lia|].
  apply far2_edges in He. lia.
Qed.

Lemma far2_min_cost : min_cost (Edges far2) 0 1 3000000.
Proof.
  split.
  - apply (path_snoc (Edges far2) 0 0 1 3000000 0); [constructor|].
    exists (mkEdges [mkEdge 1 3000000]), (mkEdge 1 3000000).
    split_and!; auto. apply list_elem_of_singleton. reflexivity.
  - intros c Hc. apply far2_paths in Hc. lia.
Qed.

(** C1, as stated, fails on [far2]: the weights are non-negative, every
    node is reset and 0 is a valid start; node 1 is reachable at the
    minimal cost 3,000,000, but the search leaves it at the sentinel cost
    2,000,000 with predecessor -1. *)
Lemma FindPathsToNodes_sentinel_counterexample :
  reset (Nodes far2) /\
  (forall u v w, edge (Edges far2) u v w -> 0 <= w) /\
  IsValidIndex (Nodes far2) 0 = true /\
  min_cost (Edges far2) 0 1 3000000 /\
  exists g' n,
    FindPathsToNodes 3 far2 0 = Ok g' /\
    at_index (Nodes g') 1 = Ok n /\
    GCost n = 2000000 /\ ParentID n = -1 /\ GCost n <> 3000000.
Proof.
  split_and!.
  - intros i n H. simpl in H. at_index_inv H; simpl; auto.
  - intros u v w H. apply far2_edges in H. lia.
  - reflexivity.
  - exact far2_min_cost.
  - eexists _, _. split; [vm_compute; reflexivity|].
    split; [vm_compute; reflexivity|]. simpl. split_and!; [reflexivity..|discriminate].
Qed.

Lemma line3_reset_edges (u v w : Z) :
  edge (Edges line3_reset) u v w ->
  0 <= v < 4 /\ 0 <= w <= 5.
Proof.
  intros (eu & e & Hu & He & <- & <-). simpl in Hu.
  at_index_inv Hu; simpl in He;
    repeat (apply elem_of_cons in He as [->|He]; [simpl; lia|]); inversion He.
Qed.

Lemma FindPathsToNodes_shortest_witness :
  exists g',
    FindPathsToNodes 5 line3_reset 0 = Ok g' /\
    Edges g' = Edges line3_reset /\
    Num (Nodes g') = Num (Nodes line3_reset) /\
    forall v n, at_index (Nodes g') v = Ok n ->
      (forall d, min_cost (Edges line3_reset) 0 v d -> d < INITIAL_DISTANCE ->
         GCost n = d /\ chain_cost (Nodes g') (Edges line3_reset) 0 v d) /\
      ((forall c, path_cost (Edges line3_reset) 0 v c -> INITIAL_DISTANCE <= c) ->
         GCost n = INITIAL_DISTANCE /\ ParentID n = -1).
Proof.
  apply (FindPathsToNodes_shortest line3_reset 0 5).
  - split_and!.
    + unfold Num. simpl. lia.
    + reflexivity.
    + intros i n H. simpl in H. at_index_inv H; simpl; lia.
    + intros u v w H. apply line3_reset_edges in H. unfold Num. simpl. lia.
  - intros u v w H. apply line3_reset_edges in H. unfold INITIAL_DISTANCE. lia.
  - intros i n H. simpl in H. at_index_inv H; simpl; auto.
  - reflexivity.
  - unfold Num. simpl. lia.
Defined.


(** * The point-to-point search *)

Section HeuristicSearch.

Variable es : list FBytesEdges.
Variables s N : Z.
(** [hh v] is the heuristic cost from [v] to the target. *)
Variable hh : Z -> Z.
Hypothesis edges_valid : forall u v w, edge es u v w -> 0 <= v < N /\ 0 <= w.
Hypothesis consistent : forall u v w, edge es u v w -> hh u <= w + hh v.

(** The state of the search between two extractions: [X] is the closed set
    and [O] the set of the nodes in the open heap. *)
Record searched (d p : Z -> Z) (X O : gset Z) : Prop := {
  sr_closed_valid : forall x, x ∈ X -> 0 <= x < N;
  sr_open_valid : forall x, x ∈ O -> 0 <= x < N;
  sr_disjoint : forall x, x ∈ X -> x ∉ O;
  sr_start : d s = 0 /\ (s ∈ X \/ s ∈ O);
  sr_edges : forall x v w, x ∈ X -> edge es x v w ->
    (v ∈ X \/ v ∈ O) /\ d v <= d x + w;
  sr_order : forall x y, x ∈ X -> y ∈ O -> d x + hh x <= d y + hh y;
  sr_optimal : forall x c, x ∈ X -> path_cost es s x c -> d x <= c;
  sr_tree : forall v, v ∈ X -> tree es s (fun x => x ∈ X) p v (d v);
  sr_front : forall v, v ∈ O ->
    v = s \/ exists w, p v ∈ X /\ edge es (p v) v w /\ d v = d (p v) + w
}.

(** The state while the edges of the node [u], closed last, are handled. *)
Record searching (d p : Z -> Z) (X O : gset Z) (u : Z) (done : list FBytesEdge)
  : Prop := {
  sg_closed_valid : forall x, x ∈ X -> 0 <= x < N;
  sg_open_valid : forall x, x ∈ O -> 0 <= x < N;
  sg_disjoint : forall x, x ∈ X -> x ∉ O;
  sg_current : u ∈ X;
  sg_start : d s = 0 /\ (s ∈ X \/ s ∈ O);
  sg_edges : forall x v w, x ∈ X -> x <> u -> edge es x v w ->
    (v ∈ X \/ v ∈ O) /\ d v <= d x + w;
  sg_done : forall e, e ∈ done ->
    (Edge_NodeID e ∈ X \/ Edge_NodeID e ∈ O) /\ d (Edge_NodeID e) <= d u + Weight e;
  sg_below : forall x, x ∈ X -> d x + hh x <= d u + hh u;
  sg_order : forall x y, x ∈ X -> y ∈ O -> d x + hh x <= d y + hh y;
  sg_optimal : forall x c, x ∈ X -> path_cost es s x c -> d x <= c;
  sg_tree : forall v, v ∈ X -> tree es s (fun x => x ∈ X) p v (d v);
  sg_front : forall v, v ∈ O ->
    v = s \/ exists w, p v ∈ X /\ edge es (p v) v w /\ d v = d (p v) + w
}.

Lemma searched_initial (d p : Z -> Z) :
  0 <= s < N -> d s = 0 -> searched d p ∅ {[s]}.
Proof.
  intros Hs Hd.
  assert (Hempty : forall x : Z, x ∈ (∅ : gset Z) -> False)
    by (intros x Hx; exact (not_elem_of_empty (C := gset Z) x Hx)).
  split.
  - intros x Hx. destruct (Hempty x Hx).
  - intros x Hx. apply elem_of_singleton in Hx. lia.
  - intros x Hx. destruct (Hempty x Hx).
  - split; [exact Hd|]. right. apply elem_of_singleton. reflexivity.
  - intros x v w Hx. destruct (Hempty x Hx).
  - intros x y Hx. destruct (Hempty x Hx).
  - intros x c Hx. destruct (Hempty x Hx).
  - intros v Hv. destruct (Hempty v Hv).
  - intros v Hv. apply elem_of_singleton in Hv. auto.
Qed.

(** Every path ends in a closed node that is at most as expensive, or
    passes an open node whose estimate is at most that of the path. *)
Lemma searched_path d p X O v c :
  searched d p X O ->
  path_cost es s v c ->
  (exists y, y ∈ O /\ d y + hh y <= c + hh v) \/ (v ∈ X /\ d v <= c).
Proof.
  intros R. induction 1 as [|u v w c Hpath IH He].
  - destruct (sr_start _ _ _ _ R) as [Hd [HX|HO]].
    + right. split; [exact HX|lia].
    + left. exists s. split; [exact HO|lia].
  - pose proof (consistent _ _ _ He) as Hc.
    destruct IH as [(y & Hy & Hle)|[HX Hle]].
    + left. exists y. split; [exact Hy|lia].
    + destruct (sr_edges _ _ _ _ R u v w HX He) as [[HXv|HOv] Hrel].
      * right. split; [exact HXv|lia].
      * left. exists v. split; [exact HOv|lia].
Qed.

(** Closing an open node of minimal estimate. *)
Lemma searched_extract d p X O u :
  searched d p X O ->
  u ∈ O ->
  (forall y, y ∈ O -> d u + hh u <= d y + hh y) ->
  searching d p ({[u]} ∪ X) (O ∖ {[u]}) u [].
Proof.
  intros R Hu Hmin.
  assert (HuX : u ∉ X) by (intros H; eapply sr_disjoint; eauto).
  assert (Hmono : forall v c, tree es s (fun x => x ∈ X) p v c ->
                              tree es s (fun x => x ∈ {[u]} ∪ X) p v c).
  { intros v c. apply tree_mono. set_solver. }
  split.
  - intros x Hx. apply elem_of_union in Hx as [Hx|Hx].
    + apply elem_of_singleton in Hx. subst. eapply sr_open_valid; eauto.
    + eapply sr_closed_valid; eauto.
  - intros x Hx. eapply sr_open_valid; eauto. set_solver.
  - intros x Hx. apply elem_of_union in Hx as [Hx|Hx]; [set_solver|].
    pose proof (sr_disjoint _ _ _ _ R x Hx). set_solver.
  - set_solver.
  - destruct (sr_start _ _ _ _ R) as [Hd [HX|HO]]; split; auto; [set_solver|].
    destruct (decide (s = u)); set_solver.
  - intros x v w Hx Hne He. apply elem_of_union in Hx as [Hx|Hx]; [set_solver|].
    destruct (sr_edges _ _ _ _ R x v w Hx He) as [[HXv|HOv] Hrel]; split; auto;
      [set_solver|]. destruct (decide (v = u)); set_solver.
  - intros e He. inversion He.
  - intros x Hx. apply elem_of_union in Hx as [Hx|Hx].
    + apply elem_of_singleton in Hx. subst. lia.
    + eapply sr_order; eauto.
  - intros x y Hx Hy. apply elem_of_difference in Hy as [Hy _].
    apply elem_of_union in Hx as [Hx|Hx].
    + apply elem_of_singleton in Hx. subst. auto.
    + eapply sr_order; eauto.
  - intros x c Hx Hc. apply elem_of_union in Hx as [Hx|Hx]; [|eapply sr_optimal; eauto].
    apply elem_of_singleton in Hx. subst x.
    destruct (searched_path d p X O u c R Hc) as [(y & Hy & Hle)|[HX' _]]; [|contradiction].
    specialize (Hmin y Hy). lia.
  - intros v Hv. apply elem_of_union in Hv as [Hv|Hv]; [|apply Hmono; eapply sr_tree; eauto].
    apply elem_of_singleton in Hv. subst v.
    destruct (decide (u = s)) as [->|Hne].
    + destruct (sr_start _ _ _ _ R) as [-> _]. constructor. set_solver.
    + destruct (sr_front _ _ _ _ R u Hu) as [->|(w & Hp & He & Hd)]; [contradiction|].
      rewrite Hd. apply tree_step; auto; [set_solver|].
      apply Hmono. eapply sr_tree; eauto.
  - intros v Hv. apply elem_of_difference in Hv as [Hv _].
    destruct (sr_front _ _ _ _ R v Hv) as [->|(w & Hp & He & Hd)]; [auto|].
    right. exists w. split_and!; auto. set_solver.
Qed.

(** Costs of closed and open nodes are costs of paths. *)
Lemma searching_closed_nonneg d p X O u done x :
  searching d p X O u done -> x ∈ X -> 0 <= d x.
Proof.
  intros R Hx. eapply (tree_nonneg es s N); [|eapply sg_tree; eauto].
  exact edges_valid.
Qed.

(** An edge to a closed node. *)
Lemma searching_closed d p X O u done e :
  searching d p X O u done ->
  edge es u (Edge_NodeID e) (Weight e) ->
  Edge_NodeID e ∈ X ->
  searching d p X O u (e :: done).
Proof.
  intros R He HX. pose proof (consistent _ _ _ He) as Hc.
  pose proof (sg_below _ _ _ _ _ _ R _ HX) as Hb.
  destruct R. split; auto.
  intros e' He'. apply elem_of_cons in He' as [->|He']; [|auto].
  split; [auto|lia].
Qed.

(** An edge to an open node that is already cheaper. *)
Lemma searching_better d p X O u done e :
  searching d p X O u done ->
  Edge_NodeID e ∈ O ->
  d (Edge_NodeID e) < d u + Weight e ->
  searching d p X O u (e :: done).
Proof.
  intros R HO Hlt. destruct R. split; auto.
  intros e' He'. apply elem_of_cons in He' as [->|He']; [|auto].
  split; [auto|lia].
Qed.

(** An edge to a node [v] that is not closed and takes the new cost; [v]
    joins the open set unless it is there already. *)
Lemma searching_relax d p X O u done e :
  searching d p X O u done ->
  edge es u (Edge_NodeID e) (Weight e) ->
  Edge_NodeID e ∉ X ->
  (Edge_NodeID e ∈ O -> d u + Weight e <= d (Edge_NodeID e)) ->
  let v := Edge_NodeID e in
  searching (fun x => if decide (x = v) then d u + Weight e else d x)
            (fun x => if decide (x = v) then u else p x)
            X ({[v]} ∪ O) u (e :: done).
Proof.
  intros R He HnX Hle. simpl. remember (Edge_NodeID e) as v eqn:Hvdef in *.
  destruct (edges_valid _ _ _ He) as [Hv Hw].
  pose proof (consistent _ _ _ He) as Hc.
  pose proof (sg_current _ _ _ _ _ _ R) as HuX.
  pose proof (searching_closed_nonneg _ _ _ _ _ _ u R HuX) as Hdu.
  assert (Hvu : v <> u) by (intros ->; contradiction).
  assert (HX : forall x, x ∈ X -> x <> v) by (intros x Hx ->; contradiction).
  split; cbv beta.
  - apply R.
  - intros x Hx. apply elem_of_union in Hx as [Hx|Hx].
    + apply elem_of_singleton in Hx. subst. exact Hv.
    + eapply sg_open_valid; eauto.
  - intros x Hx. pose proof (sg_disjoint _ _ _ _ _ _ R x Hx). specialize (HX x Hx).
    set_solver.
  - exact HuX.
  - destruct (sg_start _ _ _ _ _ _ R) as [Hd Hs]. split; [|set_solver].
    destruct (decide (s = v)) as [E|E]; [|exact Hd].
    destruct Hs as [Hs|Hs]; [rewrite E in Hs; contradiction|].
    rewrite <- E in Hle. specialize (Hle Hs). lia.
  - intros x y w Hx Hne Hxy. rewrite (decide_False (P := x = v)) by auto.
    destruct (sg_edges _ _ _ _ _ _ R x y w Hx Hne Hxy) as [Hin Hold].
    split; [set_solver|].
    destruct (decide (y = v)) as [->|]; [|exact Hold].
    destruct Hin as [Hin|Hin]; [contradiction|]. specialize (Hle Hin). lia.
  - intros e' He'. rewrite (decide_False (P := u = v)) by auto.
    apply elem_of_cons in He' as [->|He'].
    + rewrite <- Hvdef. rewrite decide_True by reflexivity. split; [set_solver|lia].
    + destruct (sg_done _ _ _ _ _ _ R e' He') as [Hin Hold]. split; [set_solver|].
      destruct (decide (Edge_NodeID e' = v)) as [E|E]; [|exact Hold].
      rewrite E in Hin, Hold.
      destruct Hin as [Hin|Hin]; [contradiction|]. specialize (Hle Hin). lia.
  - intros x Hx. rewrite !decide_False by auto. eapply sg_below; eauto.
  - intros x y Hx Hy. rewrite (decide_False (P := x = v)) by auto.
    destruct (decide (y = v)) as [->|Hne].
    + pose proof (sg_below _ _ _ _ _ _ R x Hx). lia.
    + eapply sg_order; eauto. set_solver.
  - intros x c Hx. rewrite (decide_False (P := x = v)) by auto. eapply sg_optimal; eauto.
  - intros x Hx. rewrite (decide_False (P := x = v)) by auto.
    apply tree_frame with (p := p).
    + intros y Hy. rewrite decide_False by auto. reflexivity.
    + eapply sg_tree; eauto.
  - intros x Hx. destruct (decide (x = v)) as [->|Hne].
    + right. exists (Weight e). rewrite (decide_False (P := u = v)) by auto.
      split_and!; auto.
    + assert (HxO : x ∈ O) by set_solver.
      destruct (sg_front _ _ _ _ _ _ R x HxO) as [->|(w & Hp & Hpe & Hd)]; [auto|].
      right. exists w. rewrite !(decide_False (P := p x = v)) by auto. auto.
Qed.

(** All edges of [u] are handled. *)
Lemma searching_finish d p X O u done :
  searching d p X O u done ->
  (forall v w, edge es u v w -> exists e, e ∈ done /\ Edge_NodeID e = v /\ Weight e = w) ->
  searched d p X O.
Proof.
  intros R Hall. destruct R. split; auto.
  intros x v w Hx He. destruct (decide (x = u)) as [->|Hne]; [|eauto].
  destruct (Hall v w He) as (e & Hin & <- & <-). auto.
Qed.

End HeuristicSearch.


(** ** Sets of node ids *)

Lemma size_bounded (A : gset Z) (N : Z) :
  (forall x, x ∈ A -> 0 <= x < N) -> Z.of_nat (size A) <= Z.max 0 N.
Proof.
  intros HA.
  assert (Hsub : A ⊆ list_to_set (seqZ 0 N)).
  { intros x Hx. apply elem_of_list_to_set, elem_of_seqZ. specialize (HA x Hx). lia. }
  apply subseteq_size in Hsub.
  rewrite size_list_to_set in Hsub by apply NoDup_seqZ.
  rewrite length_seqZ in Hsub. lia.
Qed.

Lemma size_add (A : gset Z) (x : Z) :
  x ∉ A -> size ({[x]} ∪ A) = S (size A).
Proof.
  intros Hx. rewrite size_union by set_solver. rewrite size_singleton. reflexivity.
Qed.

Lemma size_remove (A : gset Z) (x : Z) :
  x ∈ A -> S (size (A ∖ {[x]})) = size A.
Proof.
  intros Hx. rewrite <- (size_add (A ∖ {[x]}) x) by set_solver.
  f_equal. apply leibniz_equiv. intros y. destruct (decide (y = x)); set_solver.
Qed.

(** ** [Contains] scans the whole array *)

Lemma Contains_spec (h : FBytesPathfindingHeap) (P : ptr) :
  Contains h P = true <-> exists j, at_index (Items h) j = Ok P.
Proof.
  unfold Contains. rewrite existsb_exists. split.
  - intros (E & HE & Heq). apply bool_decide_eq_true in Heq. subst E.
    apply list_elem_of_In, elem_of_at_index in HE. exact HE.
  - intros Hj. exists P. split.
    + apply list_elem_of_In, elem_of_at_index. exact Hj.
    + apply bool_decide_eq_true. reflexivity.
Qed.

(** ** Fields that no search writes *)

Section Places.
Context {FVector2D : Type}.
Implicit Types (ns : list (FBytesNode FVector2D)) (n : FBytesNode FVector2D).

(** A node with everything but its id and position blanked. *)
Definition blank n : FBytesNode FVector2D :=
  mkNode (NodeID n) 0 0 0 (Location2D n) 0.

Definition same_places ns ns' : Prop := map blank ns' = map blank ns.

Lemma same_places_refl ns : same_places ns ns.
Proof. reflexivity. Qed.

Lemma same_places_trans ns1 ns2 ns3 :
  same_places ns1 ns2 -> same_places ns2 ns3 -> same_places ns1 ns3.
Proof. unfold same_places. congruence. Qed.

Lemma same_places_Num ns ns' : same_places ns ns' -> Num ns' = Num ns.
Proof.
  intros H. apply (f_equal length) in H. rewrite !length_map in H. unfold Num. lia.
Qed.

Lemma same_places_at_index ns ns' a n' :
  same_places ns ns' -> at_index ns' a = Ok n' ->
  exists n, at_index ns a = Ok n /\ NodeID n' = NodeID n /\ Location2D n' = Location2D n.
Proof.
  intros He Hn'. pose proof (at_index_map blank ns a) as H1.
  pose proof (at_index_map blank ns' a) as H2.
  unfold same_places in He. rewrite He, H1, Hn' in H2.
  destruct (at_index ns a) as [n|f]; simpl in H2; [|discriminate].
  exists n. split; [reflexivity|]. inversion H2. auto.
Qed.

Lemma same_places_erase ns ns' : erase ns' = erase ns -> same_places ns ns'.
Proof.
  intros He. unfold same_places.
  assert (Hb : forall l : list (FBytesNode FVector2D), map blank l = map blank (erase l)).
  { intros l. unfold erase. rewrite map_map. reflexivity. }
  rewrite (Hb ns'), (Hb ns), He. reflexivity.
Qed.

Lemma same_places_update_at ns a (f : FBytesNode FVector2D -> FBytesNode FVector2D) ns' :
  update_at ns a f = Ok ns' ->
  (forall n, blank (f n) = blank n) ->
  same_places ns ns'.
Proof.
  intros H Hf. apply update_at_Ok in H as (n & Hn & ->).
  apply at_index_Ok in Hn as [_ Hn]. unfold same_places.
  change (blank <$> <[Z.to_nat a := f n]> ns = blank <$> ns).
  rewrite list_fmap_insert. apply list_insert_id.
  rewrite list_lookup_fmap, Hn. simpl. now rewrite Hf.
Qed.

Lemma same_places_dense ns ns' : same_places ns ns' -> ids_dense ns -> ids_dense ns'.
Proof.
  intros He Hd i n' Hn'.
  destruct (same_places_at_index _ _ _ _ He Hn') as (n & Hn & Hid & _).
  rewrite Hid. apply Hd, Hn.
Qed.

End Places.


(** * Correctness of [FindPath] *)

Section PointToPointCorrect.
Context {FVector2D : Type}.
Variable FloorDistance : FVector2D -> FVector2D -> Z.
Variable es : list FBytesEdges.
(** The node array when the search starts: it fixes ids and positions. *)
Variable places : list (FBytesNode FVector2D).
Variables s t D W Hm : Z.
Implicit Types (ns : list (FBytesNode FVector2D)) (h : FBytesPathfindingHeap).
Implicit Types (n : FBytesNode FVector2D) (d p : Z -> Z) (X O A : gset Z).

(** The heuristic cost of [v]: what [CalcHeuristicDistance] returns for
    [v] and the target. *)
Definition heuristic (v : Z) : Z :=
  match CalcHeuristicDistance FloorDistance places v t with
  | Ok x => x
  | Fail _ => 0
  end.

Hypothesis places_dense : ids_dense places.
Hypothesis target_valid : 0 <= t < Num places.
Hypothesis capacity : Num places <= 2 ^ 30.
Hypothesis lists : Num es = Num places.
Hypothesis edges_valid : forall u v w, edge es u v w -> 0 <= v < Num places /\ 0 <= w.
Hypothesis weights_fit : forall u v w, edge es u v w -> w <= W.
Hypothesis W_nonneg : 0 <= W.
Hypothesis heuristic_fit : forall v, 0 <= v < Num places -> 0 <= heuristic v <= Hm.
Hypothesis consistent : forall u v w, edge es u v w -> heuristic u <= w + heuristic v.
Hypothesis costs_fit :
  forall v c, path_cost es s v c -> exists c', path_cost es s v c' /\ c' <= D.
Hypothesis int32_fit : D + W + Hm < 2 ^ 31.

(** The nodes of [A] store the costs [d], the predecessors [p] and their
    heuristic cost. *)
Definition stored ns d p A : Prop :=
  forall v n, at_index ns v = Ok n -> v ∈ A ->
    GCost n = d v /\ ParentID n = p v /\ HCost n = heuristic v.

(** [O] is the set of the nodes in the heap. *)
Definition heap_of ns h O : Prop :=
  heap_wf ns h /\ Num (Items h) = Num places /\
  (forall x, x ∈ O <-> in_slots (Items h) (Size h) x) /\
  Z.of_nat (size O) = Size h.

(** Every pointer left anywhere in the array is to a node of [A]. *)
Definition traces h A : Prop :=
  forall j v, at_index (Items h) j = Ok (Some v) -> v ∈ A.

Lemma heuristic_calc ns v :
  same_places places ns -> 0 <= v < Num places ->
  CalcHeuristicDistance FloorDistance ns v t = Ok (heuristic v).
Proof.
  intros Hp Hv. pose proof (same_places_Num _ _ Hp) as HN.
  destruct (at_index_valid ns v ltac:(lia)) as [a Ha].
  destruct (at_index_valid ns t ltac:(lia)) as [b Hb].
  destruct (same_places_at_index _ _ _ _ Hp Ha) as (a0 & Ha0 & _ & Hla).
  destruct (same_places_at_index _ _ _ _ Hp Hb) as (b0 & Hb0 & _ & Hlb).
  unfold heuristic, CalcHeuristicDistance. rewrite Ha, Hb, Ha0, Hb0. simpl.
  rewrite Hla, Hlb. reflexivity.
Qed.

Lemma stored_erase ns ns' d p A :
  erase ns' = erase ns -> stored ns d p A -> stored ns' d p A.
Proof.
  intros He Hs v n' Hn' Hv. symmetry in He.
  destruct (erase_at_index _ _ _ _ He Hn') as (n & Hn & Hen).
  apply erased_fields in Hen as (_ & Hp & Hg & Hh & _).
  destruct (Hs v n Hn Hv) as (H1 & H2 & H3). split_and!; congruence.
Qed.

Lemma searching_closed_bounds d p X O u done x :
  searching es s (Num places) heuristic d p X O u done -> x ∈ X -> 0 <= d x <= D.
Proof.
  intros R Hx. pose proof (sg_tree _ _ _ _ _ _ _ _ _ _ R x Hx) as Ht.
  split; [eapply (tree_nonneg es s (Num places)); eauto|].
  apply tree_path_cost in Ht. destruct (costs_fit _ _ Ht) as (c' & Hc' & Hle).
  pose proof (sg_optimal _ _ _ _ _ _ _ _ _ _ R x c' Hx Hc'). lia.
Qed.

Lemma searching_open_bounds d p X O u done v :
  searching es s (Num places) heuristic d p X O u done -> v ∈ O -> 0 <= d v <= D + W.
Proof.
  intros R Hv.
  pose proof (searching_closed_bounds _ _ _ _ _ _ u R (sg_current _ _ _ _ _ _ _ _ _ _ R)) as Hu.
  destruct (sg_front _ _ _ _ _ _ _ _ _ _ R v Hv) as [->|(w & Hp & He & Hd)].
  - destruct (sg_start _ _ _ _ _ _ _ _ _ _ R) as [-> _]. lia.
  - pose proof (searching_closed_bounds _ _ _ _ _ _ _ R Hp).
    destruct (edges_valid _ _ _ He). pose proof (weights_fit _ _ _ He). lia.
Qed.

Lemma stored_key ns d p A v n :
  stored ns d p A -> at_index ns v = Ok n -> v ∈ A ->
  0 <= v < Num places -> 0 <= d v <= D + W ->
  node_key n = (d v + heuristic v, heuristic v).
Proof.
  intros Hs Hn Hv Hvv Hd. destruct (Hs v n Hn Hv) as (Hg & _ & Hh).
  pose proof (heuristic_fit v Hvv).
  unfold node_key, FCost, add32. rewrite Hg, Hh, wrap32_id by lia. reflexivity.
Qed.

Lemma Contains_open ns h X O v :
  heap_of ns h O -> traces h (X ∪ O) -> v ∉ X ->
  (Contains h (Some v) = true <-> v ∈ O).
Proof.
  intros (_ & _ & HO & _) Ht Hv. rewrite Contains_spec. split.
  - intros (j & Hj). apply Ht in Hj. set_solver.
  - intros Hin. apply HO in Hin as (j & _ & Hj). eauto.
Qed.

Lemma heap_of_room ns h X O v :
  heap_of ns h O ->
  (forall x, x ∈ X -> 0 <= x < Num places) ->
  (forall x, x ∈ O -> 0 <= x < Num places) ->
  0 <= v < Num places -> v ∉ O ->
  Size h < Num (Items h).
Proof.
  intros (_ & HN & _ & Hsz) HX HO Hv HvO.
  pose proof (size_bounded ({[v]} ∪ O) (Num places)) as Hb.
  rewrite size_add in Hb by exact HvO.
  assert (Hall : forall x, x ∈ {[v]} ∪ O -> 0 <= x < Num places).
  { intros x Hx. apply elem_of_union in Hx as [Hx|Hx]; [|auto].
    apply elem_of_singleton in Hx. subst. exact Hv. }
  specialize (Hb Hall). lia.
Qed.

Lemma traces_moved h h' (m : Z) A :
  traces h A ->
  (forall x, in_slots (Items h') m x -> x ∈ A) ->
  (forall j, m <= j -> at_index (Items h') j = at_index (Items h) j) ->
  traces h' A.
Proof.
  intros Ht Hin Hsame j v Hj.
  destruct (decide (j < m)) as [Hlt|Hge].
  - apply Hin. exists j. split; [|exact Hj].
    pose proof (at_index_Ok_valid _ _ _ Hj). lia.
  - rewrite Hsame in Hj by lia. eapply Ht, Hj.
Qed.

(** ** The loop over the edges of the closed node *)

Lemma FindPath_edges_spec (fuel : nat) X u :
  (Z.to_nat (Num places) <= fuel)%nat ->
  forall l done ns h d p O,
    same_places places ns -> stored ns d p (X ∪ O) -> heap_of ns h O ->
    traces h (X ∪ O) ->
    searching es s (Num places) heuristic d p X O u done ->
    (forall e, e ∈ l -> edge es u (Edge_NodeID e) (Weight e)) ->
    exists ns' h' d' p' O',
      FindPath_edges FloorDistance fuel t ns h X (Some u) l = Ok (ns', h') /\
      same_places places ns' /\ stored ns' d' p' (X ∪ O') /\ heap_of ns' h' O' /\
      traces h' (X ∪ O') /\
      searching es s (Num places) heuristic d' p' X O' u (reverse l ++ done).
Proof.
  intros Hfuel. induction l as [|e l IH]; intros done ns h d p O Hpl Hst Hho Htr R Hl.
  { exists ns, h, d, p, O. split_and!; auto. }
  pose proof (same_places_Num _ _ Hpl) as HN.
  pose proof (same_places_dense _ _ Hpl places_dense) as Hd.
  pose proof (sg_current _ _ _ _ _ _ _ _ _ _ R) as HuX.
  pose proof (sg_closed_valid _ _ _ _ _ _ _ _ _ _ R u HuX) as Hu.
  assert (He : edge es u (Edge_NodeID e) (Weight e)) by (apply Hl; left).
  assert (Hrest : forall e', e' ∈ l -> edge es u (Edge_NodeID e') (Weight e'))
    by (intros e' He'; apply Hl; right; exact He').
  destruct (edges_valid _ _ _ He) as [Hv Hw]. pose proof (weights_fit _ _ _ He) as Hw'.
  set (v := Edge_NodeID e) in *.
  assert (Hv' : 0 <= v < Num ns) by (rewrite HN; exact Hv).
  assert (Hu' : 0 <= u < Num ns) by (rewrite HN; exact Hu).
  destruct (at_index_valid ns v Hv') as [nb Hnb].
  destruct (at_index_valid ns u Hu') as [nu Hnu].
  pose proof (Hd _ _ Hnb) as Hidv. pose proof (Hd _ _ Hnu) as Hidu.
  destruct (Hst u nu Hnu ltac:(set_solver)) as (Hgu & _ & _).
  pose proof (searching_closed_bounds _ _ _ _ _ _ u R HuX) as Hbu.
  pose proof (heuristic_fit t target_valid) as Hht.
  assert (Hmove : add32 (GCost nu) (Weight e) = d u + Weight e).
  { unfold add32. rewrite Hgu. apply wrap32_id. lia. }
  cbn [FindPath_edges]. fold v. rewrite Hnb. simpl. rewrite Hnb. simpl. rewrite Hidv.
  destruct (decide (v ∈ X)) as [HvX|HvX].
  { rewrite bool_decide_eq_true_2 by exact HvX.
    destruct (IH (e :: done) ns h d p O Hpl Hst Hho Htr) as
      (ns' & h' & d' & p' & O' & HF & H1 & H2 & H3 & H4 & H5); auto.
    { apply searching_closed; auto. }
    exists ns', h', d', p', O'. split_and!; auto.
    rewrite reverse_cons, <- app_assoc. exact H5. }
  rewrite bool_decide_eq_false_2 by exact HvX.
  rewrite Hnu. simpl. rewrite Hmove.
  pose proof (Contains_open ns h X O v Hho Htr HvX) as Hcont.
  destruct (decide (v ∈ O /\ GCost nb < d u + Weight e)) as [[HvO Hlt]|Hrelax].
  { apply Hcont in HvO as Hc. rewrite Hc. simpl.
    destruct (Z.ltb_spec (GCost nb) (d u + Weight e)) as [_|]; [|lia].
    destruct (Hst v nb Hnb ltac:(set_solver)) as (Hgv & _ & _).
    destruct (IH (e :: done) ns h d p O Hpl Hst Hho Htr) as
      (ns' & h' & d' & p' & O' & HF & H1 & H2 & H3 & H4 & H5); auto.
    { apply searching_better; auto. fold v. lia. }
    exists ns', h', d', p', O'. split_and!; auto.
    rewrite reverse_cons, <- app_assoc. exact H5. }
  assert (Hle : v ∈ O -> d u + Weight e <= d v).
  { intros HvO. destruct (Hst v nb Hnb ltac:(set_solver)) as (Hgv & _ & _).
    destruct (decide (GCost nb < d u + Weight e)); [tauto|lia]. }
  assert (Hcond : Contains h (Some v) && (GCost nb <? d u + Weight e) = false).
  { destruct (Contains h (Some v)) eqn:Hc; [|reflexivity].
    assert (HvO : v ∈ O) by (apply Hcont; reflexivity).
    destruct (Z.ltb_spec (GCost nb) (d u + Weight e)); [tauto|reflexivity]. }
  rewrite Hcond.
  pose proof (searching_relax es s (Num places) heuristic edges_valid consistent
                d p X O u done e R He HvX Hle) as R'.
  simpl in R'. fold v in R'.
  (* the three assignments to the neighbour *)
  destruct (update_at_valid ns v (set_ParentID (NodeID nu)) nb Hnb) as [ns1 U1].
  assert (Hn1 : at_index ns1 v = Ok (set_ParentID u nb)).
  { rewrite (at_index_update_at _ _ _ _ v U1), decide_True, Hnb, Hidu by reflexivity.
    reflexivity. }
  destruct (update_at_valid ns1 v (set_GCost (d u + Weight e)) _ Hn1) as [ns2 U2].
  assert (Hn2 : at_index ns2 v = Ok (set_GCost (d u + Weight e) (set_ParentID u nb))).
  { rewrite (at_index_update_at _ _ _ _ v U2), decide_True, Hn1 by reflexivity.
    reflexivity. }
  assert (Hpl2 : same_places places ns2).
  { eapply same_places_trans; [exact Hpl|]. eapply same_places_trans.
    - eapply same_places_update_at; [exact U1|reflexivity].
    - eapply same_places_update_at; [exact U2|reflexivity]. }
  destruct (update_at_valid ns2 v (set_HCost (heuristic v)) _ Hn2) as [ns3 U3].
  set (n3 := set_HCost (heuristic v) (set_GCost (d u + Weight e) (set_ParentID u nb))).
  assert (Hn3 : at_index ns3 v = Ok n3).
  { rewrite (at_index_update_at _ _ _ _ v U3), decide_True, Hn2 by reflexivity.
    reflexivity. }
  assert (Hpl3 : same_places places ns3).
  { eapply same_places_trans; [exact Hpl2|].
    eapply same_places_update_at; [exact U3|reflexivity]. }
  assert (Hother : forall x, x <> v -> at_index ns3 x = at_index ns x).
  { intros x Hx. rewrite (at_index_update_at _ _ _ _ x U3), decide_False by auto.
    rewrite (at_index_update_at _ _ _ _ x U2), decide_False by auto.
    rewrite (at_index_update_at _ _ _ _ x U1), decide_False by auto. reflexivity. }
  assert (Hst3 : stored ns3 (fun x => if decide (x = v) then d u + Weight e else d x)
                   (fun x => if decide (x = v) then u else p x) (X ∪ ({[v]} ∪ O))).
  { intros x nx Hx Hin. destruct (decide (x = v)) as [->|Hne].
    - rewrite Hn3 in Hx. inversion Hx. subst nx. simpl. auto.
    - rewrite Hother in Hx by auto. apply (Hst x nx Hx). set_solver. }
  assert (Hrun : forall r,
    (if Contains h (Some v) then UpdateItem fuel ns3 h (Some v)
     else Add fuel ns3 h (Some v)) = Ok r ->
    forall k, FindPath_edges FloorDistance fuel t r.1 r.2 X (Some u) l = k ->
    (ns1 ← assign ns (Some v) (set_ParentID (NodeID nu));
     ns2 ← assign ns1 (Some v) (set_GCost (d u + Weight e));
     nb2 ← deref ns2 (Some v);
     hc ← CalcHeuristicDistance FloorDistance ns2 (NodeID nb2) t;
     ns3 ← assign ns2 (Some v) (set_HCost hc);
     '(ns4, h4) ← (if Contains h (Some v) then UpdateItem fuel ns3 h (Some v)
                   else Add fuel ns3 h (Some v));
     FindPath_edges FloorDistance fuel t ns4 h4 X (Some u) l) = k).
  { intros [ns4 h4] Hr k Hk. simpl. rewrite U1. simpl. rewrite U2. simpl.
    rewrite Hn2. simpl. rewrite Hidv.
    rewrite (heuristic_calc ns2 v Hpl2 Hv). simpl. rewrite U3. simpl.
    rewrite Hr. simpl. exact Hk. }
  pose proof (heuristic_fit v Hv) as Hhv.
  assert (Hkey3 : node_key n3 = (d u + Weight e + heuristic v, heuristic v)).
  { unfold node_key, FCost, add32, n3. simpl. rewrite wrap32_id by lia. reflexivity. }
  pose proof Hho as (Hwf & HNi & HO & Hsz).
  assert (Hsize : 0 <= Size h <= Num places).
  { pose proof (proj1 Hwf) as (Hsize & _). lia. }
  assert (Hstep : exists ns4 h4,
    (if Contains h (Some v) then UpdateItem fuel ns3 h (Some v)
     else Add fuel ns3 h (Some v)) = Ok (ns4, h4) /\
    erase ns4 = erase ns3 /\ heap_of ns4 h4 ({[v]} ∪ O) /\
    traces h4 (X ∪ ({[v]} ∪ O))).
  { destruct (decide (v ∈ O)) as [HvO|HvO].
    - (* the neighbour is in the heap: its key was lowered *)
      assert (Hc : Contains h (Some v) = true) by (apply Hcont; exact HvO).
      assert (Hkey : key_le (node_key n3) (node_key nb)).
      { rewrite Hkey3.
        rewrite (stored_key ns d p (X ∪ O) v nb Hst Hnb ltac:(set_solver) Hv
                   (searching_open_bounds _ _ _ _ _ _ v R HvO)).
        specialize (Hle HvO). unfold key_le, key_lt. simpl. lia. }
      assert (Hfuel' : (Z.to_nat (Size h) <= fuel)%nat) by lia.
      destruct (UpdateItem_spec fuel ns ns3 h v nb n3 Hwf (proj1 (HO v) HvO) Hnb Hn3
                  Hother eq_refl Hkey Hfuel') as (ns4 & h4 & HU & Hsz4 & Hwf4 & HR).
      assert (HOeq : {[v]} ∪ O = O) by set_solver.
      rewrite HOeq. destruct HR as (R1 & R2 & R3 & R4).
      exists ns4, h4. rewrite Hc. split_and!; auto.
      + split_and!; auto; [congruence| |lia].
        intros x. rewrite (HO x), Hsz4. symmetry. apply R3.
      + apply (traces_moved h h4 (Size h)); auto.
        intros x Hx. apply elem_of_union_r, HO, R3, Hx.
    - (* the neighbour is new: it is added to the heap *)
      assert (Hc : Contains h (Some v) = false).
      { destruct (Contains h (Some v)) eqn:Hc; [|reflexivity].
        exfalso. apply HvO, Hcont. reflexivity. }
      assert (Hwf3 : heap_wf ns3 h).
      { eapply heap_wf_frame; [exact Hwf|]. intros x Hx. apply Hother.
        intros ->. apply HvO, HO, Hx. }
      assert (Hroom : Size h < Num (Items h)).
      { eapply (heap_of_room ns h X O v); eauto.
        - eapply sg_closed_valid; eauto.
        - eapply sg_open_valid; eauto. }
      assert (Hfresh : ~ in_slots (Items h) (Size h) v)
        by (intros Hx; apply HvO, HO, Hx).
      assert (Hfuel' : (Z.to_nat (Size h) < fuel)%nat) by lia.
      destruct (Add_spec fuel ns3 h v n3 Hwf3 Hroom Hn3 Hfresh Hfuel') as
        (ns4 & h4 & HA & Hsz4 & Hwf4 & HN4 & He4 & Hin4 & Hbeyond).
      exists ns4, h4. rewrite Hc. split_and!; auto.
      + split_and!; auto; [congruence| |rewrite size_add by exact HvO; lia].
        intros x. rewrite (Hin4 x), elem_of_union, elem_of_singleton, (HO x). tauto.
      + apply (traces_moved h h4 (Size h4)).
        * intros j x Hj. apply Htr in Hj. set_solver.
        * intros x Hx. apply Hin4 in Hx as [Hx| ->]; [|set_solver].
          apply HO in Hx. set_solver.
        * intros j Hj. apply Hbeyond. lia. }
  destruct Hstep as (ns4 & h4 & Hrun4 & He4 & Hho4 & Htr4).
  assert (Hpl4 : same_places places ns4).
  { eapply same_places_trans; [exact Hpl3|]. apply same_places_erase, He4. }
  destruct (IH (e :: done) ns4 h4 _ _ ({[v]} ∪ O) Hpl4
              (stored_erase _ _ _ _ _ He4 Hst3) Hho4 Htr4 R' Hrest) as
    (ns' & h' & d' & p' & O' & HF & H1 & H2 & H3 & H4 & H5).
  exists ns', h', d', p', O'. split.
  { apply (Hrun (ns4, h4) Hrun4). exact HF. }
  split_and!; auto. rewrite reverse_cons, <- app_assoc. exact H5.
Qed.

(** ** The loop over the open heap *)

Lemma searched_open_bounds d p X O v :
  searched es s (Num places) heuristic d p X O -> v ∈ O -> 0 <= d v <= D + W.
Proof.
  intros R Hv.
  assert (Hclosed : forall x, x ∈ X -> 0 <= d x <= D).
  { intros x Hx. pose proof (sr_tree _ _ _ _ _ _ _ _ R x Hx) as Ht.
    split; [eapply (tree_nonneg es s (Num places)); eauto|].
    apply tree_path_cost in Ht. destruct (costs_fit _ _ Ht) as (c' & Hc' & Hle).
    pose proof (sr_optimal _ _ _ _ _ _ _ _ R x c' Hx Hc'). lia. }
  destruct (costs_fit s 0 (path_nil es s)) as (c' & Hc' & Hle).
  pose proof (path_cost_nonneg es s (Num places) edges_valid _ _ Hc') as Hc0.
  destruct (sr_front _ _ _ _ _ _ _ _ R v Hv) as [->|(w & Hp & He & Hd)].
  - destruct (sr_start _ _ _ _ _ _ _ _ R) as [-> _]. lia.
  - pose proof (Hclosed _ Hp).
    destruct (edges_valid _ _ _ He). pose proof (weights_fit _ _ _ He). lia.
Qed.

Lemma tree_chain_stored ns d p X v c :
  stored ns d p X ->
  (forall x, x ∈ X -> 0 <= x < Num ns) ->
  tree es s (fun x => x ∈ X) p v c -> chain_cost ns es s v c.
Proof.
  intros Hst HX. induction 1 as [|v w c Hne Hv He _ IH]; [constructor|].
  destruct (at_index_valid ns v (HX v Hv)) as [n Hn].
  destruct (Hst _ _ Hn Hv) as (_ & Hp & _). rewrite <- Hp in *.
  eapply chain_snoc; eauto.
Qed.

Lemma FindPath_loop_spec (fuel : nat) :
  (Z.to_nat (Num places) <= fuel)%nat ->
  (exists c, path_cost es s t c) ->
  forall (rounds : nat) ns h d p X O,
    same_places places ns -> stored ns d p (X ∪ O) -> heap_of ns h O ->
    traces h (X ∪ O) ->
    searched es s (Num places) heuristic d p X O ->
    t ∉ X ->
    (Z.to_nat (Num places) - size X < rounds)%nat ->
    exists ns' n,
      FindPath_loop FloorDistance rounds fuel t es ns h X = Ok (PathFound, ns') /\
      same_places places ns' /\
      at_index ns' t = Ok n /\
      min_cost es s t (GCost n) /\
      chain_cost ns' es s t (GCost n).
Proof.
  intros Hfuel [ct Hct]. induction rounds as [|rounds IH];
    intros ns h d p X O Hpl Hst Hho Htr R HtX Hrounds; [lia|].
  pose proof Hho as (Hwf & HNi & HO & Hsz).
  pose proof (same_places_Num _ _ Hpl) as HN.
  assert (Hsize : 0 <= Size h <= Num places).
  { pose proof (proj1 Hwf) as (Hsize & _). lia. }
  assert (Hpos : 0 < Size h).
  { destruct (decide (0 < Size h)) as [H|H]; [exact H|]. exfalso.
    assert (HOe : O ≡ ∅) by (apply size_empty_inv; lia).
    destruct (searched_path es s (Num places) heuristic consistent d p X O t ct R Hct)
      as [(y & Hy & _)|[HX _]]; [|contradiction].
    apply HOe in Hy. exact (not_elem_of_empty (C := gset Z) y Hy). }
  assert (Hfuel' : (Z.to_nat (Size h) <= fuel)%nat) by lia.
  destruct (RemoveFirst_spec fuel ns h Hwf Hpos Hfuel') as
    (a0 & n0 & ns1 & h1 & HR & H0 & Hsz1 & Hwf1 & HN1 & He1 & Hin1 & Hbeyond & Hlast).
  assert (Ha0 : a0 ∈ O).
  { apply HO. exists 0. split; [lia|apply H0]. }
  pose proof (sr_open_valid _ _ _ _ _ _ _ _ R a0 Ha0) as Hv0.
  assert (Ha0X : a0 ∉ X) by (intros H; eapply sr_disjoint; eauto).
  pose proof H0 as [_ Hn0].
  destruct (erase_at_index _ _ _ _ He1 Hn0) as (n1 & Hn1 & Hen1).
  assert (Hpl1 : same_places places ns1).
  { eapply same_places_trans; [exact Hpl|]. apply same_places_erase, He1. }
  pose proof (same_places_dense _ _ Hpl1 places_dense) as Hd1.
  assert (Hmin : forall y, y ∈ O -> d a0 + heuristic a0 <= d y + heuristic y).
  { intros y Hy. pose proof (sr_open_valid _ _ _ _ _ _ _ _ R y Hy) as Hvy.
    destruct (at_index_valid ns y ltac:(lia)) as [ny Hny].
    pose proof (heap_wf_root_min _ _ _ _ _ _ Hwf H0 (proj1 (HO y) Hy) Hny) as Hle.
    rewrite (stored_key ns d p (X ∪ O) a0 n0 Hst Hn0 ltac:(set_solver) Hv0
               (searched_open_bounds _ _ _ _ _ R Ha0)) in Hle.
    rewrite (stored_key ns d p (X ∪ O) y ny Hst Hny ltac:(set_solver) Hvy
               (searched_open_bounds _ _ _ _ _ R Hy)) in Hle.
    unfold key_le, key_lt in Hle. simpl in Hle. lia. }
  pose proof (searched_extract es s (Num places) heuristic edges_valid consistent
                d p X O a0 R Ha0 Hmin) as R1.
  assert (Hsets : ({[a0]} ∪ X) ∪ (O ∖ {[a0]}) = X ∪ O).
  { apply leibniz_equiv. intros x. destruct (decide (x = a0)); set_solver. }
  assert (Hst1 : stored ns1 d p (({[a0]} ∪ X) ∪ (O ∖ {[a0]}))).
  { rewrite Hsets. eapply stored_erase; eauto. }
  assert (Hho1 : heap_of ns1 h1 (O ∖ {[a0]})).
  { split_and!; auto; [congruence| |].
    - intros x. rewrite (Hin1 x), elem_of_difference, elem_of_singleton, (HO x). tauto.
    - pose proof (size_remove O a0 Ha0). lia. }
  assert (Htr1 : traces h1 (({[a0]} ∪ X) ∪ (O ∖ {[a0]}))).
  { rewrite Hsets. apply (traces_moved h h1 (Size h - 1)); auto.
    - intros x Hx. rewrite <- Hsz1 in Hx. apply Hin1 in Hx as [Hx _].
      apply elem_of_union_r, HO, Hx.
    - intros j Hj. destruct (decide (j = Size h - 1)) as [->|Hne]; [exact Hlast|].
      apply Hbeyond. lia. }
  cbn [FindPath_loop]. unfold IsNotEmpty. rewrite Z.gtb_ltb.
  destruct (Z.ltb_spec 0 (Size h)) as [_|]; [|lia].
  rewrite HR. simpl. rewrite Hn1. simpl. rewrite (Hd1 _ _ Hn1).
  destruct (Z.eqb_spec a0 t) as [->|Hne].
  - (* the target is extracted *)
    exists ns1, n1.
    destruct (Hst1 t n1 Hn1 ltac:(set_solver)) as (Hg & _ & _).
    pose proof (sg_tree _ _ _ _ _ _ _ _ _ _ R1 t ltac:(set_solver)) as Htree.
    rewrite Hg. split_and!; auto.
    + split; [eapply tree_path_cost, Htree|].
      intros c Hc. eapply sg_optimal; eauto. set_solver.
    + eapply (tree_chain_stored ns1 d p ({[t]} ∪ X)); [| |exact Htree].
      * intros v n Hv Hin. apply (Hst1 v n Hv). set_solver.
      * intros x Hx. rewrite (same_places_Num _ _ Hpl1).
        eapply sg_closed_valid; eauto.
  - destruct (at_index_valid es a0 ltac:(lia)) as [edges Hedges].
    rewrite Hedges. simpl.
    destruct (FindPath_edges_spec fuel ({[a0]} ∪ X) a0 Hfuel (NeighbouringEdges edges) []
                ns1 h1 d p (O ∖ {[a0]}) Hpl1 Hst1 Hho1 Htr1 R1) as
      (ns2 & h2 & d2 & p2 & O2 & HF & Hpl2 & Hst2 & Hho2 & Htr2 & R2).
    { intros e He. exists edges, e. auto. }
    rewrite HF. simpl.
    assert (HsX : (size X < Z.to_nat (Num places))%nat).
    { pose proof (size_bounded ({[a0]} ∪ X) (Num places)) as Hb.
      rewrite size_add in Hb by exact Ha0X.
      assert (Hall : forall x, x ∈ {[a0]} ∪ X -> 0 <= x < Num places)
        by (intros x Hx; eapply sg_closed_valid; eauto).
      specialize (Hb Hall). lia. }
    apply (IH ns2 h2 d2 p2 ({[a0]} ∪ X) O2); auto.
    + eapply searching_finish; [exact R2|].
      intros v w (eu & e & Heu & He & Hv & Hw). rewrite Hedges in Heu. inversion Heu.
      subst eu. exists e. rewrite app_nil_r, elem_of_reverse. auto.
    + set_solver.
    + rewrite size_add by exact Ha0X. lia.
Qed.

End PointToPointCorrect.

Section PointToPointTheorem.
Context {FVector2D : Type}.
Variable FloorDistance : FVector2D -> FVector2D -> Z.
Implicit Types (g : FBytesGraph FVector2D).

Lemma new_heap_traces (Capacity : Z) (A : gset Z) :
  traces (new_FBytesPathfindingHeap Capacity) A.
Proof.
  intros j v Hj. apply at_index_Ok in Hj as [_ Hj]. simpl in Hj.
  apply lookup_replicate in Hj as [Hj _]. discriminate.
Qed.

Lemma InitNodes_same_places g : same_places (Nodes g) (Nodes (InitNodes g)).
Proof.
  unfold same_places. simpl. rewrite map_map. reflexivity.
Qed.

(** C2 (amended). On a well-formed graph with non-negative weights and a
    consistent heuristic, where weights, heuristic costs and the minimal
    costs of the reachable nodes are small enough for the [int32] sums of
    the search ([D + W + Hm < 2^31]), [FindPath] from a valid start to a
    valid target that is reachable returns with the message that a path was
    found, for every sufficient fuel, and the cost stored in the target is
    the minimal cost of a path from the start, realised by the predecessor
    chain of the target. *)
Theorem FindPath_optimal g (StartID TargetID D W Hm : Z) (fuel : nat) :
  graph_wf g ->
  IsValidIndex (Nodes g) StartID = true ->
  IsValidIndex (Nodes g) TargetID = true ->
  weights_within (Edges g) W ->
  0 <= W ->
  (forall v, 0 <= v < Num (Nodes g) ->
     0 <= heuristic FloorDistance (Nodes g) TargetID v <= Hm) ->
  (forall u v w, edge (Edges g) u v w ->
     heuristic FloorDistance (Nodes g) TargetID u
     <= w + heuristic FloorDistance (Nodes g) TargetID v) ->
  (forall v c, path_cost (Edges g) StartID v c ->
     exists c', path_cost (Edges g) StartID v c' /\ c' <= D) ->
  D + W + Hm < 2 ^ 31 ->
  (exists c, path_cost (Edges g) StartID TargetID c) ->
  (Z.to_nat (Num (Nodes g)) < fuel)%nat ->
  exists g' n,
    FindPath FloorDistance fuel g StartID TargetID = Ok (PathFound, g') /\
    Edges g' = Edges g /\
    at_index (Nodes g') TargetID = Ok n /\
    min_cost (Edges g) StartID TargetID (GCost n) /\
    chain_cost (Nodes g') (Edges g) StartID TargetID (GCost n).
Proof.
  intros (Hcap & HNe & Hd & Hev) Hs Ht Hw HW Hhfit Hcons Hcosts Hfit Hreach Hfuel.
  apply IsValidIndex_true in Hs. apply IsValidIndex_true in Ht.
  set (places := Nodes g) in *. set (es := Edges g) in *.
  set (hh := heuristic FloorDistance places TargetID) in *.
  assert (Hedges : forall u v w, edge es u v w -> 0 <= v < Num places /\ 0 <= w).
  { intros u v w He. split; [eapply Hev, He|]. specialize (Hw u v w He). lia. }
  assert (Hwfit : forall u v w, edge es u v w -> w <= W).
  { intros u v w He. specialize (Hw u v w He). lia. }
  pose proof (InitNodes_same_places g) as Hpl0. fold places in Hpl0.
  set (ns0 := Nodes (InitNodes g)) in *.
  pose proof (same_places_Num _ _ Hpl0) as HN0.
  destruct (at_index_valid ns0 StartID ltac:(lia)) as [n0 Hn0].
  assert (Hp0 : ParentID n0 = -1).
  { unfold ns0 in Hn0. simpl in Hn0. rewrite at_index_map in Hn0.
    destruct (at_index (Nodes g) StartID); simpl in Hn0; [|discriminate].
    inversion Hn0. reflexivity. }
  destruct (update_at_valid ns0 StartID (set_GCost 0) n0 Hn0) as [ns1 U1].
  assert (Hn1 : at_index ns1 StartID = Ok (set_GCost 0 n0)).
  { rewrite (at_index_update_at _ _ _ _ StartID U1), decide_True, Hn0 by reflexivity.
    reflexivity. }
  assert (Hpl1 : same_places places ns1).
  { eapply same_places_trans; [exact Hpl0|].
    eapply same_places_update_at; [exact U1|reflexivity]. }
  destruct (update_at_valid ns1 StartID (set_HCost (hh StartID)) _ Hn1) as [ns2 U2].
  set (n2 := set_HCost (hh StartID) (set_GCost 0 n0)).
  assert (Hn2 : at_index ns2 StartID = Ok n2).
  { rewrite (at_index_update_at _ _ _ _ StartID U2), decide_True, Hn1 by reflexivity.
    reflexivity. }
  assert (Hpl2 : same_places places ns2).
  { eapply same_places_trans; [exact Hpl1|].
    eapply same_places_update_at; [exact U2|reflexivity]. }
  pose proof (same_places_Num _ _ Hpl2) as HN2.
  destruct (new_heap_wf ns2 (Num places)) as (Hwf0 & HNh & Hempty);
    [unfold Num in *; lia|].
  assert (Hroom : Size (new_FBytesPathfindingHeap (Num places))
                  < Num (Items (new_FBytesPathfindingHeap (Num places)))).
  { rewrite HNh. simpl. lia. }
  assert (Hfuel' : (Z.to_nat (Size (new_FBytesPathfindingHeap (Num places))) < fuel)%nat).
  { simpl. lia. }
  destruct (Add_spec fuel ns2 (new_FBytesPathfindingHeap (Num places)) StartID n2
              Hwf0 Hroom Hn2 (Hempty StartID) Hfuel') as
    (ns3 & h3 & HA & Hsz3 & Hwf3 & HN3 & He3 & Hin3 & Hbeyond3).
  simpl in Hsz3.
  assert (Hpl3 : same_places places ns3).
  { eapply same_places_trans; [exact Hpl2|]. apply same_places_erase, He3. }
  assert (Hst3 : stored FloorDistance places TargetID ns3 (fun _ => 0) (fun _ => -1)
                   (∅ ∪ {[StartID]})).
  { eapply stored_erase; [exact He3|]. intros v n Hv Hin.
    assert (v = StartID) by set_solver. subst v.
    rewrite Hn2 in Hv. inversion Hv. subst n. unfold n2. simpl. auto. }
  assert (Hho3 : heap_of places ns3 h3 {[StartID]}).
  { split_and!; auto; [congruence| |rewrite size_singleton; lia].
    intros x. rewrite (Hin3 x), elem_of_singleton. split; [auto|].
    intros [Hx|Hx]; [destruct (Hempty x Hx)|exact Hx]. }
  assert (Htr3 : traces h3 (∅ ∪ {[StartID]})).
  { apply (traces_moved (new_FBytesPathfindingHeap (Num places)) h3 (Size h3)).
    - apply new_heap_traces.
    - intros x Hx. apply Hin3 in Hx as [Hx| ->]; [destruct (Hempty x Hx)|set_solver].
    - intros j Hj. apply Hbeyond3. simpl. lia. }
  assert (R0 : searched es StartID (Num places) hh (fun _ => 0) (fun _ => -1)
                 ∅ {[StartID]}).
  { apply searched_initial; auto. }
  assert (Hfuel'' : (Z.to_nat (Num places) <= fuel)%nat) by lia.
  assert (Hrounds : (Z.to_nat (Num places) - size (∅ : gset Z) < fuel)%nat).
  { rewrite size_empty. lia. }
  destruct (FindPath_loop_spec FloorDistance es places StartID TargetID D W Hm
              Hd Ht Hcap HNe Hedges Hwfit HW Hhfit Hcons Hcosts Hfit fuel Hfuel'' Hreach
              fuel ns3 h3 (fun _ => 0) (fun _ => -1) ∅ {[StartID]}
              Hpl3 Hst3 Hho3 Htr3 R0 ltac:(set_solver) Hrounds) as
    (ns4 & n4 & HL & Hpl4 & Hn4 & Hmin & Hchain).
  exists (with_Nodes ns4 (InitNodes g)), n4. split.
  { unfold FindPath. fold ns0. rewrite U1. simpl.
    rewrite (heuristic_calc FloorDistance places TargetID Ht ns1 StartID Hpl1 Hs).
    simpl. fold hh. rewrite U2. simpl. rewrite HN0. rewrite HA. simpl.
    fold es. rewrite HL. reflexivity. }
  split_and!; auto.
Qed.

End PointToPointTheorem.

(** The line [0 - 1 - 2] with both weights [2^30]; all nodes share one
    position, so that every heuristic cost is 0. *)
Definition steep3 : FBytesGraph unit :=
  mkGraph [node1 0 (-1) 0 0 0; node1 1 (-1) 0 0 0; node1 2 (-1) 0 0 0]
          [mkEdges [mkEdge 1 1073741824];
           mkEdges [mkEdge 0 1073741824; mkEdge 2 1073741824];
           mkEdges [mkEdge 1 1073741824]]
          Distance2D.

Lemma steep3_edges (u v w : Z) :
  edge (Edges steep3) u v w ->
  w = 1073741824 /\ ((u = 0 /\ v = 1) \/ (u = 1 /\ v = 0) \/ (u = 1 /\ v = 2) \/
                      (u = 2 /\ v = 1)).
Proof.
  intros (eu & e & Hu & He & <- & <-). simpl in Hu.
  at_index_inv Hu; simpl in He;
    repeat (apply elem_of_cons in He as [->|He]; [simpl; lia|]); inversion He.
Qed.

Lemma steep3_paths (v c : Z) :
  path_cost (Edges steep3) 0 v c ->
  (v = 0 /\ 0 <= c) \/ (v = 1 /\ 1073741824 <= c) \/ (v = 2 /\ 2147483648 <= c).
Proof.
  induction 1 as [|u v w c _ IH He]; [left; lia|].
  apply steep3_edges in He. lia.
Qed.

Lemma steep3_min_cost : min_cost (Edges steep3) 0 2 2147483648.
Proof.
  split.
  - apply (path_snoc (Edges steep3) 0 1 2 1073741824 1073741824).
    + apply (path_snoc (Edges steep3) 0 0 1 1073741824 0); [constructor|].
      exists (mkEdges [mkEdge 1 1073741824]), (mkEdge 1 1073741824).
      split_and!; auto. apply list_elem_of_singleton. reflexivity.
    + exists (mkEdges [mkEdge 0 1073741824; mkEdge 2 1073741824]), (mkEdge 2 1073741824).
      split_and!; auto. set_solver.
  - intros c Hc. apply steep3_paths in Hc. lia.
Qed.

(** C2, as stated, fails on [steep3]: the weights are non-negative
    [int32] values, the heuristic is 0 everywhere and so consistent, start 0
    and target 2 are valid and the target is reachable at the minimal cost
    [2^31]; the search reports a path, but the sum of the two weights wraps
    around and the target is left with the cost [-2^31]. *)
Lemma FindPath_overflow_counterexample :
  graph_wf steep3 /\
  (forall u v w, edge (Edges steep3) u v w -> 0 <= w < 2 ^ 31) /\
  (forall u v w, edge (Edges steep3) u v w ->
     heuristic zero_distance (Nodes steep3) 2 u
     <= w + heuristic zero_distance (Nodes steep3) 2 v) /\
  IsValidIndex (Nodes steep3) 0 = true /\
  IsValidIndex (Nodes steep3) 2 = true /\
  min_cost (Edges steep3) 0 2 2147483648 /\
  exists g' n,
    FindPath zero_distance 4 steep3 0 2 = Ok (PathFound, g') /\
    at_index (Nodes g') 2 = Ok n /\
    GCost n = -2147483648 /\ GCost n <> 2147483648.
Proof.
  split_and!.
  - split_and!.
    + unfold Num. simpl. lia.
    + reflexivity.
    + intros i n H. simpl in H. at_index_inv H; simpl; lia.
    + intros u v w H. apply steep3_edges in H. unfold Num. simpl. lia.
  - intros u v w H. apply steep3_edges in H. lia.
  - intros u v w H. apply steep3_edges in H.
    destruct H as [-> [[-> ->]|[[-> ->]|[[-> ->]|[-> ->]]]]]; vm_compute; discriminate.
  - reflexivity.
  - reflexivity.
  - exact steep3_min_cost.
  - eexists _, _. split; [vm_compute; reflexivity|].
    split; [vm_compute; reflexivity|]. simpl. split; [reflexivity|discriminate].
Qed.

Lemma line3_reset_steps (u v w : Z) :
  edge (Edges line3_reset) u v w -> 0 <= u < 3 /\ 0 <= v < 3.
Proof.
  intros (eu & e & Hu & He & <- & <-). simpl in Hu.
  at_index_inv Hu; simpl in He;
    repeat (apply elem_of_cons in He as [->|He]; [simpl; lia|]); inversion He.
Qed.

Lemma line3_reset_costs (v c : Z) :
  path_cost (Edges line3_reset) 0 v c ->
  exists c', path_cost (Edges line3_reset) 0 v c' /\ c' <= 6.
Proof.
  intros H.
  assert (P1 : path_cost (Edges line3_reset) 0 1 1).
  { apply (path_snoc (Edges line3_reset) 0 0 1 1 0); [constructor|].
    exists (mkEdges [mkEdge 1 1]), (mkEdge 1 1).
    split_and!; auto. apply list_elem_of_singleton. reflexivity. }
  assert (P2 : path_cost (Edges line3_reset) 0 2 6).
  { apply (path_snoc (Edges line3_reset) 0 1 2 5 1); [exact P1|].
    exists (mkEdges [mkEdge 2 5; mkEdge 0 1]), (mkEdge 2 5).
    split_and!; auto. set_solver. }
  assert (Hv : v = 0 \/ v = 1 \/ v = 2).
  { destruct H as [|u v w c _ He]; [auto|]. apply line3_reset_steps in He. lia. }
  destruct Hv as [->|[->| ->]].
  - exists 0. split; [constructor|lia].
  - exists 1. split; [exact P1|lia].
  - exists 6. split; [exact P2|lia].
Qed.

Lemma FindPath_optimal_witness :
  exists g' n,
    FindPath zero_distance 5 line3_reset 0 2 = Ok (PathFound, g') /\
    Edges g' = Edges line3_reset /\
    at_index (Nodes g') 2 = Ok n /\
    min_cost (Edges line3_reset) 0 2 (GCost n) /\
    chain_cost (Nodes g') (Edges line3_reset) 0 2 (GCost n).
Proof.
  apply (FindPath_optimal zero_distance line3_reset 0 2 6 5 0 5).
  - split_and!.
    + unfold Num. simpl. lia.
    + reflexivity.
    + intros i n H. simpl in H. at_index_inv H; simpl; lia.
    + intros u v w H. apply line3_reset_edges in H. unfold Num. simpl. lia.
  - reflexivity.
  - reflexivity.
  - intros u v w H. apply line3_reset_edges in H. lia.
  - lia.
  - intros v Hv. unfold Num in Hv. simpl in Hv.
    assert (v = 0 \/ v = 1 \/ v = 2 \/ v = 3) as [->|[->|[->| ->]]] by lia;
      vm_compute; split; discriminate.
  - intros u v w H. pose proof (line3_reset_edges u v w H) as Hw.
    apply line3_reset_steps in H.
    assert (u = 0 \/ u = 1 \/ u = 2) as [->|[->| ->]] by lia;
      (assert (v = 0 \/ v = 1 \/ v = 2) as [->|[->| ->]] by lia);
      change (0 <= w + 0); lia.
  - exact line3_reset_costs.
  - lia.
  - exists 6. apply (path_snoc (Edges line3_reset) 0 1 2 5 1).
    + apply (path_snoc (Edges line3_reset) 0 0 1 1 0); [constructor|].
      exists (mkEdges [mkEdge 1 1]), (mkEdge 1 1).
      split_and!; auto. apply list_elem_of_singleton. reflexivity.
    + exists (mkEdges [mkEdge 2 5; mkEdge 0 1]), (mkEdge 2 5).
      split_and!; auto. set_solver.
  - unfold Num. simpl. lia.
Defined.

(** * Further properties of the heap *)

Section HeapFrames.
Context {FVector2D : Type}.
Implicit Types (ns : list (FBytesNode FVector2D)) (items : list ptr).
Implicit Types (h : FBytesPathfindingHeap) (n : FBytesNode FVector2D).

Lemma assign_HeapIndex_erase ns P (v : Z) ns' :
  assign ns P (set_HeapIndex v) = Ok ns' -> erase ns' = erase ns.
Proof.
  destruct P as [a|]; simpl; [|discriminate]. intros H.
  eapply erase_update_at; [exact H|]. intros n. reflexivity.
Qed.

Lemma Swap_frame ns h X Y ns' h' :
  Swap ns h X Y = Ok (ns', h') ->
  erase ns' = erase ns /\ Num (Items h') = Num (Items h) /\ Size h' = Size h.
Proof.
  unfold Swap. intros H.
  apply bind_Ok in H as (x & _ & H). apply bind_Ok in H as (items1 & H1 & H).
  apply bind_Ok in H as (y & _ & H). apply bind_Ok in H as (items2 & H2 & H).
  apply bind_Ok in H as (ns1 & A1 & H). apply bind_Ok in H as (ns2 & A2 & H).
  inversion H. subst. simpl.
  apply assign_HeapIndex_erase in A1, A2. apply set_index_Num in H1, H2.
  split_and!; congruence.
Qed.

Lemma SortUp_frame (fuel : nat) :
  forall ns h P ns' h',
    SortUp fuel ns h P = Ok (ns', h') ->
    erase ns' = erase ns /\ Num (Items h') = Num (Items h) /\ Size h' = Size h.
Proof.
  induction fuel as [|fuel IH]; intros ns h P ns' h'; simpl; [discriminate|].
  intros H. apply bind_Ok in H as (n & _ & H). apply bind_Ok in H as (Parent & _ & H).
  apply bind_Ok in H as (p & _ & H). destruct (cost_lt n p).
  - apply bind_Ok in H as ([ns1 h1] & HS & H). apply Swap_frame in HS as (A & B & C).
    apply IH in H as (A' & B' & C'). split_and!; congruence.
  - inversion H. subst. auto.
Qed.

Lemma SortDown_frame (fuel : nat) :
  forall ns h P ns' h',
    SortDown fuel ns h P = Ok (ns', h') ->
    erase ns' = erase ns /\ Num (Items h') = Num (Items h) /\ Size h' = Size h.
Proof.
  induction fuel as [|fuel IH]; intros ns h P ns' h'; simpl; [discriminate|].
  intros H. apply bind_Ok in H as (n & _ & H).
  destruct (GetLeftChild (HeapIndex n) <? Size h); [|inversion H; subst; auto].
  apply bind_Ok in H as (SwapIndex & _ & H). apply bind_Ok in H as (ItemToSwap & _ & H).
  apply bind_Ok in H as (s & _ & H). destruct (cost_gt n s).
  - apply bind_Ok in H as ([ns1 h1] & HS & H). apply Swap_frame in HS as (A & B & C).
    apply IH in H as (A' & B' & C'). split_and!; congruence.
  - inversion H. subst. auto.
Qed.

Lemma Add_frame (fuel : nat) ns h P ns' h' :
  Add fuel ns h P = Ok (ns', h') ->
  erase ns' = erase ns /\ Num (Items h') = Num (Items h) /\
  Size h' = add32 (Size h) 1.
Proof.
  unfold Add. intros H. apply bind_Ok in H as (ns1 & A1 & H).
  apply bind_Ok in H as (items1 & H1 & H). apply bind_Ok in H as ([ns2 h2] & HS & H).
  inversion H. subst. simpl. apply SortUp_frame in HS as (A & B & C). simpl in *.
  apply assign_HeapIndex_erase in A1. apply set_index_Num in H1.
  split_and!; congruence.
Qed.

Lemma RemoveFirst_frame (fuel : nat) ns h P ns' h' :
  RemoveFirst fuel ns h = Ok (P, ns', h') ->
  erase ns' = erase ns /\ Num (Items h') = Num (Items h) /\
  Size h' = sub32 (Size h) 1 /\ at_index (Items h) 0 = Ok P.
Proof.
  unfold RemoveFirst. intros H. apply bind_Ok in H as (First & HF & H).
  apply bind_Ok in H as (Last & _ & H). apply bind_Ok in H as (items1 & H1 & H).
  apply bind_Ok in H as (Root & _ & H). apply bind_Ok in H as (ns1 & A1 & H).
  apply bind_Ok in H as ([ns2 h2] & HS & H). inversion H. subst.
  apply SortDown_frame in HS as (A & B & C). simpl in *.
  apply assign_HeapIndex_erase in A1. apply set_index_Num in H1.
  split_and!; congruence.
Qed.

(** X1. Whenever [Add], [RemoveFirst] or [UpdateItem] returns, whatever the
    state of the heap was, the node array differs from the one before at
    most in [HeapIndex] fields, and the capacity of the heap is the same;
    the size has grown by one, shrunk by one, or is the same. *)
Theorem heap_operations_keep_nodes (fuel : nat) ns h P :
  match Add fuel ns h P with
  | Ok (ns', h') =>
    erase ns' = erase ns /\ Num (Items h') = Num (Items h) /\
    Size h' = add32 (Size h) 1
  | Fail _ => True
  end /\
  match RemoveFirst fuel ns h with
  | Ok (First, ns', h') =>
    erase ns' = erase ns /\ Num (Items h') = Num (Items h) /\
    Size h' = sub32 (Size h) 1 /\ at_index (Items h) 0 = Ok First
  | Fail _ => True
  end /\
  match UpdateItem fuel ns h P with
  | Ok (ns', h') =>
    erase ns' = erase ns /\ Num (Items h') = Num (Items h) /\ Size h' = Size h
  | Fail _ => True
  end.
Proof.
  split_and!.
  - destruct (Add fuel ns h P) as [[ns' h']|] eqn:E; [|exact I].
    eapply Add_frame, E.
  - destruct (RemoveFirst fuel ns h) as [[[First ns'] h']|] eqn:E; [|exact I].
    eapply RemoveFirst_frame, E.
  - destruct (UpdateItem fuel ns h P) as [[ns' h']|] eqn:E; [|exact I].
    eapply SortUp_frame, E.
Qed.

(** X2. [RemoveFirst] on an empty heap reads outside the array: slot 0 when
    the capacity is 0, and slot -1 otherwise, because the size is
    decremented before the last entry is read. *)
Theorem RemoveFirst_empty_faults (fuel : nat) ns h :
  Size h = 0 ->
  RemoveFirst fuel ns h = Fail (OutOfRange (if decide (Items h = []) then 0 else -1)).
Proof.
  intros Hs. unfold RemoveFirst. rewrite Hs.
  destruct (Items h) as [|P items] eqn:E.
  - reflexivity.
  - rewrite decide_False by discriminate. reflexivity.
Qed.

(** X3. [Add] on a heap whose size equals its capacity writes outside the
    array, at the slot after the last one. *)
Theorem Add_full_faults (fuel : nat) ns h (a : Z) n :
  at_index ns a = Ok n ->
  Size h = Num (Items h) ->
  Add fuel ns h (Some a) = Fail (OutOfRange (Size h)).
Proof.
  intros Hn Hs. unfold Add. simpl.
  destruct (update_at_valid ns a (set_HeapIndex (Size h)) n Hn) as [ns1 U1].
  rewrite U1. simpl. unfold set_index.
  replace (IsValidIndex (Items h) (Size h)) with false; [reflexivity|].
  symmetry. apply IsValidIndex_false. lia.
Qed.

End HeapFrames.

(** X4. Within the slot range of a heap of at most [2^30] entries, the
    parent of either child of a slot is the slot itself and the children
    are below it; the parent of the root is the root, since the division
    truncates towards zero. *)
Theorem GetParent_of_children (i : Z) :
  0 <= i < 2 ^ 30 - 1 ->
  GetParent (GetLeftChild i) = i /\ GetParent (GetRightChild i) = i /\
  i < GetLeftChild i < GetRightChild i /\ GetParent 0 = 0.
Proof.
  intros Hi. rewrite GetLeftChild_eq, GetRightChild_eq by lia.
  rewrite !GetParent_up by lia. unfold up. split_and!; try lia.
  - symmetry. apply Z.div_unique with (r := 0); lia.
  - symmetry. apply Z.div_unique with (r := 1); lia.
  - exact GetParent_root.
Qed.

Section HeapContract.
Context {FVector2D : Type}.
Implicit Types (ns : list (FBytesNode FVector2D)) (items : list ptr).
Implicit Types (h : FBytesPathfindingHeap) (n : FBytesNode FVector2D).



(** X7. On a reached heap with a free slot, [Add] of a node that is not in
    the heap returns for every sufficient fuel; the heap then holds the
    nodes it held and the new one, whose [HeapIndex] is the slot that
    points to it. *)
Theorem Add_inserts (Capacity : Z) ns h (a : Z) n (fuel : nat) :
  0 <= Capacity <= 2 ^ 30 ->
  heap_reachable Capacity ns h ->
  Size h < Capacity ->
  at_index ns a = Ok n ->
  ~ in_slots (Items h) (Size h) a ->
  (Z.to_nat (Size h) < fuel)%nat ->
  exists ns' h' n',
    Add fuel ns h (Some a) = Ok (ns', h') /\
    Size h' = Size h + 1 /\
    (forall x, in_slots (Items h') (Size h') x <->
               in_slots (Items h) (Size h) x \/ x = a) /\
    at_index ns' a = Ok n' /\ 0 <= HeapIndex n' < Size h' /\
    at_index (Items h') (HeapIndex n') = Ok (Some a).
Proof.
  intros HC Hr Hroom Hn Hfresh Hfuel.
  destruct (heap_reachable_wf _ _ _ HC Hr) as [Hwf HN].
  destruct (Add_spec fuel ns h a n Hwf ltac:(lia) Hn Hfresh Hfuel) as
    (ns' & h' & HA & Hsz & [HL' _] & _ & _ & Hin & _).
  destruct (in_slots_holds ns' (Items h') (Size h') a HL') as (n' & Hn' & Hi & [Hs _]).
  { apply Hin. right. reflexivity. }
  exists ns', h', n'. split_and!; auto; lia.
Qed.

End HeapContract.

Lemma two_nodes_heap_wf : heap_wf two_nodes_added two_nodes_heap.
Proof. apply (heap_reachable_wf 2); [lia|exact two_nodes_reachable]. Qed.

Lemma RemoveFirst_empty_faults_witness :
  RemoveFirst 2 two_nodes (new_FBytesPathfindingHeap 2) = Fail (OutOfRange (-1)).
Proof.
  apply (RemoveFirst_empty_faults 2 two_nodes (new_FBytesPathfindingHeap 2)).
  reflexivity.
Defined.

Lemma Add_full_faults_witness :
  Add 2 two_nodes_added two_nodes_heap (Some 0) = Fail (OutOfRange 2).
Proof.
  apply (Add_full_faults 2 two_nodes_added two_nodes_heap 0 (node1 0 (-1) 5 0 1));
    reflexivity.
Defined.

Lemma GetParent_of_children_witness :
  GetParent (GetLeftChild 3) = 3 /\ GetParent (GetRightChild 3) = 3 /\
  3 < GetLeftChild 3 < GetRightChild 3 /\ GetParent 0 = 0.
Proof. apply (GetParent_of_children 3). lia. Defined.



Lemma Add_inserts_witness :
  exists ns' h' n',
    Add 2 two_nodes (new_FBytesPathfindingHeap 2) (Some 0) = Ok (ns', h') /\
    Size h' = Size (new_FBytesPathfindingHeap 2) + 1 /\
    (forall x, in_slots (Items h') (Size h') x <->
               in_slots (Items (new_FBytesPathfindingHeap 2))
                        (Size (new_FBytesPathfindingHeap 2)) x \/ x = 0) /\
    at_index ns' 0 = Ok n' /\ 0 <= HeapIndex n' < Size h' /\
    at_index (Items h') (HeapIndex n') = Ok (Some 0).
Proof.
  apply (Add_inserts 2 two_nodes (new_FBytesPathfindingHeap 2) 0 (node1 0 (-1) 5 0 0) 2).
  - lia.
  - apply reach_new.
  - simpl. lia.
  - reflexivity.
  - intros (j & Hj & _). simpl in Hj. lia.
  - simpl. lia.
Defined.

(** * Graphs built through the interface *)

(** Every edge has its reverse, with the same weight. *)
Definition undirected (es : list FBytesEdges) : Prop :=
  forall u v w, edge es u v w -> edge es v u w.

(** All entries from one node to another carry one weight. *)
Definition single_weight (es : list FBytesEdges) : Prop :=
  forall u v w w', edge es u v w -> edge es u v w' -> w = w'.

Section EdgeUpdates.
Implicit Types (es : list FBytesEdges) (eu : FBytesEdges) (e x : FBytesEdge).

Lemma edge_update_at es (i : Z) (f : FBytesEdges -> FBytesEdges) es' (u v w : Z) :
  update_at es i f = Ok es' ->
  (edge es' u v w <->
   exists eu e, at_index es u = Ok eu /\
     e ∈ NeighbouringEdges (if decide (u = i) then f eu else eu) /\
     Edge_NodeID e = v /\ Weight e = w).
Proof.
  intros U. unfold edge. split.
  - intros (eu' & e & Hu & He & Hv & Hw).
    rewrite (at_index_update_at _ _ _ _ u U) in Hu.
    destruct (decide (u = i)) as [->|Hne].
    + destruct (at_index es i) as [eu|] eqn:E; simpl in Hu; [|discriminate].
      inversion Hu. subst eu'. exists eu, e. auto.
    + exists eu', e. auto.
  - intros (eu & e & Hu & He & Hv & Hw).
    exists (if decide (u = i) then f eu else eu), e. split_and!; auto.
    rewrite (at_index_update_at _ _ _ _ u U).
    destruct (decide (u = i)) as [->|Hne]; [rewrite Hu; reflexivity|exact Hu].
Qed.

Lemma edge_append es (i : Z) x es' (u v w : Z) :
  update_at es i (append_edge x) = Ok es' ->
  (edge es' u v w <->
   edge es u v w \/ (u = i /\ v = Edge_NodeID x /\ w = Weight x)).
Proof.
  intros U. rewrite (edge_update_at _ _ _ _ u v w U). unfold edge. split.
  - intros (eu & e & Hu & He & Hv & Hw). destruct (decide (u = i)) as [->|Hne].
    + simpl in He. apply elem_of_app in He as [He|He].
      * left. exists eu, e. auto.
      * apply list_elem_of_singleton in He. subst e. right. auto.
    + left. exists eu, e. auto.
  - intros [(eu & e & Hu & He & Hv & Hw)|(-> & -> & ->)].
    + exists eu, e. split_and!; auto. destruct (decide (u = i)); [|exact He].
      simpl. apply elem_of_app. left. exact He.
    + apply update_at_Ok in U as (eu & Hu & _). exists eu, x. split_and!; auto.
      rewrite decide_True by reflexivity. simpl. apply elem_of_app. right.
      apply list_elem_of_singleton. reflexivity.
Qed.

Lemma edge_overwrite es (i T W : Z) es' (u v w : Z) :
  update_at es i (overwrite_weight T W) = Ok es' ->
  (edge es' u v w <->
   (~ (u = i /\ v = T) /\ edge es u v w) \/
   (u = i /\ v = T /\ w = W /\ exists w0, edge es i T w0)).
Proof.
  intros U. rewrite (edge_update_at _ _ _ _ u v w U). unfold edge. split.
  - intros (eu & e & Hu & He & Hv & Hw). destruct (decide (u = i)) as [->|Hne].
    + simpl in He. apply list_elem_of_fmap in He as (e0 & -> & He0).
      destruct (Z.eqb_spec (Edge_NodeID e0) T) as [Heq|Hneq]; simpl in *.
      * right. subst. split_and!; auto. exists (Weight e0), eu, e0. auto.
      * left. split; [intros [_ Hv']; congruence|]. exists eu, e0. auto.
    + left. split; [intros [Hu' _]; congruence|]. exists eu, e. auto.
  - intros [(Hnot & eu & e & Hu & He & Hv & Hw)|(-> & -> & -> & w0 & eu & e & Hu & He & Hv & _)].
    + exists eu, e. split_and!; auto. destruct (decide (u = i)) as [->|Hne]; [|exact He].
      simpl. apply list_elem_of_fmap. exists e. split; [|exact He].
      destruct (Z.eqb_spec (Edge_NodeID e) T) as [Heq|Hneq]; [|reflexivity].
      exfalso. apply Hnot. split; congruence.
    + exists eu, (mkEdge T W). split_and!; auto.
      rewrite decide_True by reflexivity. simpl. apply list_elem_of_fmap.
      exists e. split; [|exact He]. rewrite Hv, Z.eqb_refl. reflexivity.
Qed.

Lemma existsb_edge es (a b : Z) eu :
  at_index es a = Ok eu ->
  (existsb (fun Edge => Edge_NodeID Edge =? b) (NeighbouringEdges eu) = true <->
   exists w0, edge es a b w0).
Proof.
  intros Ha. rewrite existsb_exists. split.
  - intros (e & He & Hb). apply Z.eqb_eq in Hb. apply list_elem_of_In in He.
    exists (Weight e), eu, e. auto.
  - intros (w0 & eu' & e & Hu & He & Hv & _). rewrite Ha in Hu. inversion Hu. subst eu'.
    exists e. split; [apply list_elem_of_In, He|apply Z.eqb_eq, Hv].
Qed.

End EdgeUpdates.

Section Construction.
Context {FVector2D : Type}.
Implicit Types (g : FBytesGraph FVector2D) (es : list FBytesEdges).

(** What [AddOrSetEdge] does to the edges, case by case. *)
Lemma AddOrSetEdge_edges g (a b W : Z) :
  Num (Edges g) = Num (Nodes g) ->
  0 <= a < Num (Nodes g) -> 0 <= b < Num (Nodes g) ->
  exists g',
    AddOrSetEdge g a b W = Ok g' /\
    Nodes g' = Nodes g /\ GraphType g' = GraphType g /\
    Num (Edges g') = Num (Edges g) /\
    (((exists w0, edge (Edges g) a b w0) /\
      forall u v w, edge (Edges g') u v w <->
        (~ (u = b /\ v = a) /\
         ((~ (u = a /\ v = b) /\ edge (Edges g) u v w) \/ (u = a /\ v = b /\ w = W))) \/
        (u = b /\ v = a /\ w = W /\ (a = b \/ exists w0, edge (Edges g) b a w0))) \/
     (~ (exists w0, edge (Edges g) a b w0) /\
      forall u v w, edge (Edges g') u v w <->
        edge (Edges g) u v w \/ (u = a /\ v = b /\ w = W) \/ (u = b /\ v = a /\ w = W))).
Proof.
  intros HNe Ha Hb. unfold AddOrSetEdge.
  rewrite (proj2 (IsValidIndex_true _ _) Ha), (proj2 (IsValidIndex_true _ _) Hb). simpl.
  destruct (at_index_valid (Edges g) a ltac:(lia)) as [ea Hea].
  destruct (at_index_valid (Edges g) b ltac:(lia)) as [eb Heb].
  rewrite Hea. simpl.
  pose proof (existsb_edge (Edges g) a b ea Hea) as Hex.
  destruct (existsb _ (NeighbouringEdges ea)) eqn:E.
  - assert (Hab : exists w0, edge (Edges g) a b w0) by (apply Hex; reflexivity).
    destruct (update_at_valid (Edges g) a (overwrite_weight b W) ea Hea) as [es1 U1].
    assert (Heb1 : exists eb1, at_index es1 b = Ok eb1).
    { apply at_index_valid. rewrite (update_at_Num _ _ _ _ U1). lia. }
    destruct Heb1 as [eb1 Heb1].
    destruct (update_at_valid es1 b (overwrite_weight a W) eb1 Heb1) as [es2 U2].
    rewrite U1. simpl. rewrite U2. simpl.
    exists (with_Edges es2 g). split_and!; auto.
    { simpl. rewrite (update_at_Num _ _ _ _ U2), (update_at_Num _ _ _ _ U1). reflexivity. }
    left. split; [exact Hab|]. intros u v w. simpl.
    rewrite (edge_overwrite _ _ _ _ _ u v w U2).
    rewrite (edge_overwrite _ _ _ _ _ u v w U1).
    assert (Hba : (exists w0, edge es1 b a w0) <->
                  (a = b \/ exists w0, edge (Edges g) b a w0)).
    { split.
      - intros (w0 & H0). apply (edge_overwrite _ _ _ _ _ b a w0 U1) in H0.
        destruct H0 as [[_ H0]|(-> & _)]; [right; eauto|left; reflexivity].
      - intros [->|(w0 & H0)].
        + exists W. apply (edge_overwrite _ _ _ _ _ b b W U1). right. auto.
        + destruct (decide (b = a /\ a = b)) as [[-> _]|Hne].
          * exists W. apply (edge_overwrite _ _ _ _ _ a a W U1). right. auto.
          * exists w0. apply (edge_overwrite _ _ _ _ _ b a w0 U1). left. auto. }
    rewrite Hba. split.
    + intros [[H1 [H2|(-> & -> & -> & _)]]|H3]; [left|left|right]; auto.
    + intros [[H1 [H2|(-> & -> & ->)]]|H3]; [left|left|right]; auto.
      split; [exact H1|]. right. auto.
  - assert (Hab : ~ exists w0, edge (Edges g) a b w0).
    { intros H. apply Hex in H. discriminate. }
    destruct (update_at_valid (Edges g) a (append_edge (mkEdge b W)) ea Hea) as [es1 U1].
    assert (Heb1 : exists eb1, at_index es1 b = Ok eb1).
    { apply at_index_valid. rewrite (update_at_Num _ _ _ _ U1). lia. }
    destruct Heb1 as [eb1 Heb1].
    destruct (update_at_valid es1 b (append_edge (mkEdge a W)) eb1 Heb1) as [es2 U2].
    rewrite U1. simpl. rewrite U2. simpl.
    exists (with_Edges es2 g). split_and!; auto.
    { simpl. rewrite (update_at_Num _ _ _ _ U2), (update_at_Num _ _ _ _ U1). reflexivity. }
    right. split; [exact Hab|]. intros u v w. simpl.
    rewrite (edge_append _ _ _ _ u v w U2), (edge_append _ _ _ _ u v w U1). simpl. tauto.
Qed.

Lemma AddOrSetEdge_invalid g (a b W : Z) :
  ~ (0 <= a < Num (Nodes g) /\ 0 <= b < Num (Nodes g)) ->
  AddOrSetEdge g a b W = Ok g.
Proof.
  intros H. unfold AddOrSetEdge.
  destruct (IsValidIndex (Nodes g) a) eqn:Ea; [|reflexivity].
  destruct (IsValidIndex (Nodes g) b) eqn:Eb; [|reflexivity].
  apply IsValidIndex_true in Ea, Eb. tauto.
Qed.

(** On an undirected graph the call leaves one weight on the pair. *)
Lemma AddOrSetEdge_pair g (a b W : Z) :
  Num (Edges g) = Num (Nodes g) ->
  undirected (Edges g) ->
  0 <= a < Num (Nodes g) -> 0 <= b < Num (Nodes g) ->
  exists g',
    AddOrSetEdge g a b W = Ok g' /\
    Nodes g' = Nodes g /\ GraphType g' = GraphType g /\
    Num (Edges g') = Num (Edges g) /\
    forall u v w, edge (Edges g') u v w <->
      (((u = a /\ v = b) \/ (u = b /\ v = a)) /\ w = W) \/
      (~ ((u = a /\ v = b) \/ (u = b /\ v = a)) /\ edge (Edges g) u v w).
Proof.
  intros HNe Hun Ha Hb.
  destruct (AddOrSetEdge_edges g a b W HNe Ha Hb) as
    (g' & HA & H1 & H2 & H3 & [[(w0 & Hab) Hch]|[Hab Hch]]);
    exists g'; split_and!; auto; intros u v w; rewrite Hch.
  - pose proof (Hun _ _ _ Hab) as Hba. split.
    + intros [[Hn [[Hn' He]|(-> & -> & ->)]]|(-> & -> & -> & _)]; [right|left|left]; tauto.
    + intros [[[[-> ->]|[-> ->]] ->]|[Hn He]].
      * destruct (decide (a = b)) as [->|Hne]; [right; eauto 10|left].
        split; [tauto|]. right. auto.
      * right. eauto 10.
      * left. split; [tauto|]. left. split; [tauto|exact He].
  - split.
    + intros [He|[(-> & -> & ->)|(-> & -> & ->)]]; [|left; tauto..].
      right. split; [|exact He]. intros [[-> ->]|[-> ->]].
      * apply Hab. eauto.
      * apply Hab. exists w. apply Hun, He.
    + intros [[[[-> ->]|[-> ->]] ->]|[Hn He]]; tauto.
Qed.

Lemma at_index_app_one {A : Type} (l : list A) (x : A) (i : Z) :
  at_index (l ++ [x]) i = if decide (i = Num l) then Ok x else at_index l i.
Proof.
  destruct (Z_lt_dec i 0) as [Hneg|Hpos].
  { rewrite decide_False by (unfold Num; lia). rewrite !at_index_negative by lia.
    reflexivity. }
  unfold at_index, IsValidIndex, Num. rewrite length_app. simpl.
  destruct (decide (i = Z.of_nat (length l))) as [->|Hne].
  - replace ((0 <=? Z.of_nat (length l)) &&
             (Z.of_nat (length l) <? Z.of_nat (length l + 1))) with true
      by (symmetry; apply andb_true_iff; rewrite Z.leb_le, Z.ltb_lt; lia).
    rewrite Nat2Z.id, lookup_app_r, Nat.sub_diag by lia. reflexivity.
  - destruct (Z.ltb_spec i (Z.of_nat (length l))) as [Hlt|Hge].
    + replace (i <? Z.of_nat (length l + 1)) with true by (symmetry; apply Z.ltb_lt; lia).
      rewrite lookup_app_l by lia. reflexivity.
    + replace (i <? Z.of_nat (length l + 1)) with false by (symmetry; apply Z.ltb_ge; lia).
      rewrite !andb_false_r. reflexivity.
Qed.

Lemma AddNode_edges (il : FVector2D) (ih : Z) g (loc : FVector2D) (u v w : Z) :
  edge (Edges (AddNode il ih g loc).2) u v w <-> edge (Edges g) u v w.
Proof.
  unfold edge. simpl. split; intros (eu & e & Hu & He & Hv & Hw).
  - rewrite at_index_app_one in Hu. destruct (decide (u = Num (Edges g))).
    + inversion Hu. subst eu. inversion He.
    + exists eu, e. auto.
  - exists eu, e. split_and!; auto. rewrite at_index_app_one.
    rewrite decide_False; [exact Hu|]. apply at_index_Ok_valid in Hu. lia.
Qed.

Lemma AddNode_nodes (il : FVector2D) (ih : Z) g (loc : FVector2D) (i : Z)
  (n : FBytesNode FVector2D) :
  at_index (Nodes (AddNode il ih g loc).2) i = Ok n ->
  at_index (Nodes g) i = Ok n \/
  (i = Num (Nodes g) /\ n = mkNode (Num (Nodes g)) (-1) 0 0 il ih).
Proof.
  simpl. rewrite at_index_app_one. destruct (decide (i = Num (Nodes g))) as [->|Hne].
  - intros H. inversion H. right. auto.
  - auto.
Qed.

(** ** Graphs made by [CreateGraph], [AddNode] and [AddOrSetEdge] *)

Inductive built : FBytesGraph FVector2D -> Prop :=
| built_CreateGraph : built CreateGraph
| built_AddNode g (il : FVector2D) (ih : Z) (loc : FVector2D) :
    built g -> built (AddNode il ih g loc).2
| built_AddOrSetEdge g (a b W : Z) g' :
    built g -> AddOrSetEdge g a b W = Ok g' -> built g'.

Lemma built_shape g :
  built g ->
  Num (Edges g) = Num (Nodes g) /\ ids_dense (Nodes g) /\
  (forall u v w, edge (Edges g) u v w -> 0 <= v < Num (Nodes g)) /\
  undirected (Edges g) /\ single_weight (Edges g) /\ untouched (Nodes g).
Proof.
  induction 1 as [|g il ih loc _ (HN & Hd & Hv & Hu & Hs & Ht)
                  |g a b W g' _ (HN & Hd & Hv & Hu & Hs & Ht) HA].
  - split_and!.
    + reflexivity.
    + intros i n H. destruct (at_index_nil _ _ H).
    + intros u v w (eu & e & H & _). destruct (at_index_nil _ _ H).
    + intros u v w (eu & e & H & _). destruct (at_index_nil _ _ H).
    + intros u v w w' (eu & e & H & _). destruct (at_index_nil _ _ H).
    + intros i n H. destruct (at_index_nil _ _ H).
  - assert (HNum : Num (Nodes (AddNode il ih g loc).2) = Num (Nodes g) + 1).
    { simpl. unfold Num. rewrite length_app. simpl. lia. }
    split_and!.
    + simpl. unfold Num in *. rewrite !length_app. simpl. lia.
    + intros i n H. apply AddNode_nodes in H as [H|[-> ->]]; [eapply Hd, H|reflexivity].
    + intros u v w H. apply AddNode_edges in H. apply Hv in H. lia.
    + intros u v w H. apply AddNode_edges. apply AddNode_edges in H. eapply Hu, H.
    + intros u v w w' H H'. apply AddNode_edges in H, H'. eapply Hs; eauto.
    + intros i n H. apply AddNode_nodes in H as [H|[-> ->]]; [eapply Ht, H|simpl; auto].
  - destruct (decide (0 <= a < Num (Nodes g) /\ 0 <= b < Num (Nodes g))) as [[Ha Hb]|Hinv].
    + destruct (AddOrSetEdge_pair g a b W HN Hu Ha Hb) as (g2 & HA2 & H1 & _ & H3 & Hch).
      rewrite HA in HA2. inversion HA2. subst g2. rewrite H1, H3. split_and!; auto.
      * intros u v w H. apply Hch in H as [[[[-> ->]|[-> ->]] _]|[_ H]]; eauto.
      * intros u v w H. apply Hch. apply Hch in H as [[HP ->]|[HP H]].
        -- left. split; [tauto|reflexivity].
        -- right. split; [tauto|eapply Hu, H].
      * intros u v w w' H H'. apply Hch in H, H'.
        destruct H as [[HP ->]|[HP H]], H' as [[HP' ->]|[HP' H']]; try tauto.
        eapply Hs; eauto.
    + rewrite (AddOrSetEdge_invalid g a b W Hinv) in HA. inversion HA. subst g'.
      split_and!; auto.
Qed.

(** X8. On a graph with one adjacency list per node and every edge stored
    in both directions, [AddOrSetEdge] with two valid ids returns a graph
    with the same nodes in which the pair carries the given weight in both
    directions, as its only weight, and every other pair has the edges it
    had. *)
Theorem AddOrSetEdge_sets_weight g (NodeAID NodeBID W : Z) :
  Num (Edges g) = Num (Nodes g) ->
  undirected (Edges g) ->
  IsValidIndex (Nodes g) NodeAID = true ->
  IsValidIndex (Nodes g) NodeBID = true ->
  exists g',
    AddOrSetEdge g NodeAID NodeBID W = Ok g' /\
    Nodes g' = Nodes g /\
    forall u v w, edge (Edges g') u v w <->
      (((u = NodeAID /\ v = NodeBID) \/ (u = NodeBID /\ v = NodeAID)) /\ w = W) \/
      (~ ((u = NodeAID /\ v = NodeBID) \/ (u = NodeBID /\ v = NodeAID)) /\
       edge (Edges g) u v w).
Proof.
  intros HN Hu Ha Hb. apply IsValidIndex_true in Ha, Hb.
  destruct (AddOrSetEdge_pair g NodeAID NodeBID W HN Hu Ha Hb) as
    (g' & HA & H1 & _ & _ & Hch).
  exists g'. auto.
Qed.

(** X9. On a graph with one adjacency list per node [AddOrSetEdge] always
    returns; it never changes the nodes or the number of adjacency lists,
    and when one of the ids is not a valid index it returns the graph as
    it was. *)
Theorem AddOrSetEdge_total g (NodeAID NodeBID W : Z) :
  Num (Edges g) = Num (Nodes g) ->
  exists g',
    AddOrSetEdge g NodeAID NodeBID W = Ok g' /\
    Nodes g' = Nodes g /\ Num (Edges g') = Num (Edges g) /\
    (IsValidIndex (Nodes g) NodeAID = false \/ IsValidIndex (Nodes g) NodeBID = false ->
     g' = g).
Proof.
  intros HN.
  destruct (decide (0 <= NodeAID < Num (Nodes g) /\ 0 <= NodeBID < Num (Nodes g)))
    as [[Ha Hb]|Hinv].
  - destruct (AddOrSetEdge_edges g NodeAID NodeBID W HN Ha Hb) as
      (g' & HA & H1 & _ & H3 & _).
    exists g'. split_and!; auto.
    intros [H|H]; apply IsValidIndex_false in H; tauto.
  - exists g. rewrite (AddOrSetEdge_invalid g _ _ W Hinv). auto.
Qed.

(** X10. Every graph made by [CreateGraph], [AddNode] and [AddOrSetEdge] has
    one adjacency list per node and node ids equal to the positions in the
    array; its edges lead to nodes, come in both directions and with one
    weight per pair; and every node still has cost 0 and predecessor -1. *)
Theorem built_graph_shape g :
  built g ->
  Num (Edges g) = Num (Nodes g) /\
  (forall i n, at_index (Nodes g) i = Ok n ->
     NodeID n = i /\ GCost n = 0 /\ HCost n = 0 /\ ParentID n = -1) /\
  (forall u v w, edge (Edges g) u v w ->
     IsValidIndex (Nodes g) u = true /\ IsValidIndex (Nodes g) v = true /\
     edge (Edges g) v u w /\
     forall w', edge (Edges g) u v w' -> w' = w).
Proof.
  intros Hb. destruct (built_shape g Hb) as (HN & Hd & Hv & Hu & Hs & Ht).
  split_and!; auto.
  - intros i n H. split; [eapply Hd, H|eapply Ht, H].
  - intros u v w H. split_and!.
    + apply IsValidIndex_true. destruct H as (eu & e & H & _).
      apply at_index_Ok_valid in H. lia.
    + apply IsValidIndex_true. eapply Hv, H.
    + eapply Hu, H.
    + intros w' H'. eapply Hs; eauto.
Qed.

End Construction.

(** ** The functions that can be called from outside *)

Section Interface.
Context {FVector2D : Type}.
Variable FloorDistance : FVector2D -> FVector2D -> Z.
Implicit Types (g : FBytesGraph FVector2D) (ns : list (FBytesNode FVector2D)).

(** [FindPathsToNodes] on nodes of cost 0 relaxes nothing. *)
Lemma FindPathsToNodes_idle g (StartID : Z) (fuel : nat) :
  graph_wf g ->
  weights_within (Edges g) (2 ^ 31 - 1) ->
  untouched (Nodes g) ->
  0 <= StartID < Num (Nodes g) ->
  (Z.to_nat (Num (Nodes g)) < fuel)%nat ->
  exists g',
    FindPathsToNodes fuel g StartID = Ok g' /\
    Edges g' = Edges g /\ GraphType g' = GraphType g /\
    erase (Nodes g') = erase (Nodes g).
Proof.
  intros (Hcap & HNe & Hd & Hev) Hw Hun Hs Hfuel.
  destruct (at_index_valid _ _ Hs) as [n Hn].
  destruct (update_at_valid (Nodes g) StartID (set_GCost 0) n Hn) as [ns0 U0].
  assert (Hsame : ns0 = Nodes g).
  { apply update_at_Ok in U0 as (n' & Hn' & ->). rewrite Hn in Hn'. inversion Hn'.
    subst n'. destruct (Hun _ _ Hn) as (Hg & _).
    apply list_insert_id. apply at_index_Ok in Hn as [_ Hn]. rewrite Hn. f_equal.
    destruct n. simpl in *. subst. reflexivity. }
  subst ns0.
  destruct (new_heap_wf (Nodes g) (Num (Nodes g))) as (Hwf0 & HN0 & Hempty);
    [unfold Num in *; lia|].
  destruct (AddAll_spec fuel (seqZ 0 (Num (Nodes g))) (Nodes g)
              (new_FBytesPathfindingHeap (Num (Nodes g))) Hwf0) as
    (ns1 & h1 & HA & Hwf1 & Hsz1 & HN1 & He1 & _).
  { apply NoDup_seqZ. }
  { intros a Ha. apply elem_of_seqZ in Ha. split; [lia|apply Hempty]. }
  { rewrite length_seqZ, HN0. simpl. unfold Num. lia. }
  { rewrite HN0. lia. }
  rewrite length_seqZ in Hsz1. simpl in Hsz1.
  assert (Hedges : forall u v w, edge (Edges g) u v w ->
            0 <= v < Num (Nodes g) /\ 0 <= w < 2 ^ 31).
  { intros u v w He. split; [eapply Hev, He|]. specialize (Hw u v w He). lia. }
  assert (Hr1 : (Z.to_nat (Size h1) < fuel)%nat) by (unfold Num in *; lia).
  assert (Hr2 : (Z.to_nat (Size h1) <= fuel)%nat) by lia.
  destruct (FindPathsToNodes_loop_untouched fuel (Edges g) (Nodes g) HNe Hd Hun Hedges
              fuel ns1 h1 Hwf1 He1 Hr1 Hr2) as (ns2 & HL & He2).
  exists (with_Nodes ns2 g). split_and!; auto.
  unfold FindPathsToNodes. rewrite U0. simpl. rewrite HA. simpl. rewrite HL.
  reflexivity.
Qed.

Lemma GetPath_idle g (s t : Z) (b : bool) (fuel : nat) :
  untouched (Nodes g) -> GetPath FloorDistance fuel g s t b = Ok (g, []).
Proof.
  intros Hun. rewrite GetPath_unfold.
  destruct (IsValidIndex (Nodes g) s) eqn:Es; simpl; [|reflexivity].
  destruct (IsValidIndex (Nodes g) t) eqn:Et; simpl; [|reflexivity].
  apply IsValidIndex_true in Et. destruct (at_index_valid _ _ Et) as [n Hn].
  rewrite Hn. simpl. destruct (Hun _ _ Hn) as (_ & _ & ->). reflexivity.
Qed.

Lemma GetNodesInRange_loop_idle ns (m : Z) :
  forall k,
    (forall i n, at_index ns i = Ok n -> NodeID n = k + i /\ GCost n = 0) ->
    GetNodesInRange_loop ns m = if 0 <=? m then seqZ k (Num ns) else [].
Proof.
  induction ns as [|a ns IH]; intros k H.
  - simpl. destruct (0 <=? m); reflexivity.
  - assert (Ha : NodeID a = k /\ GCost a = 0).
    { destruct (H 0 a) as [H1 H2]; [reflexivity|]. split; [lia|exact H2]. }
    destruct Ha as [Hid Hg]. simpl. rewrite Hg, (IH (k + 1)).
    + destruct (0 <=? m); [|reflexivity].
      rewrite (seqZ_cons k (Num (a :: ns))) by (unfold Num; simpl; lia).
      rewrite Hid. f_equal. f_equal; unfold Num; simpl; lia.
    + intros i n Hi. apply at_index_Ok in Hi as [Hi0 Hi].
      destruct (H (i + 1) n) as [H1 H2]; [|split; [lia|exact H2]].
      apply at_index_Ok. split; [lia|].
      replace (Z.to_nat (i + 1)) with (S (Z.to_nat i)) by lia. exact Hi.
Qed.

(** The graph states reached through [CreateGraph], [AddNode],
    [AddOrSetEdge], [FindPathsToNodes] and [GetPath]: the searches are run
    with enough fuel, the weights are non-negative [int32] values and the
    heap's bound on the number of nodes is kept. *)
Inductive api_state : FBytesGraph FVector2D -> Prop :=
| api_CreateGraph : api_state CreateGraph
| api_AddNode g (il : FVector2D) (ih : Z) (loc : FVector2D) :
    api_state g -> Num (Nodes g) < 2 ^ 30 -> api_state (AddNode il ih g loc).2
| api_AddOrSetEdge g (a b W : Z) g' :
    api_state g -> 0 <= W < 2 ^ 31 -> AddOrSetEdge g a b W = Ok g' -> api_state g'
| api_FindPathsToNodes g (StartID : Z) (fuel : nat) g' :
    api_state g -> (Z.to_nat (Num (Nodes g)) < fuel)%nat ->
    FindPathsToNodes fuel g StartID = Ok g' -> api_state g'
| api_GetPath g (s t : Z) (b : bool) (fuel : nat) g' (Path : list Z) :
    api_state g -> GetPath FloorDistance fuel g s t b = Ok (g', Path) -> api_state g'.

Lemma api_state_shape g :
  api_state g ->
  graph_wf g /\ weights_within (Edges g) (2 ^ 31 - 1) /\ untouched (Nodes g).
Proof.
  induction 1 as [|g il ih loc _ ((Hcap & HN & Hd & Hv) & Hw & Ht) Hroom
                  |g a b W g' _ ((Hcap & HN & Hd & Hv) & Hw & Ht) HW HA
                  |g s fuel g' _ (Hwf & Hw & Ht) Hfuel HF
                  |g s t b fuel g' P _ IH HG].
  - split; [|split].
    + split_and!.
      * unfold Num. simpl. lia.
      * reflexivity.
      * intros i n H. destruct (at_index_nil _ _ H).
      * intros u v w (eu & e & H & _). destruct (at_index_nil _ _ H).
    + intros u v w (eu & e & H & _). destruct (at_index_nil _ _ H).
    + intros i n H. destruct (at_index_nil _ _ H).
  - assert (HNum : Num (Nodes (AddNode il ih g loc).2) = Num (Nodes g) + 1).
    { simpl. unfold Num. rewrite length_app. simpl. lia. }
    split; [|split].
    + split_and!.
      * lia.
      * simpl. unfold Num in *. rewrite !length_app. simpl. lia.
      * intros i n H. apply AddNode_nodes in H as [H|[-> ->]]; [eapply Hd, H|reflexivity].
      * intros u v w H. apply AddNode_edges in H. apply Hv in H. lia.
    + intros u v w H. apply AddNode_edges in H. eapply Hw, H.
    + intros i n H. apply AddNode_nodes in H as [H|[-> ->]]; [eapply Ht, H|simpl; auto].
  - destruct (decide (0 <= a < Num (Nodes g) /\ 0 <= b < Num (Nodes g))) as [[Ha Hb]|Hinv].
    + destruct (AddOrSetEdge_edges g a b W HN Ha Hb) as (g2 & HA2 & H1 & _ & H3 & Hch).
      rewrite HA in HA2. inversion HA2. subst g2.
      assert (Hsub : forall u v w, edge (Edges g') u v w ->
                edge (Edges g) u v w \/ (w = W /\ (v = a \/ v = b))).
      { intros u v w H. destruct Hch as [[_ Hch]|[_ Hch]]; apply Hch in H; tauto. }
      split; [|split].
      * unfold graph_wf. rewrite H1, H3. split_and!; auto.
        intros u v w H. apply Hsub in H as [H|[_ [->| ->]]]; eauto.
      * intros u v w H. apply Hsub in H as [H|[-> _]]; [eapply Hw, H|lia].
      * rewrite H1. exact Ht.
    + rewrite (AddOrSetEdge_invalid g a b W Hinv) in HA. inversion HA. subst g'.
      unfold graph_wf. auto.
  - assert (Hs : 0 <= s < Num (Nodes g)).
    { unfold FindPathsToNodes in HF. apply bind_Ok in HF as (ns0 & U0 & _).
      apply update_at_Ok in U0 as (n & Hn & _). eapply at_index_Ok_valid, Hn. }
    destruct (FindPathsToNodes_idle g s fuel Hwf Hw Ht Hs Hfuel) as
      (g2 & HF2 & H1 & _ & H3).
    rewrite HF in HF2. inversion HF2. subst g2.
    destruct Hwf as (Hcap & HN & Hd & Hv). split; [|split].
    + unfold graph_wf. rewrite H1, (erase_Num _ _ H3). split_and!; auto.
      eapply ids_dense_erase; eauto.
    + rewrite H1. exact Hw.
    + eapply untouched_erase; eauto.
  - destruct IH as (Hwf & Hw & Ht).
    rewrite (GetPath_idle g s t b fuel Ht) in HG. inversion HG. subst. auto.
Qed.

(** X11. In every graph state reached from [CreateGraph] by [AddNode],
    [AddOrSetEdge] with non-negative weights, [FindPathsToNodes] and
    [GetPath], every node still has cost 0 and predecessor -1: the nodes
    are reset only inside [FindPath], and [GetPath] runs [FindPath] only
    for a target whose predecessor is not -1. So [GetPath] returns the
    empty path for all ids, with and without recalculation, and
    [GetNodesInRange] returns every node id for each threshold from 0. *)
Theorem interface_never_finds_path g :
  api_state g ->
  (forall i n, at_index (Nodes g) i = Ok n -> GCost n = 0 /\ ParentID n = -1) /\
  (forall fuel s t b, GetPath FloorDistance fuel g s t b = Ok (g, [])) /\
  (forall m, GetNodesInRange g m = if 0 <=? m then seqZ 0 (Num (Nodes g)) else []).
Proof.
  intros Ha. destruct (api_state_shape g Ha) as ((_ & _ & Hd & _) & _ & Ht).
  split_and!.
  - intros i n H. destruct (Ht i n H) as (H1 & _ & H3). auto.
  - intros fuel s t b. apply GetPath_idle, Ht.
  - intros m. apply GetNodesInRange_loop_idle. intros i n H.
    rewrite (Hd i n H). split; [lia|eapply Ht, H].
Qed.

End Interface.

(** ** Closed instances *)

(** Two nodes without an edge, and the same two nodes joined by an edge of
    weight 7, both made through the interface. *)
Definition pair2 : FBytesGraph unit :=
  (AddNode tt 0 (AddNode tt 0 CreateGraph tt).2 tt).2.

Definition joined2 : FBytesGraph unit :=
  mkGraph (Nodes pair2) [mkEdges [mkEdge 1 7]; mkEdges [mkEdge 0 7]] Distance2D.

(** [joined2] after [FindPathsToNodes] from node 0. *)
Definition joined2_searched : FBytesGraph unit :=
  match FindPathsToNodes 3 joined2 0 with
  | Ok g => g
  | Fail _ => joined2
  end.

Lemma pair2_no_edge (u v w : Z) : ~ edge (Edges pair2) u v w.
Proof.
  intros (eu & e & Hu & He & _). simpl in Hu. at_index_inv Hu; inversion He.
Qed.

Lemma pair2_joined : AddOrSetEdge pair2 0 1 7 = Ok joined2.
Proof. reflexivity. Qed.

Lemma AddOrSetEdge_sets_weight_witness :
  exists g',
    AddOrSetEdge pair2 0 1 7 = Ok g' /\
    Nodes g' = Nodes pair2 /\
    forall u v w, edge (Edges g') u v w <->
      (((u = 0 /\ v = 1) \/ (u = 1 /\ v = 0)) /\ w = 7) \/
      (~ ((u = 0 /\ v = 1) \/ (u = 1 /\ v = 0)) /\ edge (Edges pair2) u v w).
Proof.
  apply (AddOrSetEdge_sets_weight pair2 0 1 7).
  - reflexivity.
  - intros u v w H. destruct (pair2_no_edge u v w H).
  - reflexivity.
  - reflexivity.
Defined.

Lemma AddOrSetEdge_total_witness :
  exists g',
    AddOrSetEdge pair2 0 5 7 = Ok g' /\
    Nodes g' = Nodes pair2 /\ Num (Edges g') = Num (Edges pair2) /\
    (IsValidIndex (Nodes pair2) 0 = false \/ IsValidIndex (Nodes pair2) 5 = false ->
     g' = pair2).
Proof. apply (AddOrSetEdge_total pair2 0 5 7). reflexivity. Defined.

Lemma joined2_built : built joined2.
Proof.
  apply (built_AddOrSetEdge pair2 0 1 7 joined2); [|exact pair2_joined].
  apply built_AddNode, built_AddNode, built_CreateGraph.
Qed.

Lemma built_graph_shape_witness :
  Num (Edges joined2) = Num (Nodes joined2) /\
  (forall i n, at_index (Nodes joined2) i = Ok n ->
     NodeID n = i /\ GCost n = 0 /\ HCost n = 0 /\ ParentID n = -1) /\
  (forall u v w, edge (Edges joined2) u v w ->
     IsValidIndex (Nodes joined2) u = true /\ IsValidIndex (Nodes joined2) v = true /\
     edge (Edges joined2) v u w /\
     forall w', edge (Edges joined2) u v w' -> w' = w).
Proof. apply (built_graph_shape joined2). exact joined2_built. Defined.

Lemma joined2_searched_api : api_state zero_distance joined2_searched.
Proof.
  apply (api_FindPathsToNodes zero_distance joined2 0 3 joined2_searched).
  - apply (api_AddOrSetEdge zero_distance pair2 0 1 7 joined2); [|lia|exact pair2_joined].
    apply api_AddNode; [|unfold Num; simpl; lia].
    apply api_AddNode; [|unfold Num; simpl; lia].
    apply api_CreateGraph.
  - unfold Num. simpl. lia.
  - vm_compute. reflexivity.
Qed.

Lemma interface_never_finds_path_witness :
  (forall i n, at_index (Nodes joined2_searched) i = Ok n ->
     GCost n = 0 /\ ParentID n = -1) /\
  (forall fuel s t b,
     GetPath zero_distance fuel joined2_searched s t b = Ok (joined2_searched, [])) /\
  (forall m, GetNodesInRange joined2_searched m =
             if 0 <=? m then seqZ 0 (Num (Nodes joined2_searched)) else []).
Proof.
  apply (interface_never_finds_path zero_distance joined2_searched).
  exact joined2_searched_api.
Defined.

(** * The linear search for the cheapest node *)

Section LinearSearch.
Context {FVector2D : Type}.
Implicit Types (g : FBytesGraph FVector2D) (ns : list (FBytesNode FVector2D)).

(** The cached cost of the node [i], and 0 for an id without a node. *)
Definition cost_of ns (i : Z) : Z :=
  match at_index ns i with
  | Ok n => GCost n
  | Fail _ => 0
  end.

Lemma FindNodeWithLowestGCost_loop_spec ns :
  forall Unvisited (seen : list Z) (Closest : Z),
    (forall i, i ∈ Unvisited -> 0 <= i < Num ns) ->
    Closest ∈ seen ->
    (forall i, i ∈ seen -> cost_of ns Closest <= cost_of ns i) ->
    exists c,
      FindNodeWithLowestGCost_loop ns Unvisited Closest (cost_of ns Closest)
        = Ok (c, cost_of ns c) /\
      c ∈ seen ++ Unvisited /\
      (forall i, i ∈ seen ++ Unvisited -> cost_of ns c <= cost_of ns i) /\
      (c = Closest \/
       exists before after, Unvisited = before ++ c :: after /\
         forall i, i ∈ seen ++ before -> cost_of ns c < cost_of ns i).
Proof.
  induction Unvisited as [|x rest IH]; intros seen Closest Hvalid Hin Hmin.
  - exists Closest. rewrite app_nil_r. simpl. auto.
  - destruct (at_index_valid ns x (Hvalid x ltac:(left))) as [n Hn].
    assert (Hx : cost_of ns x = GCost n) by (unfold cost_of; rewrite Hn; reflexivity).
    assert (Hrest : forall i, i ∈ rest -> 0 <= i < Num ns)
      by (intros i Hi; apply Hvalid; right; exact Hi).
    simpl. rewrite Hn. simpl.
    destruct (Z.ltb_spec (GCost n) (cost_of ns Closest)) as [Hlt|Hge].
    + destruct (IH (seen ++ [x]) x Hrest) as (c & HL & Hc & Hall & Hfirst).
      { apply elem_of_app. right. left. }
      { intros i Hi. apply elem_of_app in Hi as [Hi|Hi].
        - specialize (Hmin i Hi). lia.
        - apply list_elem_of_singleton in Hi. subst. lia. }
      rewrite Hx in HL. exists c. rewrite <- app_assoc in Hc, Hall. simpl in Hc, Hall.
      split_and!; auto. right.
      destruct Hfirst as [->|(before & after & -> & Hb)].
      * exists [], rest. split; [reflexivity|]. rewrite app_nil_r.
        intros i Hi. specialize (Hmin i Hi). lia.
      * exists (x :: before), after. split; [reflexivity|].
        intros i Hi. apply Hb. rewrite <- app_assoc. exact Hi.
    + destruct (IH (seen ++ [x]) Closest Hrest) as (c & HL & Hc & Hall & Hfirst).
      { apply elem_of_app. left. exact Hin. }
      { intros i Hi. apply elem_of_app in Hi as [Hi|Hi].
        - apply Hmin, Hi.
        - apply list_elem_of_singleton in Hi. subst. lia. }
      exists c. rewrite <- app_assoc in Hc, Hall. simpl in Hc, Hall.
      split_and!; auto.
      destruct Hfirst as [->|(before & after & -> & Hb)]; [left; reflexivity|].
      right. exists (x :: before), after. split; [reflexivity|].
      intros i Hi. apply Hb. rewrite <- app_assoc. exact Hi.
Qed.

(** X12. On a list of valid node ids that is not empty,
    [FindNodeWithLowestGCost] returns the first id of the list whose
    cached cost is the least: no id of the list has a smaller cost and
    every id before it has a greater one. *)
Theorem FindNodeWithLowestGCost_first_minimum g (Unvisited : list Z) :
  Unvisited <> [] ->
  (forall i, i ∈ Unvisited -> IsValidIndex (Nodes g) i = true) ->
  exists before c after,
    FindNodeWithLowestGCost g Unvisited = Ok c /\
    Unvisited = before ++ c :: after /\
    (forall i, i ∈ Unvisited -> cost_of (Nodes g) c <= cost_of (Nodes g) i) /\
    (forall i, i ∈ before -> cost_of (Nodes g) c < cost_of (Nodes g) i).
Proof.
  intros Hne Hvalid. destruct Unvisited as [|x rest]; [congruence|].
  assert (Hv : forall i, i ∈ x :: rest -> 0 <= i < Num (Nodes g))
    by (intros i Hi; apply IsValidIndex_true, Hvalid, Hi).
  destruct (at_index_valid (Nodes g) x (Hv x ltac:(left))) as [n Hn].
  assert (Hx : cost_of (Nodes g) x = GCost n) by (unfold cost_of; rewrite Hn; reflexivity).
  destruct (FindNodeWithLowestGCost_loop_spec (Nodes g) rest [x] x) as
    (c & HL & Hc & Hall & Hfirst).
  { intros i Hi. apply Hv. right. exact Hi. }
  { left. }
  { intros i Hi. apply list_elem_of_singleton in Hi. subst. lia. }
  assert (HF : FindNodeWithLowestGCost g (x :: rest) = Ok c).
  { unfold FindNodeWithLowestGCost.
    change (at_index (x :: rest) 0) with (Ok (A := Z) x). cbn [mbind result_bind].
    rewrite Hn. cbn [mbind result_bind FindNodeWithLowestGCost_loop]. rewrite Hn.
    cbn [mbind result_bind]. rewrite Z.ltb_irrefl, <- Hx, HL. reflexivity. }
  destruct Hfirst as [->|(before & after & -> & Hb)].
  - exists [], x, rest. split_and!; auto. intros i Hi. inversion Hi.
  - exists (x :: before), c, after. split_and!; auto.
Qed.

Lemma FindNodeWithLowestGCost_loop_faults ns :
  forall Unvisited (Closest CurrentCost : Z),
    match FindNodeWithLowestGCost_loop ns Unvisited Closest CurrentCost with
    | Ok _ => forall i, i ∈ Unvisited -> IsValidIndex ns i = true
    | Fail f => exists i, i ∈ Unvisited /\ IsValidIndex ns i = false /\ f = OutOfRange i
    end.
Proof.
  induction Unvisited as [|x rest IH]; intros Closest CurrentCost; simpl.
  - intros i Hi. inversion Hi.
  - destruct (at_index ns x) as [n|f] eqn:Hn; simpl.
    + apply at_index_Ok_valid, IsValidIndex_true in Hn.
      assert (Hstep : forall C K,
        match FindNodeWithLowestGCost_loop ns rest C K with
        | Ok _ => forall i, i ∈ x :: rest -> IsValidIndex ns i = true
        | Fail f => exists i, i ∈ x :: rest /\ IsValidIndex ns i = false /\ f = OutOfRange i
        end).
      { intros C K. specialize (IH C K).
        destruct (FindNodeWithLowestGCost_loop ns rest C K).
        - intros i Hi. apply elem_of_cons in Hi as [->|Hi]; auto.
        - destruct IH as (i & Hi & H). exists i. split; [right; exact Hi|exact H]. }
      destruct (GCost n <? CurrentCost); apply Hstep.
    + apply at_index_Fail in Hn as [-> Hn]. exists x. split; [left|auto].
Qed.

(** X13. [FindNodeWithLowestGCost] returns only for a list that is not
    empty and holds valid node ids only; on the empty list it reads entry
    0 of the list, and otherwise it reads the node array at an id of the
    list that is not a valid index. *)
Theorem FindNodeWithLowestGCost_faults g (Unvisited : list Z) :
  match FindNodeWithLowestGCost g Unvisited with
  | Ok c =>
    Unvisited <> [] /\ forall i, i ∈ Unvisited -> IsValidIndex (Nodes g) i = true
  | Fail f =>
    (Unvisited = [] /\ f = OutOfRange 0) \/
    exists i, i ∈ Unvisited /\ IsValidIndex (Nodes g) i = false /\ f = OutOfRange i
  end.
Proof.
  destruct Unvisited as [|x rest]; [left; auto|].
  unfold FindNodeWithLowestGCost.
  change (at_index (x :: rest) 0) with (Ok (A := Z) x). cbn [mbind result_bind].
  destruct (at_index (Nodes g) x) as [n|f] eqn:Hn; cbn [mbind result_bind].
  - pose proof (FindNodeWithLowestGCost_loop_faults (Nodes g) (x :: rest) x (GCost n)) as H.
    destruct (FindNodeWithLowestGCost_loop (Nodes g) (x :: rest) x (GCost n)) as [[c k]|f];
      cbn [mbind result_bind].
    + split; [discriminate|exact H].
    + right. exact H.
  - apply at_index_Fail in Hn as [-> Hn]. right. exists x. split; [left|auto].
Qed.

End LinearSearch.

Lemma FindNodeWithLowestGCost_first_minimum_witness :
  exists before c after,
    FindNodeWithLowestGCost (mkGraph two_nodes [] Distance2D) [0; 1; 1] = Ok c /\
    [0; 1; 1] = before ++ c :: after /\
    (forall i, i ∈ [0; 1; 1] -> cost_of two_nodes c <= cost_of two_nodes i) /\
    (forall i, i ∈ before -> cost_of two_nodes c < cost_of two_nodes i).
Proof.
  apply (FindNodeWithLowestGCost_first_minimum (mkGraph two_nodes [] Distance2D) [0; 1; 1]).
  - discriminate.
  - intros i Hi. repeat (apply elem_of_cons in Hi as [->|Hi]; [reflexivity|]).
    inversion Hi.
Defined.

(** * What the searches leave alone *)

Section SearchFrames.
Context {FVector2D B : Type}.
Variable FloorDistance : FVector2D -> FVector2D -> Z.
(** [view] reads fields of a node that the assignments below do not write. *)
Variable view : FBytesNode FVector2D -> B.
Hypothesis view_HeapIndex : forall v n, view (set_HeapIndex v n) = view n.
Hypothesis view_GCost : forall v n, view (set_GCost v n) = view n.
Hypothesis view_ParentID : forall v n, view (set_ParentID v n) = view n.
Implicit Types (ns : list (FBytesNode FVector2D)) (h : FBytesPathfindingHeap).
Implicit Types (g : FBytesGraph FVector2D).

Lemma view_erase ns ns' : erase ns' = erase ns -> map view ns' = map view ns.
Proof.
  intros He.
  assert (Hb : forall l : list (FBytesNode FVector2D), map view l = map view (erase l)).
  { intros l. unfold erase. rewrite map_map. apply map_ext. intros n.
    symmetry. apply view_HeapIndex. }
  rewrite (Hb ns'), (Hb ns), He. reflexivity.
Qed.

Lemma view_update_at ns (a : Z) (f : FBytesNode FVector2D -> FBytesNode FVector2D) ns' :
  update_at ns a f = Ok ns' ->
  (forall n, view (f n) = view n) ->
  map view ns' = map view ns.
Proof.
  intros H Hf. apply update_at_Ok in H as (n & Hn & ->).
  apply at_index_Ok in Hn as [_ Hn].
  change (view <$> <[Z.to_nat a := f n]> ns = view <$> ns).
  rewrite list_fmap_insert. apply list_insert_id.
  rewrite list_lookup_fmap, Hn. simpl. now rewrite Hf.
Qed.

Lemma AddAll_view (fuel : nat) :
  forall addrs ns h ns' h',
    AddAll fuel ns h addrs = Ok (ns', h') -> map view ns' = map view ns.
Proof.
  induction addrs as [|a rest IH]; intros ns h ns' h'; simpl.
  - intros H. inversion H. reflexivity.
  - intros H. apply bind_Ok in H as ([ns1 h1] & HA & H).
    apply Add_frame in HA as (He & _). apply IH in H. rewrite H.
    apply view_erase, He.
Qed.

Lemma RelaxEdges_view (fuel : nat) (Node : ptr) :
  forall es ns h ns' h',
    RelaxEdges fuel ns h Node es = Ok (ns', h') -> map view ns' = map view ns.
Proof.
  induction es as [|e rest IH]; intros ns h ns' h'; simpl.
  - intros H. inversion H. reflexivity.
  - intros H. apply bind_Ok in H as (n & _ & H). apply bind_Ok in H as (cur & _ & H).
    apply bind_Ok in H as (nb & _ & H).
    destruct (add32 (GCost cur) (Weight e) <? GCost nb); [|eapply IH, H].
    apply bind_Ok in H as (ns1 & U1 & H). apply bind_Ok in H as (n1 & _ & H).
    apply bind_Ok in H as (ns2 & U2 & H). apply bind_Ok in H as (x & _ & H).
    apply bind_Ok in H as ([ns3 h3] & HU & H).
    apply SortUp_frame in HU as (He & _). apply IH in H. rewrite H.
    rewrite (view_erase _ _ He).
    rewrite (view_update_at _ _ _ _ U2) by (intros; apply view_ParentID).
    apply (view_update_at _ _ _ _ U1). intros; apply view_GCost.
Qed.

Lemma FindPathsToNodes_loop_view (fuel : nat) es :
  forall (rounds : nat) ns h ns',
    FindPathsToNodes_loop rounds fuel es ns h = Ok ns' -> map view ns' = map view ns.
Proof.
  induction rounds as [|rounds IH]; intros ns h ns'; simpl; [discriminate|].
  destruct (IsNotEmpty h); [|intros H; inversion H; reflexivity].
  intros H. apply bind_Ok in H as ([[P ns1] h1] & HR & H).
  apply bind_Ok in H as (n & _ & H). apply bind_Ok in H as (edges & _ & H).
  apply bind_Ok in H as ([ns2 h2] & HE & H).
  apply RemoveFirst_frame in HR as (He & _). apply RelaxEdges_view in HE.
  apply IH in H. rewrite H, HE. apply view_erase, He.
Qed.

Lemma FindPathsToNodes_view (fuel : nat) g (StartID : Z) g' :
  FindPathsToNodes fuel g StartID = Ok g' ->
  Edges g' = Edges g /\ GraphType g' = GraphType g /\
  map view (Nodes g') = map view (Nodes g).
Proof.
  unfold FindPathsToNodes. intros H. apply bind_Ok in H as (ns0 & U0 & H).
  apply bind_Ok in H as ([ns1 h1] & HA & H). apply bind_Ok in H as (ns2 & HL & H).
  inversion H. subst. simpl. split_and!; auto.
  apply FindPathsToNodes_loop_view in HL. apply AddAll_view in HA.
  rewrite HL, HA. apply (view_update_at _ _ _ _ U0). intros; apply view_GCost.
Qed.

Hypothesis view_HCost : forall v n, view (set_HCost v n) = view n.

Lemma FindPath_edges_view (fuel : nat) (TargetID : Z) (X : gset Z) (Node : ptr) :
  forall es ns h ns' h',
    FindPath_edges FloorDistance fuel TargetID ns h X Node es = Ok (ns', h') ->
    map view ns' = map view ns.
Proof.
  induction es as [|e rest IH]; intros ns h ns' h'; simpl.
  - intros H. inversion H. reflexivity.
  - intros H. apply bind_Ok in H as (x & _ & H). apply bind_Ok in H as (nb & _ & H).
    destruct (bool_decide (NodeID nb ∈ X)); [eapply IH, H|].
    apply bind_Ok in H as (cur & _ & H).
    destruct (Contains h (Some (Edge_NodeID e)) &&
              (GCost nb <? add32 (GCost cur) (Weight e))); [eapply IH, H|].
    apply bind_Ok in H as (ns1 & U1 & H). apply bind_Ok in H as (ns2 & U2 & H).
    apply bind_Ok in H as (nb2 & _ & H). apply bind_Ok in H as (hc & _ & H).
    apply bind_Ok in H as (ns3 & U3 & H). apply bind_Ok in H as ([ns4 h4] & HU & H).
    apply IH in H. rewrite H.
    assert (He : erase ns4 = erase ns3).
    { destruct (Contains h (Some (Edge_NodeID e))).
      - apply SortUp_frame in HU. tauto.
      - apply Add_frame in HU. tauto. }
    rewrite (view_erase _ _ He).
    rewrite (view_update_at _ _ _ _ U3) by (intros; apply view_HCost).
    rewrite (view_update_at _ _ _ _ U2) by (intros; apply view_GCost).
    apply (view_update_at _ _ _ _ U1). intros; apply view_ParentID.
Qed.

Lemma FindPath_loop_view (fuel : nat) (TargetID : Z) es :
  forall (rounds : nat) ns h (X : gset Z) log ns',
    FindPath_loop FloorDistance rounds fuel TargetID es ns h X = Ok (log, ns') ->
    map view ns' = map view ns.
Proof.
  induction rounds as [|rounds IH]; intros ns h X log ns'; simpl; [discriminate|].
  destruct (IsNotEmpty h); [|intros H; inversion H; reflexivity].
  intros H. apply bind_Ok in H as ([[P ns1] h1] & HR & H).
  apply bind_Ok in H as (cur & _ & H).
  apply RemoveFirst_frame in HR as (He & _).
  destruct (NodeID cur =? TargetID).
  { inversion H. subst. apply view_erase, He. }
  apply bind_Ok in H as (edges & _ & H). apply bind_Ok in H as ([ns2 h2] & HE & H).
  apply FindPath_edges_view in HE. apply IH in H. rewrite H, HE.
  apply view_erase, He.
Qed.

Lemma FindPath_view (fuel : nat) g (StartID TargetID : Z) log g' :
  FindPath FloorDistance fuel g StartID TargetID = Ok (log, g') ->
  (forall n, view (InitNode n) = view n) ->
  Edges g' = Edges g /\ GraphType g' = GraphType g /\
  map view (Nodes g') = map view (Nodes g).
Proof.
  unfold FindPath. intros H Hinit. apply bind_Ok in H as (ns1 & U1 & H).
  apply bind_Ok in H as (hc & _ & H). apply bind_Ok in H as (ns2 & U2 & H).
  apply bind_Ok in H as ([ns3 h3] & HA & H). apply bind_Ok in H as ([l ns4] & HL & H).
  inversion H. subst. simpl. split_and!; auto.
  apply FindPath_loop_view in HL. apply Add_frame in HA as (He & _).
  rewrite HL, (view_erase _ _ He).
  rewrite (view_update_at _ _ _ _ U2) by (intros; apply view_HCost).
  rewrite (view_update_at _ _ _ _ U1) by (intros; apply view_GCost).
  simpl. rewrite map_map. apply map_ext. exact Hinit.
Qed.

End SearchFrames.

Section SearchFrameTheorems.
Context {FVector2D : Type}.
Variable FloorDistance : FVector2D -> FVector2D -> Z.
Implicit Types (g : FBytesGraph FVector2D).

(** X14. Whenever [FindPathsToNodes] returns, for whatever graph, start and
    fuel, the edges and the graph type are the same as before and so are
    the number of nodes and the id, heuristic cost and position of every
    node: only costs, predecessors and heap slots are written. *)
Theorem FindPathsToNodes_keeps_graph (fuel : nat) g (StartID : Z) :
  match FindPathsToNodes fuel g StartID with
  | Ok g' =>
    Edges g' = Edges g /\ GraphType g' = GraphType g /\
    map (fun n => (NodeID n, HCost n, Location2D n)) (Nodes g') =
    map (fun n => (NodeID n, HCost n, Location2D n)) (Nodes g)
  | Fail _ => True
  end.
Proof.
  destruct (FindPathsToNodes fuel g StartID) as [g'|] eqn:E; [|exact I].
  apply (FindPathsToNodes_view (fun n => (NodeID n, HCost n, Location2D n)))
    with (fuel := fuel) (StartID := StartID); auto.
Qed.

(** X15. Whenever [FindPath] returns, the edges and the graph type are the
    same as before and so are the number of nodes and the id and position
    of every node; the same holds for [GetPath], which moreover returns
    the graph itself when it is called without recalculation. *)
Theorem FindPath_keeps_graph (fuel : nat) g (s t : Z) (b : bool) :
  match FindPath FloorDistance fuel g s t with
  | Ok (_, g') =>
    Edges g' = Edges g /\ GraphType g' = GraphType g /\
    map (fun n => (NodeID n, Location2D n)) (Nodes g') =
    map (fun n => (NodeID n, Location2D n)) (Nodes g)
  | Fail _ => True
  end /\
  match GetPath FloorDistance fuel g s t b with
  | Ok (g', _) =>
    Edges g' = Edges g /\ GraphType g' = GraphType g /\
    map (fun n => (NodeID n, Location2D n)) (Nodes g') =
    map (fun n => (NodeID n, Location2D n)) (Nodes g) /\
    (b = false -> g' = g)
  | Fail _ => True
  end.
Proof.
  assert (HF : forall log g', FindPath FloorDistance fuel g s t = Ok (log, g') ->
            Edges g' = Edges g /\ GraphType g' = GraphType g /\
            map (fun n => (NodeID n, Location2D n)) (Nodes g') =
            map (fun n => (NodeID n, Location2D n)) (Nodes g)).
  { intros log g' E.
    apply (FindPath_view FloorDistance (fun n => (NodeID n, Location2D n)))
      with (fuel := fuel) (StartID := s) (TargetID := t) (log := log); auto. }
  split.
  - destruct (FindPath FloorDistance fuel g s t) as [[log g']|] eqn:E; [|exact I].
    eapply HF. reflexivity.
  - destruct (GetPath FloorDistance fuel g s t b) as [[g' P]|] eqn:E; [|exact I].
    rewrite GetPath_unfold in E.
    destruct (negb (IsValidIndex (Nodes g) s) || negb (IsValidIndex (Nodes g) t)).
    { inversion E. subst. auto. }
    apply bind_Ok in E as (n & _ & E). destruct (ParentID n =? -1).
    { inversion E. subst. auto. }
    apply bind_Ok in E as (g1 & Hg1 & E). apply bind_Ok in E as (Path & _ & E).
    inversion E. subst. destruct b.
    + apply bind_Ok in Hg1 as ([log g2] & HFP & Hg1). inversion Hg1. subst.
      destruct (HF _ _ HFP) as (H1 & H2 & H3). split_and!; auto. discriminate.
    + inversion Hg1. subst. auto.
Qed.

(** X16. The searches index the node array without a check: with a start
    id that is not a valid index both [FindPathsToNodes] and [FindPath]
    read the array out of range at that id, and with a valid start and a
    target id that is not a valid index [FindPath] reads it out of range
    at the target id. *)
Theorem searches_fault_on_invalid_ids (fuel : nat) g (s t : Z) :
  (IsValidIndex (Nodes g) s = false ->
   FindPathsToNodes fuel g s = Fail (OutOfRange s) /\
   FindPath FloorDistance fuel g s t = Fail (OutOfRange s)) /\
  (IsValidIndex (Nodes g) s = true -> IsValidIndex (Nodes g) t = false ->
   FindPath FloorDistance fuel g s t = Fail (OutOfRange t)).
Proof.
  assert (HI : forall i, IsValidIndex (Nodes (InitNodes g)) i = IsValidIndex (Nodes g) i).
  { intros i. unfold IsValidIndex, Num. simpl. rewrite length_map. reflexivity. }
  split.
  - intros Hs. split.
    + unfold FindPathsToNodes, update_at, at_index. rewrite Hs. reflexivity.
    + unfold FindPath, update_at, at_index. rewrite HI, Hs. reflexivity.
  - intros Hs Ht. apply IsValidIndex_true in Hs.
    assert (Hs' : 0 <= s < Num (Nodes (InitNodes g))).
    { apply IsValidIndex_true. rewrite HI. apply IsValidIndex_true, Hs. }
    destruct (at_index_valid _ _ Hs') as [n Hn].
    destruct (update_at_valid _ s (set_GCost 0) n Hn) as [ns1 U1].
    unfold FindPath. rewrite U1. cbn [mbind result_bind].
    unfold CalcHeuristicDistance.
    assert (Hn1 : exists n1, at_index ns1 s = Ok n1).
    { apply at_index_valid. rewrite (update_at_Num _ _ _ _ U1). exact Hs'. }
    destruct Hn1 as [n1 Hn1]. rewrite Hn1. cbn [mbind result_bind].
    unfold at_index. unfold IsValidIndex in *.
    rewrite (update_at_Num _ _ _ _ U1). unfold Num in *. simpl. rewrite length_map.
    rewrite Ht. reflexivity.
Qed.

End SearchFrameTheorems.

(** * Reading the result of the single-source search *)

(** [walk es u P v c]: [P] lists the nodes after [u] on a path of edges
    from [u] to [v] whose weights add up to [c]. *)
Inductive walk (es : list FBytesEdges) : Z -> list Z -> Z -> Z -> Prop :=
| walk_here u : walk es u [] u 0
| walk_edge u x w P v c :
    edge es u x w -> walk es x P v c -> walk es u (x :: P) v (w + c).

Lemma walk_snoc es (s u v w c : Z) (P : list Z) :
  walk es s P u c -> edge es u v w -> walk es s (P ++ [v]) v (c + w).
Proof.
  induction 1 as [u|u0 x w0 P u c He _ IH]; intros Hlast; simpl.
  - replace (0 + w) with (w + 0) by lia. eapply walk_edge; [exact Hlast|constructor].
  - replace (w0 + c + w) with (w0 + (c + w)) by lia.
    eapply walk_edge; [exact He|]. apply IH, Hlast.
Qed.

Lemma walk_path_cost es (s u v c0 c : Z) (P : list Z) :
  path_cost es s u c0 -> walk es u P v c -> path_cost es s v (c0 + c).
Proof.
  intros H0 Hw. revert c0 H0. induction Hw as [u|u x w P v c He _ IH]; intros c0 H0.
  - replace (c0 + 0) with c0 by lia. exact H0.
  - replace (c0 + (w + c)) with (c0 + w + c) by lia. apply IH.
    eapply path_snoc; eauto.
Qed.

Lemma chain_cost_path_cost {V : Type} (ns : list (FBytesNode V)) es (s v c : Z) :
  chain_cost ns es s v c -> path_cost es s v c.
Proof. induction 1; econstructor; eauto. Qed.

(** The retrace loop follows a predecessor chain to its end. *)
Lemma chain_cost_Retrace {V : Type} (ns : list (FBytesNode V)) es (s v c : Z) :
  chain_cost ns es s v c ->
  exists (k : nat) chain,
    (forall fuel acc, (k <= fuel)%nat -> Retrace fuel ns s v acc = Ok (acc ++ chain)) /\
    walk es s (reverse chain) v c /\
    (v = s -> chain = []).
Proof.
  induction 1 as [|v n w c Hne Hn He _ (k & chain & HR & Hw & _)].
  - exists 1%nat, []. split_and!; auto; [|constructor].
    intros [|fuel] acc Hk; [lia|]. simpl. rewrite Z.eqb_refl, app_nil_r. reflexivity.
  - exists (S k), (v :: chain). split_and!; [| |congruence].
    + intros [|fuel] acc Hk; [lia|]. simpl.
      destruct (Z.eqb_spec v s) as [->|_]; [congruence|].
      rewrite Hn. simpl. rewrite HR by lia. rewrite <- app_assoc. reflexivity.
    + rewrite reverse_cons. eapply walk_snoc; eauto.
Qed.

Section SingleSourceReaders.
Context {FVector2D : Type}.
Variable FloorDistance : FVector2D -> FVector2D -> Z.
Implicit Types (g : FBytesGraph FVector2D).

Lemma path_cost_valid es (s N v c : Z) :
  0 <= s < N ->
  (forall u v w, edge es u v w -> 0 <= v < N) ->
  path_cost es s v c -> 0 <= v < N.
Proof. intros Hs Hv. induction 1; eauto. Qed.

(** The outcome of [FindPathsToNodes] on a reset graph, node by node. *)
Lemma FindPathsToNodes_run g (StartID : Z) (fuel : nat) :
  graph_wf g ->
  weights_within (Edges g) (2 ^ 31 - 1 - INITIAL_DISTANCE) ->
  reset (Nodes g) ->
  0 <= StartID < Num (Nodes g) ->
  (Z.to_nat (Num (Nodes g)) < fuel)%nat ->
  exists g',
    FindPathsToNodes fuel g StartID = Ok g' /\
    Edges g' = Edges g /\
    Num (Nodes g') = Num (Nodes g) /\
    ids_dense (Nodes g') /\
    forall v n, at_index (Nodes g') v = Ok n ->
      0 <= GCost n <= INITIAL_DISTANCE /\
      (forall c, path_cost (Edges g) StartID v c -> GCost n <= c) /\
      (GCost n < INITIAL_DISTANCE ->
       chain_cost (Nodes g') (Edges g) StartID v (GCost n)) /\
      (GCost n = INITIAL_DISTANCE -> ParentID n = -1).
Proof.
  intros (Hcap & HNe & Hd & Hev) Hw Hreset Hs Hfuel.
  set (N := Num (Nodes g)) in *. set (es := Edges g) in *.
  assert (Hedges : forall u v w, edge es u v w -> 0 <= v < N /\ 0 <= w).
  { intros u v w He. split; [eapply Hev, He|]. specialize (Hw u v w He). lia. }
  assert (Hfit : forall u v w, edge es u v w -> w <= 2 ^ 31 - 1 - INITIAL_DISTANCE).
  { intros u v w He. specialize (Hw u v w He). lia. }
  destruct (at_index_valid _ _ Hs) as [n Hn].
  destruct (update_at_valid (Nodes g) StartID (set_GCost 0) n Hn) as [ns0 U0].
  pose proof (update_at_Num _ _ _ _ U0) as HN0. fold N in HN0.
  set (d0 := fun v : Z => if decide (v = StartID) then 0 else INITIAL_DISTANCE).
  set (p0 := fun _ : Z => -1).
  assert (Hpl0 : plain N ns0).
  { split; [exact HN0|]. split.
    - intros v nv Hv. rewrite (at_index_update_at _ _ _ _ v U0) in Hv.
      destruct (decide (v = StartID)) as [->|Hne].
      + rewrite Hn in Hv. inversion Hv. simpl. eapply Hd, Hn.
      + eapply Hd, Hv.
    - intros v nv Hv. rewrite (at_index_update_at _ _ _ _ v U0) in Hv.
      destruct (decide (v = StartID)) as [->|Hne].
      + rewrite Hn in Hv. inversion Hv. simpl. eapply Hreset, Hn.
      + eapply Hreset, Hv. }
  assert (Hr0 : repr ns0 d0 p0).
  { intros v nv Hv. rewrite (at_index_update_at _ _ _ _ v U0) in Hv.
    unfold d0, p0. destruct (decide (v = StartID)) as [->|Hne].
    - rewrite Hn in Hv. inversion Hv. simpl. split; [reflexivity|eapply Hreset, Hn].
    - destruct (Hreset _ _ Hv) as (H1 & _ & H3). auto. }
  destruct (new_heap_wf ns0 N) as (Hwf0 & HNh & Hempty); [unfold N, Num in *; lia|].
  destruct (AddAll_spec fuel (seqZ 0 N) ns0 (new_FBytesPathfindingHeap N) Hwf0) as
    (ns1 & h1 & HA & Hwf1 & Hsz1 & HN1 & He1 & Hin1).
  { apply NoDup_seqZ. }
  { intros a Ha. apply elem_of_seqZ in Ha. split; [lia|apply Hempty]. }
  { rewrite length_seqZ, HNh. simpl. unfold N, Num. lia. }
  { rewrite HNh. lia. }
  rewrite length_seqZ in Hsz1. simpl in Hsz1.
  assert (HNpos : 0 <= N) by (unfold N, Num; lia).
  assert (HX1 : settled_by ns1 h1 (fun _ => False)).
  { intros x. split; [contradiction|]. intros [Hx Hnot]. apply Hnot, Hin1. right.
    apply elem_of_seqZ. rewrite (erase_Num _ _ He1), HN0 in Hx. lia. }
  assert (R0 : relaxed es StartID N d0 p0 (fun _ => False)).
  { apply relaxed_initial; unfold d0, p0; auto.
    - rewrite decide_True by reflexivity. reflexivity.
    - intros v _ Hne. rewrite decide_False by auto. reflexivity. }
  assert (Hr1 : (Z.to_nat (Size h1) < fuel)%nat) by lia.
  assert (Hr2 : (Z.to_nat (Size h1) <= fuel)%nat) by lia.
  destruct (FindPathsToNodes_loop_spec es StartID N Hs HNe Hedges Hfit fuel fuel
              ns1 h1 d0 p0 (fun _ => False) Hwf1 (plain_erase N _ _ He1 Hpl0)
              (repr_erase _ _ _ _ He1 Hr0) HX1 R0 Hr1 Hr2) as
    (ns2 & d2 & p2 & HL & Hpl2 & Hrep2 & R2).
  exists (with_Nodes ns2 g). split.
  { unfold FindPathsToNodes. rewrite U0. simpl. rewrite HN0. fold N. rewrite HA. simpl.
    fold es. rewrite HL. reflexivity. }
  split; [reflexivity|]. destruct Hpl2 as (HN2 & Hd2 & _). split; [exact HN2|].
  split; [exact Hd2|].
  simpl. intros v nv Hv. destruct (Hrep2 _ _ Hv) as [Hg Hp].
  pose proof (at_index_Ok_valid _ _ _ Hv) as Hvv. rewrite HN2 in Hvv.
  pose proof (rel_bounds _ _ _ _ _ _ R2 v Hvv) as Hb.
  rewrite Hg, Hp. split_and!; try lia.
  - intros c Hc.
    destruct (relaxed_path es StartID N Hs Hedges d2 p2 _ v c R2) as
      [(y & Hy & HnX & _)|[_ Hle]]; auto; [|contradiction].
    intros x. destruct (decide (0 <= x < N)); auto.
  - intros Hlt. eapply tree_chain_cost; [exact Hrep2| |eapply rel_tree; eauto].
    intros x Hx. rewrite HN2. exact Hx.
  - intros HS. eapply rel_unreached; eauto.
Qed.

(** X17. After [FindPathsToNodes] on a reset graph, [GetNodesInRange] with a
    threshold below the sentinel returns, in increasing order, exactly the
    ids of the nodes that a path from the start reaches at a total weight
    of at most the threshold. *)
Theorem GetNodesInRange_after_FindPathsToNodes g (StartID MaxTravelCost : Z)
  (fuel : nat) :
  graph_wf g ->
  weights_within (Edges g) (2 ^ 31 - 1 - INITIAL_DISTANCE) ->
  reset (Nodes g) ->
  IsValidIndex (Nodes g) StartID = true ->
  (Z.to_nat (Num (Nodes g)) < fuel)%nat ->
  MaxTravelCost < INITIAL_DISTANCE ->
  exists g',
    FindPathsToNodes fuel g StartID = Ok g' /\
    increasing (GetNodesInRange g' MaxTravelCost) /\
    forall i, i ∈ GetNodesInRange g' MaxTravelCost <->
              exists c, path_cost (Edges g) StartID i c /\ c <= MaxTravelCost.
Proof.
  intros Hwf Hw Hreset Hs Hfuel Hm. apply IsValidIndex_true in Hs.
  destruct (FindPathsToNodes_run g StartID fuel Hwf Hw Hreset Hs Hfuel) as
    (g' & HF & HE & HN & Hd & Hall).
  exists g'. split; [exact HF|]. split.
  - apply (GetNodesInRange_loop_increasing (Nodes g') MaxTravelCost 0).
    intros i n Hi. rewrite (Hd i n Hi). lia.
  - intros i. unfold GetNodesInRange. rewrite GetNodesInRange_loop_elem. split.
    + intros (n & Hn & Hid & Hc). apply elem_of_at_index in Hn as [j Hj].
      rewrite (Hd j n Hj) in Hid. subst j.
      destruct (Hall i n Hj) as (_ & _ & Hchain & _).
      exists (GCost n). split; [|exact Hc].
      eapply chain_cost_path_cost, Hchain. lia.
    + intros (c & Hc & Hle).
      assert (Hi : 0 <= i < Num (Nodes g')).
      { rewrite HN. destruct Hwf as (_ & _ & _ & Hev).
        eapply path_cost_valid; [exact Hs| |exact Hc]. intros u v w He. eapply Hev, He. }
      destruct (at_index_valid _ _ Hi) as [n Hn].
      destruct (Hall i n Hn) as (_ & Hup & _).
      exists n. split; [apply elem_of_at_index; eauto|]. split; [eapply Hd, Hn|].
      specialize (Hup c Hc). lia.
Qed.

(** X18. After [FindPathsToNodes] on a reset graph, [GetPath] without
    recalculation, for a valid target that a path from the start reaches
    at a total weight below the sentinel, returns for every sufficient
    fuel the nodes after the start of a path of edges from the start to the
    target, whose total weight no path from the start to the target
    undercuts. *)
Theorem GetPath_after_FindPathsToNodes g (StartID TargetID : Z) (fuel : nat) :
  graph_wf g ->
  weights_within (Edges g) (2 ^ 31 - 1 - INITIAL_DISTANCE) ->
  reset (Nodes g) ->
  IsValidIndex (Nodes g) StartID = true ->
  IsValidIndex (Nodes g) TargetID = true ->
  (Z.to_nat (Num (Nodes g)) < fuel)%nat ->
  (exists c, path_cost (Edges g) StartID TargetID c /\ c < INITIAL_DISTANCE) ->
  exists g' Path c (k : nat),
    FindPathsToNodes fuel g StartID = Ok g' /\
    (forall fuel', (k <= fuel')%nat ->
       GetPath FloorDistance fuel' g' StartID TargetID false = Ok (g', Path)) /\
    walk (Edges g) StartID Path TargetID c /\
    (forall c', path_cost (Edges g) StartID TargetID c' -> c <= c').
Proof.
  intros Hwf Hw Hreset Hs Ht Hfuel (c0 & Hc0 & Hlt).
  apply IsValidIndex_true in Hs. apply IsValidIndex_true in Ht.
  destruct (FindPathsToNodes_run g StartID fuel Hwf Hw Hreset Hs Hfuel) as
    (g' & HF & HE & HN & Hd & Hall).
  assert (Ht' : 0 <= TargetID < Num (Nodes g')) by (rewrite HN; exact Ht).
  assert (Hs' : 0 <= StartID < Num (Nodes g')) by (rewrite HN; exact Hs).
  destruct (at_index_valid _ _ Ht') as [n Hn].
  destruct (Hall _ _ Hn) as (_ & Hup & Hchain & _).
  pose proof (Hup c0 Hc0) as Hle. specialize (Hchain ltac:(lia)).
  destruct (chain_cost_Retrace _ _ _ _ _ Hchain) as (k & chain & HR & Hwalk & Hnil).
  exists g', (reverse chain), (GCost n), k. split_and!; auto.
  intros fuel' Hk. rewrite GetPath_unfold.
  rewrite (proj2 (IsValidIndex_true _ _) Hs'), (proj2 (IsValidIndex_true _ _) Ht').
  simpl. rewrite Hn. simpl.
  destruct (Z.eqb_spec (ParentID n) (-1)) as [Hp|Hp].
  - assert (TargetID = StartID) as Heq.
    { inversion Hchain as [|v n' w c Hne Hn' He _]; [reflexivity|]. subst.
      rewrite Hn in Hn'. inversion Hn'. subst n'. rewrite Hp in He.
      destruct He as (eu & e & Hu & _). apply at_index_Ok_valid in Hu. lia. }
    rewrite (Hnil Heq). reflexivity.
  - simpl. rewrite (HR fuel' [] Hk). reflexivity.
Qed.

End SingleSourceReaders.

(** * The point-to-point search on every target *)

Section PointToPointOthers.
Context {FVector2D : Type}.
Variable FloorDistance : FVector2D -> FVector2D -> Z.
Implicit Types (ns : list (FBytesNode FVector2D)) (h : FBytesPathfindingHeap).

Lemma at_index_erase ns (v : Z) :
  at_index (erase ns) v = set_HeapIndex 0 <$> at_index ns v.
Proof. apply at_index_map. Qed.

Lemma update_at_erase_other ns (a : Z) (f : FBytesNode FVector2D -> FBytesNode FVector2D)
  ns' (v : Z) :
  update_at ns a f = Ok ns' -> v <> a ->
  at_index (erase ns') v = at_index (erase ns) v.
Proof.
  intros U Hne. rewrite !at_index_erase, (at_index_update_at _ _ _ _ v U).
  rewrite decide_False by exact Hne. reflexivity.
Qed.

(** The loop over the edges writes, apart from heap slots, only to the
    nodes the edges lead to. *)
Lemma FindPath_edges_others (fuel : nat) (TargetID : Z) (X : gset Z) (Node : ptr) :
  forall es ns h ns' h',
    FindPath_edges FloorDistance fuel TargetID ns h X Node es = Ok (ns', h') ->
    forall v, (forall e, e ∈ es -> Edge_NodeID e <> v) ->
      at_index (erase ns') v = at_index (erase ns) v.
Proof.
  induction es as [|e rest IH]; intros ns h ns' h'; simpl.
  - intros H v _. inversion H. reflexivity.
  - intros H v Hv.
    assert (Hrest : forall e', e' ∈ rest -> Edge_NodeID e' <> v)
      by (intros e' He'; apply Hv; right; exact He').
    assert (Hne : v <> Edge_NodeID e) by (intros ->; apply (Hv e); [left|reflexivity]).
    apply bind_Ok in H as (x & _ & H). apply bind_Ok in H as (nb & _ & H).
    destruct (bool_decide (NodeID nb ∈ X)); [eapply IH; eauto|].
    apply bind_Ok in H as (cur & _ & H).
    destruct (Contains h (Some (Edge_NodeID e)) &&
              (GCost nb <? add32 (GCost cur) (Weight e))); [eapply IH; eauto|].
    apply bind_Ok in H as (ns1 & U1 & H). apply bind_Ok in H as (ns2 & U2 & H).
    apply bind_Ok in H as (nb2 & _ & H). apply bind_Ok in H as (hc & _ & H).
    apply bind_Ok in H as (ns3 & U3 & H). apply bind_Ok in H as ([ns4 h4] & HU & H).
    rewrite (IH _ _ _ _ H v Hrest).
    assert (He : erase ns4 = erase ns3).
    { destruct (Contains h (Some (Edge_NodeID e))).
      - apply SortUp_frame in HU. tauto.
      - apply Add_frame in HU. tauto. }
    rewrite He.
    rewrite (update_at_erase_other _ _ _ _ v U3 Hne).
    rewrite (update_at_erase_other _ _ _ _ v U2 Hne).
    apply (update_at_erase_other _ _ _ _ v U1 Hne).
Qed.

(** ** Fuel *)

Lemma FindPath_edges_fuel_mono (fuel fuel' : nat) (TargetID : Z) (X : gset Z)
  (Node : ptr) :
  (fuel <= fuel')%nat ->
  forall es ns h r,
    FindPath_edges FloorDistance fuel TargetID ns h X Node es = Ok r ->
    FindPath_edges FloorDistance fuel' TargetID ns h X Node es = Ok r.
Proof.
  intros Hle. induction es as [|e rest IH]; intros ns h r; simpl; [auto|].
  destruct (at_index ns (Edge_NodeID e)) as [nb|]; [simpl|discriminate].
  destruct (bool_decide (NodeID nb ∈ X)); [apply IH|].
  destruct (deref ns Node) as [cur|]; [simpl|discriminate].
  destruct (Contains h (Some (Edge_NodeID e)) &&
            (GCost nb <? add32 (GCost cur) (Weight e))); [apply IH|].
  destruct (update_at ns (Edge_NodeID e) (set_ParentID (NodeID cur))) as [ns1|];
    [simpl|discriminate].
  destruct (update_at ns1 (Edge_NodeID e) (set_GCost (add32 (GCost cur) (Weight e))))
    as [ns2|]; [simpl|discriminate].
  destruct (at_index ns2 (Edge_NodeID e)) as [nb2|]; [simpl|discriminate].
  destruct (CalcHeuristicDistance FloorDistance ns2 (NodeID nb2) TargetID) as [hc|];
    [simpl|discriminate].
  destruct (update_at ns2 (Edge_NodeID e) (set_HCost hc)) as [ns3|]; [simpl|discriminate].
  destruct (Contains h (Some (Edge_NodeID e))).
  - unfold UpdateItem.
    destruct (SortUp fuel ns3 h (Some (Edge_NodeID e))) as [[ns4 h4]|] eqn:E;
      [simpl|discriminate].
    rewrite (SortUp_fuel_mono _ _ _ _ _ _ E Hle). simpl. apply IH.
  - destruct (Add fuel ns3 h (Some (Edge_NodeID e))) as [[ns4 h4]|] eqn:E;
      [simpl|discriminate].
    rewrite (Add_fuel_mono _ _ _ _ _ _ E Hle). simpl. apply IH.
Qed.

Lemma FindPath_loop_fuel_mono (fuel fuel' : nat) (TargetID : Z) es :
  (fuel <= fuel')%nat ->
  forall (rounds rounds' : nat) ns h (X : gset Z) r,
    (rounds <= rounds')%nat ->
    FindPath_loop FloorDistance rounds fuel TargetID es ns h X = Ok r ->
    FindPath_loop FloorDistance rounds' fuel' TargetID es ns h X = Ok r.
Proof.
  intros Hle. induction rounds as [|rounds IH]; intros rounds' ns h X r Hr;
    [discriminate|].
  destruct rounds' as [|rounds']; [lia|]. simpl.
  destruct (IsNotEmpty h); [|auto].
  destruct (RemoveFirst fuel ns h) as [[[P ns1] h1]|] eqn:E; [simpl|discriminate].
  rewrite (RemoveFirst_fuel_mono _ _ _ _ _ E Hle). simpl.
  destruct (deref ns1 P) as [cur|]; [simpl|discriminate].
  destruct (NodeID cur =? TargetID); [auto|].
  destruct (at_index es (NodeID cur)) as [edges|]; [simpl|discriminate].
  destruct (FindPath_edges FloorDistance fuel TargetID ns1 h1 ({[NodeID cur]} ∪ X) P
              (NeighbouringEdges edges)) as [[ns2 h2]|] eqn:E2; [simpl|discriminate].
  rewrite (FindPath_edges_fuel_mono _ _ _ _ _ Hle _ _ _ _ E2). simpl.
  apply IH. lia.
Qed.

Lemma FindPath_fuel_mono (fuel fuel' : nat) (g : FBytesGraph FVector2D)
  (StartID TargetID : Z) r :
  (fuel <= fuel')%nat ->
  FindPath FloorDistance fuel g StartID TargetID = Ok r ->
  FindPath FloorDistance fuel' g StartID TargetID = Ok r.
Proof.
  intros Hle. unfold FindPath.
  destruct (update_at (Nodes (InitNodes g)) StartID (set_GCost 0)) as [ns1|];
    [simpl|discriminate].
  destruct (CalcHeuristicDistance FloorDistance ns1 StartID TargetID) as [hc|];
    [simpl|discriminate].
  destruct (update_at ns1 StartID (set_HCost hc)) as [ns2|]; [simpl|discriminate].
  destruct (Add fuel ns2 _ (Some StartID)) as [[ns3 h3]|] eqn:E; [simpl|discriminate].
  rewrite (Add_fuel_mono _ _ _ _ _ _ E Hle). simpl.
  destruct (FindPath_loop FloorDistance fuel fuel TargetID _ ns3 h3 ∅) as [[log ns4]|]
    eqn:E2; [simpl|discriminate].
  rewrite (FindPath_loop_fuel_mono _ _ _ _ Hle _ _ _ _ _ _ Hle E2). simpl. auto.
Qed.

End PointToPointOthers.

Section PointToPointTotal.
Context {FVector2D : Type}.
Variable FloorDistance : FVector2D -> FVector2D -> Z.
Variable es : list FBytesEdges.
Variable places : list (FBytesNode FVector2D).
Variables s t D W Hm : Z.
Implicit Types (ns : list (FBytesNode FVector2D)) (h : FBytesPathfindingHeap).
Implicit Types (n : FBytesNode FVector2D) (d p : Z -> Z) (X O A : gset Z).

Hypothesis places_dense : ids_dense places.
Hypothesis target_valid : 0 <= t < Num places.
Hypothesis capacity : Num places <= 2 ^ 30.
Hypothesis lists : Num es = Num places.
Hypothesis edges_valid : forall u v w, edge es u v w -> 0 <= v < Num places /\ 0 <= w.
Hypothesis weights_fit : forall u v w, edge es u v w -> w <= W.
Hypothesis W_nonneg : 0 <= W.
Hypothesis heuristic_fit :
  forall v, 0 <= v < Num places -> 0 <= heuristic FloorDistance places t v <= Hm.
Hypothesis consistent :
  forall u v w, edge es u v w ->
    heuristic FloorDistance places t u <= w + heuristic FloorDistance places t v.
Hypothesis costs_fit :
  forall v c, path_cost es s v c -> exists c', path_cost es s v c' /\ c' <= D.
Hypothesis int32_fit : D + W + Hm < 2 ^ 31.

(** The nodes that no path from the start reaches are as [InitNodes] left
    them. *)
Definition idle ns : Prop :=
  forall v n, at_index ns v = Ok n -> (forall c, ~ path_cost es s v c) ->
    GCost n = INITIAL_DISTANCE /\ ParentID n = -1.

Lemma idle_moved ns ns' :
  (forall v, (forall c, ~ path_cost es s v c) ->
     at_index (erase ns') v = at_index (erase ns) v) ->
  idle ns -> idle ns'.
Proof.
  intros Hsame Hidle v n' Hn' Hv. specialize (Hsame v Hv).
  rewrite !at_index_erase, Hn' in Hsame.
  destruct (at_index ns v) as [n|] eqn:Hn; simpl in Hsame; [|discriminate].
  assert (He : set_HeapIndex 0 n' = set_HeapIndex 0 n) by congruence.
  apply erased_fields in He as (_ & Hp & Hg & _).
  destruct (Hidle v n Hn Hv) as [H1 H2]. split; congruence.
Qed.

Lemma idle_erase ns ns' : erase ns' = erase ns -> idle ns -> idle ns'.
Proof. intros He. apply idle_moved. intros v _. rewrite He. reflexivity. Qed.

(** What the search knows about the target when it returns. *)
Definition verdict (log : search_log) ns : Prop :=
  match log with
  | PathFound =>
    exists n, at_index ns t = Ok n /\
      path_cost es s t (GCost n) /\
      (forall c, path_cost es s t c -> GCost n <= c) /\
      chain_cost ns es s t (GCost n)
  | NoPathFound => forall c, ~ path_cost es s t c
  end.

Lemma FindPath_loop_total (fuel : nat) :
  (Z.to_nat (Num places) <= fuel)%nat ->
  forall (rounds : nat) ns h d p X O,
    same_places places ns -> stored FloorDistance places t ns d p (X ∪ O) ->
    heap_of places ns h O ->
    traces h (X ∪ O) ->
    searched es s (Num places) (heuristic FloorDistance places t) d p X O ->
    t ∉ X ->
    idle ns ->
    (Z.to_nat (Num places) - size X < rounds)%nat ->
    exists log ns',
      FindPath_loop FloorDistance rounds fuel t es ns h X = Ok (log, ns') /\
      same_places places ns' /\ idle ns' /\ verdict log ns'.
Proof.
  intros Hfuel. induction rounds as [|rounds IH];
    intros ns h d p X O Hpl Hst Hho Htr R HtX Hidle Hrounds; [lia|].
  pose proof Hho as (Hwf & HNi & HO & Hsz).
  pose proof (same_places_Num _ _ Hpl) as HN.
  assert (Hsize : 0 <= Size h <= Num places).
  { pose proof (proj1 Hwf) as (Hsize & _). lia. }
  cbn [FindPath_loop]. unfold IsNotEmpty. rewrite Z.gtb_ltb.
  destruct (Z.ltb_spec 0 (Size h)) as [Hpos|Hemp].
  2: { (* the open heap is empty *)
    exists NoPathFound, ns. split_and!; auto. intros c Hc.
    assert (HOe : O ≡ ∅) by (apply size_empty_inv; lia).
    destruct (searched_path es s (Num places) (heuristic FloorDistance places t)
                consistent d p X O t c R Hc)
      as [(y & Hy & _)|[HX _]]; [|contradiction].
    apply HOe in Hy. exact (not_elem_of_empty (C := gset Z) y Hy). }
  assert (Hfuel' : (Z.to_nat (Size h) <= fuel)%nat) by lia.
  destruct (RemoveFirst_spec fuel ns h Hwf Hpos Hfuel') as
    (a0 & n0 & ns1 & h1 & HR & H0 & Hsz1 & Hwf1 & HN1 & He1 & Hin1 & Hbeyond & Hlast).
  assert (Ha0 : a0 ∈ O).
  { apply HO. exists 0. split; [lia|apply H0]. }
  pose proof (sr_open_valid _ _ _ _ _ _ _ _ R a0 Ha0) as Hv0.
  assert (Ha0X : a0 ∉ X) by (intros H; eapply sr_disjoint; eauto).
  pose proof H0 as [_ Hn0].
  destruct (erase_at_index _ _ _ _ He1 Hn0) as (n1 & Hn1 & Hen1).
  assert (Hpl1 : same_places places ns1).
  { eapply same_places_trans; [exact Hpl|]. apply same_places_erase, He1. }
  pose proof (same_places_dense _ _ Hpl1 places_dense) as Hd1.
  assert (Hmin : forall y, y ∈ O ->
            d a0 + heuristic FloorDistance places t a0
            <= d y + heuristic FloorDistance places t y).
  { intros y Hy. pose proof (sr_open_valid _ _ _ _ _ _ _ _ R y Hy) as Hvy.
    destruct (at_index_valid ns y ltac:(lia)) as [ny Hny].
    pose proof (heap_wf_root_min _ _ _ _ _ _ Hwf H0 (proj1 (HO y) Hy) Hny) as Hle.
    rewrite (stored_key FloorDistance places t D W Hm heuristic_fit int32_fit
               ns d p (X ∪ O) a0 n0 Hst Hn0 ltac:(set_solver) Hv0
               (searched_open_bounds FloorDistance es places s t D W edges_valid
                  weights_fit W_nonneg costs_fit _ _ _ _ _ R Ha0)) in Hle.
    rewrite (stored_key FloorDistance places t D W Hm heuristic_fit int32_fit
               ns d p (X ∪ O) y ny Hst Hny ltac:(set_solver) Hvy
               (searched_open_bounds FloorDistance es places s t D W edges_valid
                  weights_fit W_nonneg costs_fit _ _ _ _ _ R Hy)) in Hle.
    unfold key_le, key_lt in Hle. simpl in Hle. lia. }
  pose proof (searched_extract es s (Num places) (heuristic FloorDistance places t)
                edges_valid consistent d p X O a0 R Ha0 Hmin) as R1.
  assert (Hsets : ({[a0]} ∪ X) ∪ (O ∖ {[a0]}) = X ∪ O).
  { apply leibniz_equiv. intros x. destruct (decide (x = a0)); set_solver. }
  assert (Hst1 : stored FloorDistance places t ns1 d p (({[a0]} ∪ X) ∪ (O ∖ {[a0]}))).
  { rewrite Hsets. eapply stored_erase; eauto. }
  assert (Hho1 : heap_of places ns1 h1 (O ∖ {[a0]})).
  { split_and!; auto; [congruence| |].
    - intros x. rewrite (Hin1 x), elem_of_difference, elem_of_singleton, (HO x). tauto.
    - pose proof (size_remove O a0 Ha0). lia. }
  assert (Htr1 : traces h1 (({[a0]} ∪ X) ∪ (O ∖ {[a0]}))).
  { rewrite Hsets. apply (traces_moved h h1 (Size h - 1)); auto.
    - intros x Hx. rewrite <- Hsz1 in Hx. apply Hin1 in Hx as [Hx _].
      apply elem_of_union_r, HO, Hx.
    - intros j Hj. destruct (decide (j = Size h - 1)) as [->|Hne]; [exact Hlast|].
      apply Hbeyond. lia. }
  assert (Hidle1 : idle ns1) by (eapply idle_erase; eauto).
  pose proof (sg_tree _ _ _ _ _ _ _ _ _ _ R1 a0 ltac:(set_solver)) as Htree0.
  rewrite HR. simpl. rewrite Hn1. simpl. rewrite (Hd1 _ _ Hn1).
  destruct (Z.eqb_spec a0 t) as [->|Hne].
  - (* the target is extracted *)
    exists PathFound, ns1. split_and!; auto. exists n1.
    destruct (Hst1 t n1 Hn1 ltac:(set_solver)) as (Hg & _ & _).
    rewrite Hg. split_and!; auto.
    + eapply tree_path_cost, Htree0.
    + intros c Hc. eapply sg_optimal; eauto. set_solver.
    + eapply (tree_chain_stored FloorDistance es places s t ns1 d p ({[t]} ∪ X));
        [| |exact Htree0].
      * intros v n Hv Hin. apply (Hst1 v n Hv). set_solver.
      * intros x Hx. rewrite (same_places_Num _ _ Hpl1).
        eapply sg_closed_valid; eauto.
  - destruct (at_index_valid es a0 ltac:(lia)) as [edges Hedges].
    rewrite Hedges. simpl.
    destruct (FindPath_edges_spec FloorDistance es places s t D W Hm places_dense
                target_valid capacity lists edges_valid weights_fit W_nonneg
                heuristic_fit consistent costs_fit int32_fit
                fuel ({[a0]} ∪ X) a0 Hfuel (NeighbouringEdges edges) []
                ns1 h1 d p (O ∖ {[a0]}) Hpl1 Hst1 Hho1 Htr1 R1) as
      (ns2 & h2 & d2 & p2 & O2 & HF & Hpl2 & Hst2 & Hho2 & Htr2 & R2).
    { intros e He. exists edges, e. auto. }
    rewrite HF. simpl.
    assert (HsX : (size X < Z.to_nat (Num places))%nat).
    { pose proof (size_bounded ({[a0]} ∪ X) (Num places)) as Hb.
      rewrite size_add in Hb by exact Ha0X.
      assert (Hall : forall x, x ∈ {[a0]} ∪ X -> 0 <= x < Num places)
        by (intros x Hx; eapply sg_closed_valid; eauto).
      specialize (Hb Hall). lia. }
    assert (Hidle2 : idle ns2).
    { eapply idle_moved; [|exact Hidle1]. intros v Hv.
      eapply FindPath_edges_others; [exact HF|].
      intros e He <-. apply (Hv (d a0 + Weight e)).
      eapply path_snoc; [eapply tree_path_cost, Htree0|].
      exists edges, e. auto. }
    apply (IH ns2 h2 d2 p2 ({[a0]} ∪ X) O2); auto.
    + eapply searching_finish; [exact R2|].
      intros v w (eu & e & Heu & He & Hv & Hw). rewrite Hedges in Heu. inversion Heu.
      subst eu. exists e. rewrite app_nil_r, elem_of_reverse. auto.
    + set_solver.
    + rewrite size_add by exact Ha0X. lia.
Qed.

End PointToPointTotal.

Section PointToPointReaders.
Context {FVector2D : Type}.
Variable FloorDistance : FVector2D -> FVector2D -> Z.
Implicit Types (g : FBytesGraph FVector2D).

(** The conditions under which the sums of the search stay within [int32]
    and the heuristic is consistent: a well-formed graph, valid start and
    target, weights from 0 to [W], heuristic costs from 0 to [Hm], every
    node that can be reached reachable at a cost of at most [D], and
    [D + W + Hm < 2^31]. *)
Definition search_fit g (StartID TargetID D W Hm : Z) : Prop :=
  graph_wf g /\
  IsValidIndex (Nodes g) StartID = true /\
  IsValidIndex (Nodes g) TargetID = true /\
  weights_within (Edges g) W /\
  0 <= W /\
  (forall v, 0 <= v < Num (Nodes g) ->
     0 <= heuristic FloorDistance (Nodes g) TargetID v <= Hm) /\
  (forall u v w, edge (Edges g) u v w ->
     heuristic FloorDistance (Nodes g) TargetID u
     <= w + heuristic FloorDistance (Nodes g) TargetID v) /\
  (forall v c, path_cost (Edges g) StartID v c ->
     exists c', path_cost (Edges g) StartID v c' /\ c' <= D) /\
  D + W + Hm < 2 ^ 31.

(** The outcome of [FindPath], whether the target can be reached or not. *)
Lemma FindPath_run g (StartID TargetID D W Hm : Z) (fuel : nat) :
  search_fit g StartID TargetID D W Hm ->
  (Z.to_nat (Num (Nodes g)) < fuel)%nat ->
  exists log g',
    FindPath FloorDistance fuel g StartID TargetID = Ok (log, g') /\
    Edges g' = Edges g /\
    same_places (Nodes g) (Nodes g') /\
    idle (Edges g) StartID (Nodes g') /\
    verdict (Edges g) StartID TargetID log (Nodes g').
Proof.
  intros ((Hcap & HNe & Hd & Hev) & Hs & Ht & Hw & HW & Hhfit & Hcons & Hcosts & Hfit)
    Hfuel.
  apply IsValidIndex_true in Hs. apply IsValidIndex_true in Ht.
  set (places := Nodes g) in *. set (es := Edges g) in *.
  assert (Hedges : forall u v w, edge es u v w -> 0 <= v < Num places /\ 0 <= w).
  { intros u v w He. split; [eapply Hev, He|]. specialize (Hw u v w He). lia. }
  assert (Hwfit : forall u v w, edge es u v w -> w <= W).
  { intros u v w He. specialize (Hw u v w He). lia. }
  pose proof (InitNodes_same_places g) as Hpl0. fold places in Hpl0.
  set (ns0 := Nodes (InitNodes g)) in *.
  pose proof (same_places_Num _ _ Hpl0) as HN0.
  destruct (at_index_valid ns0 StartID ltac:(lia)) as [n0 Hn0].
  assert (Hidle0 : idle es StartID ns0).
  { intros v n Hn _. unfold ns0 in Hn. simpl in Hn. rewrite at_index_map in Hn.
    destruct (at_index (Nodes g) v); simpl in Hn; [|discriminate].
    inversion Hn. split; reflexivity. }
  assert (Hfar : forall v, (forall c, ~ path_cost es StartID v c) -> v <> StartID).
  { intros v Hv ->. apply (Hv 0). constructor. }
  destruct (update_at_valid ns0 StartID (set_GCost 0) n0 Hn0) as [ns1 U1].
  assert (Hn1 : at_index ns1 StartID = Ok (set_GCost 0 n0)).
  { rewrite (at_index_update_at _ _ _ _ StartID U1), decide_True, Hn0 by reflexivity.
    reflexivity. }
  assert (Hpl1 : same_places places ns1).
  { eapply same_places_trans; [exact Hpl0|].
    eapply same_places_update_at; [exact U1|reflexivity]. }
  destruct (update_at_valid ns1 StartID
              (set_HCost (heuristic FloorDistance places TargetID StartID)) _ Hn1)
    as [ns2 U2].
  set (n2 := set_HCost (heuristic FloorDistance places TargetID StartID)
               (set_GCost 0 n0)).
  assert (Hn2 : at_index ns2 StartID = Ok n2).
  { rewrite (at_index_update_at _ _ _ _ StartID U2), decide_True, Hn1 by reflexivity.
    reflexivity. }
  assert (Hpl2 : same_places places ns2).
  { eapply same_places_trans; [exact Hpl1|].
    eapply same_places_update_at; [exact U2|reflexivity]. }
  pose proof (same_places_Num _ _ Hpl2) as HN2.
  destruct (new_heap_wf ns2 (Num places)) as (Hwf0 & HNh & Hempty);
    [unfold Num in *; lia|].
  assert (Hroom : Size (new_FBytesPathfindingHeap (Num places))
                  < Num (Items (new_FBytesPathfindingHeap (Num places)))).
  { rewrite HNh. simpl. lia. }
  assert (Hfuel' : (Z.to_nat (Size (new_FBytesPathfindingHeap (Num places))) < fuel)%nat).
  { simpl. lia. }
  destruct (Add_spec fuel ns2 (new_FBytesPathfindingHeap (Num places)) StartID n2
              Hwf0 Hroom Hn2 (Hempty StartID) Hfuel') as
    (ns3 & h3 & HA & Hsz3 & Hwf3 & HN3 & He3 & Hin3 & Hbeyond3).
  simpl in Hsz3.
  assert (Hpl3 : same_places places ns3).
  { eapply same_places_trans; [exact Hpl2|]. apply same_places_erase, He3. }
  assert (Hidle3 : idle es StartID ns3).
  { eapply idle_moved; [|exact Hidle0]. intros v Hv. rewrite He3.
    rewrite (update_at_erase_other _ _ _ _ v U2 (Hfar v Hv)).
    apply (update_at_erase_other _ _ _ _ v U1 (Hfar v Hv)). }
  assert (Hst3 : stored FloorDistance places TargetID ns3 (fun _ => 0) (fun _ => -1)
                   (∅ ∪ {[StartID]})).
  { eapply stored_erase; [exact He3|]. intros v n Hv Hin.
    assert (v = StartID) by set_solver. subst v.
    rewrite Hn2 in Hv. inversion Hv. subst n. unfold n2. simpl.
    unfold ns0 in Hn0. simpl in Hn0. rewrite at_index_map in Hn0.
    destruct (at_index (Nodes g) StartID); simpl in Hn0; [|discriminate].
    inversion Hn0. auto. }
  assert (Hho3 : heap_of places ns3 h3 {[StartID]}).
  { split_and!; auto; [congruence| |rewrite size_singleton; lia].
    intros x. rewrite (Hin3 x), elem_of_singleton. split; [auto|].
    intros [Hx|Hx]; [destruct (Hempty x Hx)|exact Hx]. }
  assert (Htr3 : traces h3 (∅ ∪ {[StartID]})).
  { apply (traces_moved (new_FBytesPathfindingHeap (Num places)) h3 (Size h3)).
    - apply new_heap_traces.
    - intros x Hx. apply Hin3 in Hx as [Hx| ->]; [destruct (Hempty x Hx)|set_solver].
    - intros j Hj. apply Hbeyond3. simpl. lia. }
  assert (R0 : searched es StartID (Num places)
                 (heuristic FloorDistance places TargetID)
                 (fun _ => 0) (fun _ => -1) ∅ {[StartID]}).
  { apply searched_initial; auto. }
  assert (Hfuel'' : (Z.to_nat (Num places) <= fuel)%nat) by lia.
  assert (Hrounds : (Z.to_nat (Num places) - size (∅ : gset Z) < fuel)%nat).
  { rewrite size_empty. lia. }
  destruct (FindPath_loop_total FloorDistance es places StartID TargetID D W Hm
              Hd Ht Hcap HNe Hedges Hwfit HW Hhfit Hcons Hcosts Hfit fuel Hfuel''
              fuel ns3 h3 (fun _ => 0) (fun _ => -1) ∅ {[StartID]}
              Hpl3 Hst3 Hho3 Htr3 R0 ltac:(set_solver) Hidle3 Hrounds) as
    (log & ns4 & HL & Hpl4 & Hidle4 & Hverdict).
  exists log, (with_Nodes ns4 (InitNodes g)). split.
  { unfold FindPath. fold ns0. rewrite U1. simpl.
    rewrite (heuristic_calc FloorDistance places TargetID Ht ns1 StartID Hpl1 Hs).
    simpl. rewrite U2. simpl. rewrite HN0. rewrite HA. simpl.
    fold es. rewrite HL. reflexivity. }
  split_and!; auto.
Qed.

(** X19. Under the conditions of [search_fit], [FindPath] returns for every
    sufficient fuel, whether the target can be reached or not; it reports
    a path exactly when a path of edges leads from the start to the
    target, and every node that no path from the start reaches is left
    with the sentinel cost and predecessor -1. *)
Theorem FindPath_reports_reachability g (StartID TargetID D W Hm : Z) (fuel : nat) :
  search_fit g StartID TargetID D W Hm ->
  (Z.to_nat (Num (Nodes g)) < fuel)%nat ->
  exists log g',
    FindPath FloorDistance fuel g StartID TargetID = Ok (log, g') /\
    (log = PathFound <-> exists c, path_cost (Edges g) StartID TargetID c) /\
    forall v n, at_index (Nodes g') v = Ok n ->
      (forall c, ~ path_cost (Edges g) StartID v c) ->
      GCost n = INITIAL_DISTANCE /\ ParentID n = -1.
Proof.
  intros Hfit Hfuel.
  destruct (FindPath_run g StartID TargetID D W Hm fuel Hfit Hfuel) as
    (log & g' & HF & _ & _ & Hidle & Hverdict).
  exists log, g'. split_and!; auto. destruct log; simpl in Hverdict.
  - split; [|reflexivity]. intros _. destruct Hverdict as (n & _ & Hp & _). eauto.
  - split; [discriminate|]. intros (c & Hc). destruct (Hverdict c Hc).
Qed.

(** X20. Under the conditions of [search_fit], for a target that a path
    from the start reaches and whose predecessor entry is not -1 when the
    call is made, [GetPath] with recalculation returns, for every
    sufficient fuel, the nodes after the start of a path of edges from the
    start to the target whose total weight no such path undercuts. *)
Theorem GetPath_recalculate_shortest g (StartID TargetID D W Hm : Z) :
  search_fit g StartID TargetID D W Hm ->
  (exists n, at_index (Nodes g) TargetID = Ok n /\ ParentID n <> -1) ->
  (exists c, path_cost (Edges g) StartID TargetID c) ->
  exists g' Path c (k : nat),
    (forall fuel, (k <= fuel)%nat ->
       GetPath FloorDistance fuel g StartID TargetID true = Ok (g', Path)) /\
    walk (Edges g) StartID Path TargetID c /\
    (forall c', path_cost (Edges g) StartID TargetID c' -> c <= c').
Proof.
  intros Hfit (n & Hn & Hp) (c0 & Hc0).
  set (fuel0 := S (Z.to_nat (Num (Nodes g)))).
  destruct (FindPath_run g StartID TargetID D W Hm fuel0 Hfit ltac:(unfold fuel0; lia))
    as (log & g' & HF & _ & _ & _ & Hverdict).
  destruct log; simpl in Hverdict; [|destruct (Hverdict c0 Hc0)].
  destruct Hverdict as (n' & Hn' & Hpath & Hmin & Hchain).
  destruct (chain_cost_Retrace _ _ _ _ _ Hchain) as (k & chain & HR & Hwalk & _).
  exists g', (reverse chain), (GCost n'), (fuel0 `max` k)%nat. split_and!; auto.
  intros fuel Hk. rewrite GetPath_unfold.
  destruct Hfit as (_ & -> & -> & _). simpl. rewrite Hn. simpl.
  destruct (Z.eqb_spec (ParentID n) (-1)) as [|_]; [contradiction|].
  rewrite (FindPath_fuel_mono FloorDistance fuel0 fuel g StartID TargetID _
             ltac:(lia) HF).
  simpl. rewrite (HR fuel [] ltac:(lia)). reflexivity.
Qed.

(** X21. Under the conditions of [search_fit], for a target that no path
    from the start reaches but whose predecessor entry is not -1 when the
    call is made (an earlier search from elsewhere reached it), [GetPath]
    with recalculation reads the node array at index -1: the search resets
    the predecessor of the target to -1 and the retrace loop follows it. *)
Theorem GetPath_recalculate_unreachable_faults g (StartID TargetID D W Hm : Z)
  (fuel : nat) :
  search_fit g StartID TargetID D W Hm ->
  (exists n, at_index (Nodes g) TargetID = Ok n /\ ParentID n <> -1) ->
  (forall c, ~ path_cost (Edges g) StartID TargetID c) ->
  (Z.to_nat (Num (Nodes g)) < fuel)%nat ->
  GetPath FloorDistance fuel g StartID TargetID true = Fail (OutOfRange (-1)).
Proof.
  intros Hfit (n & Hn & Hp) Hfar Hfuel.
  destruct (FindPath_run g StartID TargetID D W Hm fuel Hfit Hfuel)
    as (log & g' & HF & _ & Hpl & Hidle & _).
  destruct Hfit as (_ & Hs & Ht & _).
  rewrite GetPath_unfold, Hs, Ht. simpl. rewrite Hn. simpl.
  destruct (Z.eqb_spec (ParentID n) (-1)) as [|_]; [contradiction|].
  rewrite HF. simpl.
  apply IsValidIndex_true in Hs. apply IsValidIndex_true in Ht.
  destruct (at_index_valid (Nodes g') TargetID) as [n' Hn'].
  { rewrite (same_places_Num _ _ Hpl). exact Ht. }
  destruct (Hidle _ _ Hn' Hfar) as [_ Hp'].
  assert (Hne : TargetID <> StartID).
  { intros ->. apply (Hfar 0). constructor. }
  destruct fuel as [|[|fuel]]; [lia|lia|]. simpl.
  destruct (Z.eqb_spec TargetID StartID) as [|_]; [contradiction|].
  rewrite Hn'. simpl. rewrite Hp'.
  destruct (Z.eqb_spec (-1) StartID) as [|_]; [lia|].
  rewrite at_index_negative by lia. reflexivity.
Qed.

End PointToPointReaders.

(** ** Closed instances of the searches *)

Lemma searches_fault_on_invalid_ids_witness :
  FindPathsToNodes 1 unreached1 5 = Fail (OutOfRange 5) /\
  FindPath zero_distance 1 unreached1 5 0 = Fail (OutOfRange 5).
Proof.
  apply (proj1 (searches_fault_on_invalid_ids zero_distance 1 unreached1 5 0)).
  reflexivity.
Defined.

Lemma line3_reset_wf : graph_wf line3_reset.
Proof.
  split_and!.
  - unfold Num. simpl. lia.
  - reflexivity.
  - intros i n H. simpl in H. at_index_inv H; simpl; lia.
  - intros u v w H. apply line3_reset_edges in H. unfold Num. simpl. lia.
Qed.

Lemma line3_reset_is_reset : reset (Nodes line3_reset).
Proof. intros i n H. simpl in H. at_index_inv H; simpl; auto. Qed.

Lemma line3_reset_weights (W : Z) : 5 <= W -> weights_within (Edges line3_reset) W.
Proof. intros HW u v w H. apply line3_reset_edges in H. lia. Qed.

Lemma line3_reset_path2 : path_cost (Edges line3_reset) 0 2 6.
Proof.
  apply (path_snoc (Edges line3_reset) 0 1 2 5 1).
  - apply (path_snoc (Edges line3_reset) 0 0 1 1 0); [constructor|].
    exists (mkEdges [mkEdge 1 1]), (mkEdge 1 1).
    split_and!; auto. apply list_elem_of_singleton. reflexivity.
  - exists (mkEdges [mkEdge 2 5; mkEdge 0 1]), (mkEdge 2 5).
    split_and!; auto. set_solver.
Qed.

Lemma GetNodesInRange_after_FindPathsToNodes_witness :
  exists g',
    FindPathsToNodes 5 line3_reset 0 = Ok g' /\
    increasing (GetNodesInRange g' 3) /\
    forall i, i ∈ GetNodesInRange g' 3 <->
              exists c, path_cost (Edges line3_reset) 0 i c /\ c <= 3.
Proof.
  apply (GetNodesInRange_after_FindPathsToNodes line3_reset 0 3 5).
  - exact line3_reset_wf.
  - apply line3_reset_weights. unfold INITIAL_DISTANCE. lia.
  - exact line3_reset_is_reset.
  - reflexivity.
  - unfold Num. simpl. lia.
  - unfold INITIAL_DISTANCE. lia.
Defined.

Lemma GetPath_after_FindPathsToNodes_witness :
  exists g' Path c (k : nat),
    FindPathsToNodes 5 line3_reset 0 = Ok g' /\
    (forall fuel', (k <= fuel')%nat ->
       GetPath zero_distance fuel' g' 0 2 false = Ok (g', Path)) /\
    walk (Edges line3_reset) 0 Path 2 c /\
    (forall c', path_cost (Edges line3_reset) 0 2 c' -> c <= c').
Proof.
  apply (GetPath_after_FindPathsToNodes zero_distance line3_reset 0 2 5).
  - exact line3_reset_wf.
  - apply line3_reset_weights. unfold INITIAL_DISTANCE. lia.
  - exact line3_reset_is_reset.
  - reflexivity.
  - reflexivity.
  - unfold Num. simpl. lia.
  - exists 6. split; [exact line3_reset_path2|unfold INITIAL_DISTANCE; lia].
Defined.

Lemma heuristic_zero (places : list (FBytesNode unit)) (t v : Z) :
  heuristic zero_distance places t v = 0.
Proof.
  unfold heuristic, CalcHeuristicDistance.
  destruct (at_index places v); simpl; [|reflexivity].
  destruct (at_index places t); reflexivity.
Qed.

Lemma line3_reset_fit (t : Z) :
  IsValidIndex (Nodes line3_reset) t = true ->
  search_fit zero_distance line3_reset 0 t 6 5 0.
Proof.
  intros Ht. split_and!; auto.
  - exact line3_reset_wf.
  - apply line3_reset_weights. lia.
  - lia.
  - intros v _. rewrite heuristic_zero. lia.
  - intros u v w H. rewrite !heuristic_zero. apply line3_reset_edges in H. lia.
  - exact line3_reset_costs.
  - lia.
Qed.

Lemma line3_reset_apart (c : Z) : ~ path_cost (Edges line3_reset) 0 3 c.
Proof.
  intros H. inversion H as [|u v w c' _ He]. apply line3_reset_steps in He. lia.
Qed.

Lemma FindPath_reports_reachability_witness :
  exists log g',
    FindPath zero_distance 5 line3_reset 0 3 = Ok (log, g') /\
    (log = PathFound <-> exists c, path_cost (Edges line3_reset) 0 3 c) /\
    forall v n, at_index (Nodes g') v = Ok n ->
      (forall c, ~ path_cost (Edges line3_reset) 0 v c) ->
      GCost n = INITIAL_DISTANCE /\ ParentID n = -1.
Proof.
  apply (FindPath_reports_reachability zero_distance line3_reset 0 3 6 5 0 5).
  - apply line3_reset_fit. reflexivity.
  - unfold Num. simpl. lia.
Defined.

Lemma cyclic_state_edges (u v w : Z) :
  edge (Edges cyclic_state) u v w -> 0 <= v < 3 /\ 0 <= w <= 5.
Proof.
  intros (eu & e & Hu & He & <- & <-). simpl in Hu.
  at_index_inv Hu; simpl in He;
    repeat (apply elem_of_cons in He as [->|He]; [simpl; lia|]); inversion He.
Qed.

Lemma cyclic_state_path0 : path_cost (Edges cyclic_state) 2 0 6.
Proof.
  apply (path_snoc (Edges cyclic_state) 2 1 0 1 5).
  - apply (path_snoc (Edges cyclic_state) 2 2 1 5 0); [constructor|].
    exists (mkEdges [mkEdge 1 5]), (mkEdge 1 5).
    split_and!; auto. apply list_elem_of_singleton. reflexivity.
  - exists (mkEdges [mkEdge 2 5; mkEdge 0 1]), (mkEdge 0 1).
    split_and!; auto. set_solver.
Qed.

Lemma cyclic_state_costs (v c : Z) :
  path_cost (Edges cyclic_state) 2 v c ->
  exists c', path_cost (Edges cyclic_state) 2 v c' /\ c' <= 6.
Proof.
  intros H.
  assert (P1 : path_cost (Edges cyclic_state) 2 1 5).
  { apply (path_snoc (Edges cyclic_state) 2 2 1 5 0); [constructor|].
    exists (mkEdges [mkEdge 1 5]), (mkEdge 1 5).
    split_and!; auto. apply list_elem_of_singleton. reflexivity. }
  assert (Hv : v = 0 \/ v = 1 \/ v = 2).
  { destruct H as [|u v w c _ He]; [auto|]. apply cyclic_state_edges in He. lia. }
  destruct Hv as [->|[->| ->]].
  - exists 6. split; [exact cyclic_state_path0|lia].
  - exists 5. split; [exact P1|lia].
  - exists 0. split; [constructor|lia].
Qed.

Lemma cyclic_state_fit : search_fit zero_distance cyclic_state 2 0 6 5 0.
Proof.
  split_and!; auto.
  - split_and!.
    + unfold Num. simpl. lia.
    + reflexivity.
    + intros i n H. simpl in H. at_index_inv H; simpl; lia.
    + intros u v w H. apply cyclic_state_edges in H. unfold Num. simpl. lia.
  - intros u v w H. apply cyclic_state_edges in H. lia.
  - lia.
  - intros v _. rewrite heuristic_zero. lia.
  - intros u v w H. rewrite !heuristic_zero. apply cyclic_state_edges in H. lia.
  - exact cyclic_state_costs.
  - lia.
Qed.

Lemma GetPath_recalculate_shortest_witness :
  exists g' Path c (k : nat),
    (forall fuel, (k <= fuel)%nat ->
       GetPath zero_distance fuel cyclic_state 2 0 true = Ok (g', Path)) /\
    walk (Edges cyclic_state) 2 Path 0 c /\
    (forall c', path_cost (Edges cyclic_state) 2 0 c' -> c <= c').
Proof.
  apply (GetPath_recalculate_shortest zero_distance cyclic_state 2 0 6 5 0).
  - exact cyclic_state_fit.
  - exists (node1 0 1 0 0 0). split; [reflexivity|]. simpl. lia.
  - exists 6. exact cyclic_state_path0.
Defined.

(** Nodes 0 and 1 are joined, node 2 has no edge; an earlier search from 0
    has reached 1. *)
Definition apart3 : FBytesGraph unit :=
  mkGraph [node1 0 (-1) 0 0 0; node1 1 0 4 0 0; node1 2 (-1) INITIAL_DISTANCE 0 0]
          [mkEdges [mkEdge 1 4]; mkEdges [mkEdge 0 4]; mkEdges []]
          Distance2D.

Lemma apart3_edges (u v w : Z) :
  edge (Edges apart3) u v w -> 0 <= u < 2 /\ 0 <= v < 2 /\ w = 4.
Proof.
  intros (eu & e & Hu & He & <- & <-). simpl in Hu.
  at_index_inv Hu; simpl in He;
    repeat (apply elem_of_cons in He as [->|He]; [simpl; lia|]); inversion He.
Qed.

Lemma apart3_paths (v c : Z) : path_cost (Edges apart3) 2 v c -> v = 2 /\ c = 0.
Proof.
  induction 1 as [|u v w c _ IH He]; [auto|].
  apply apart3_edges in He. lia.
Qed.

Lemma apart3_fit : search_fit zero_distance apart3 2 1 0 4 0.
Proof.
  split_and!; auto.
  - split_and!.
    + unfold Num. simpl. lia.
    + reflexivity.
    + intros i n H. simpl in H. at_index_inv H; simpl; lia.
    + intros u v w H. apply apart3_edges in H. unfold Num. simpl. lia.
  - intros u v w H. apply apart3_edges in H. lia.
  - lia.
  - intros v _. rewrite heuristic_zero. lia.
  - intros u v w H. rewrite !heuristic_zero. apply apart3_edges in H. lia.
  - intros v c H. exists c. split; [exact H|]. apply apart3_paths in H. lia.
  - lia.
Qed.

Lemma GetPath_recalculate_unreachable_faults_witness :
  GetPath zero_distance 4 apart3 2 1 true = Fail (OutOfRange (-1)).
Proof.
  apply (GetPath_recalculate_unreachable_faults zero_distance apart3 2 1 0 4 0 4).
  - exact apart3_fit.
  - exists (node1 1 0 4 0 0). split; [reflexivity|]. simpl. lia.
  - intros c H. apply apart3_paths in H. lia.
  - unfold Num. simpl. lia.
Defined.

(** * Costs left by an earlier search *)

Section StaleCosts.
Context {FVector2D : Type}.
Implicit Types (ns : list (FBytesNode FVector2D)) (h : FBytesPathfindingHeap).
Implicit Types (g : FBytesGraph FVector2D).

(** No node of [ns'] has a greater cost than it has in [ns]. *)
Definition not_raised ns ns' : Prop :=
  Num ns' = Num ns /\
  forall v n n', at_index ns v = Ok n -> at_index ns' v = Ok n' -> GCost n' <= GCost n.

Lemma not_raised_refl ns : not_raised ns ns.
Proof.
  split; [reflexivity|]. intros v n n' H H'. rewrite H in H'. inversion H'. lia.
Qed.

Lemma not_raised_trans ns1 ns2 ns3 :
  not_raised ns1 ns2 -> not_raised ns2 ns3 -> not_raised ns1 ns3.
Proof.
  intros [HN1 H1] [HN2 H2]. split; [congruence|]. intros v n1 n3 Hn1 Hn3.
  destruct (at_index_valid ns2 v) as [n2 Hn2].
  { rewrite HN1. eapply at_index_Ok_valid, Hn1. }
  specialize (H1 v n1 n2 Hn1 Hn2). specialize (H2 v n2 n3 Hn2 Hn3). lia.
Qed.

Lemma not_raised_erase ns ns' : erase ns' = erase ns -> not_raised ns ns'.
Proof.
  intros He. split; [apply erase_Num, He|]. intros v n n' Hn Hn'.
  destruct (erase_at_index _ _ _ _ He Hn) as (n2 & Hn2 & Hen).
  rewrite Hn' in Hn2. inversion Hn2. subst n2.
  apply erased_fields in Hen as (_ & _ & Hg & _). lia.
Qed.

Lemma not_raised_update_at ns (a : Z)
  (f : FBytesNode FVector2D -> FBytesNode FVector2D) ns' :
  update_at ns a f = Ok ns' ->
  (forall n, at_index ns a = Ok n -> GCost (f n) <= GCost n) ->
  not_raised ns ns'.
Proof.
  intros U Hf. split; [eapply update_at_Num, U|]. intros v n n' Hn Hn'.
  rewrite (at_index_update_at _ _ _ _ v U) in Hn'.
  destruct (decide (v = a)) as [->|Hne].
  - rewrite Hn in Hn'. inversion Hn'. apply Hf, Hn.
  - rewrite Hn in Hn'. inversion Hn'. lia.
Qed.

Lemma AddAll_not_raised (fuel : nat) :
  forall addrs ns h ns' h',
    AddAll fuel ns h addrs = Ok (ns', h') -> not_raised ns ns'.
Proof.
  induction addrs as [|a rest IH]; intros ns h ns' h'; simpl.
  - intros H. inversion H. apply not_raised_refl.
  - intros H. apply bind_Ok in H as ([ns1 h1] & HA & H).
    apply Add_frame in HA as (He & _). apply IH in H.
    eapply not_raised_trans; [apply not_raised_erase, He|exact H].
Qed.

Lemma RelaxEdges_not_raised (fuel : nat) (Node : ptr) :
  forall es ns h ns' h',
    RelaxEdges fuel ns h Node es = Ok (ns', h') -> not_raised ns ns'.
Proof.
  induction es as [|e rest IH]; intros ns h ns' h'; simpl.
  - intros H. inversion H. apply not_raised_refl.
  - intros H. apply bind_Ok in H as (n & _ & H). apply bind_Ok in H as (cur & _ & H).
    apply bind_Ok in H as (nb & Hnb & H).
    destruct (Z.ltb_spec (add32 (GCost cur) (Weight e)) (GCost nb)) as [Hlt|_];
      [|eapply IH, H].
    apply bind_Ok in H as (ns1 & U1 & H). apply bind_Ok in H as (n1 & _ & H).
    apply bind_Ok in H as (ns2 & U2 & H). apply bind_Ok in H as (x & _ & H).
    apply bind_Ok in H as ([ns3 h3] & HU & H).
    apply SortUp_frame in HU as (He & _). apply IH in H.
    eapply not_raised_trans; [|exact H].
    eapply not_raised_trans; [|apply not_raised_erase, He].
    eapply not_raised_trans.
    + apply (not_raised_update_at _ _ _ _ U1). intros n0 Hn0.
      rewrite Hnb in Hn0. inversion Hn0. subst. simpl. lia.
    + apply (not_raised_update_at _ _ _ _ U2). intros n0 _. simpl. lia.
Qed.

Lemma FindPathsToNodes_loop_not_raised (fuel : nat) es :
  forall (rounds : nat) ns h ns',
    FindPathsToNodes_loop rounds fuel es ns h = Ok ns' -> not_raised ns ns'.
Proof.
  induction rounds as [|rounds IH]; intros ns h ns'; simpl; [discriminate|].
  destruct (IsNotEmpty h); [|intros H; inversion H; apply not_raised_refl].
  intros H. apply bind_Ok in H as ([[P ns1] h1] & HR & H).
  apply bind_Ok in H as (n & _ & H). apply bind_Ok in H as (edges & _ & H).
  apply bind_Ok in H as ([ns2 h2] & HE & H).
  apply RemoveFirst_frame in HR as (He & _). apply RelaxEdges_not_raised in HE.
  apply IH in H.
  eapply not_raised_trans; [apply not_raised_erase, He|].
  eapply not_raised_trans; eauto.
Qed.

(** X22. [FindPathsToNodes] never resets or raises a cost: whenever it
    returns, every node other than the start has a cost that is at most
    the cost it had before the call, and the cost of the start is at most
    0. So costs left by an earlier search from another start stay, wherever
    the new search does not undercut them. *)
Theorem FindPathsToNodes_never_raises_costs (fuel : nat) g (StartID : Z) :
  match FindPathsToNodes fuel g StartID with
  | Ok g' =>
    forall v n n', at_index (Nodes g) v = Ok n -> at_index (Nodes g') v = Ok n' ->
      (v <> StartID -> GCost n' <= GCost n) /\ (v = StartID -> GCost n' <= 0)
  | Fail _ => True
  end.
Proof.
  destruct (FindPathsToNodes fuel g StartID) as [g'|] eqn:E; [|exact I].
  unfold FindPathsToNodes in E. apply bind_Ok in E as (ns0 & U0 & E).
  apply bind_Ok in E as ([ns1 h1] & HA & E). apply bind_Ok in E as (ns2 & HL & E).
  inversion E. subst g'. simpl. clear E.
  apply AddAll_not_raised in HA. apply FindPathsToNodes_loop_not_raised in HL.
  pose proof (not_raised_trans _ _ _ HA HL) as [HN Hle].
  intros v n n' Hn Hn'.
  destruct (at_index_valid ns0 v) as [n0 Hn0].
  { rewrite (update_at_Num _ _ _ _ U0). eapply at_index_Ok_valid, Hn. }
  specialize (Hle v n0 n' Hn0 Hn').
  rewrite (at_index_update_at _ _ _ _ v U0) in Hn0.
  destruct (decide (v = StartID)) as [->|Hne].
  - rewrite Hn in Hn0. inversion Hn0. subst n0. simpl in Hle. split; [tauto|auto].
  - rewrite Hn in Hn0. inversion Hn0. subst n0. split; [auto|tauto].
Qed.

End StaleCosts.
